(** * unified_transcribe.py: the idempotent ingestion pipeline

    A shallow embedding of [src/unified_transcribe.py] and the properties
    the specification states about it.

    Conventions of the embedding.
    - A Python [str] is a list of Unicode code points ([list N]); file
      contents are lists of bytes.  Text written to disk goes through
      [utf8_encode], text read from disk through the strict decoder
      [utf8_decode], as [open(..., encoding="utf-8")] does.  Values of
      type [str] are assumed to hold Unicode scalar values (file names on
      APFS/HFS+ are valid Unicode), so encoding never raises.
    - The three directories the pipeline touches are finite maps from
      entry name to node; the ledger and the error log are separate
      components of the world, since no other path the program computes
      can name them (their suffixes are [.jsonl] and [.log]).
    - Everything outside the program (SHA-256, [strftime], the wall
      clock, ffmpeg, the transcription service) is an oracle in [Env].
      Oracles that can answer differently from call to call take the
      world's clock, which every external interaction advances.
    - A Python exception is a value of [exn]; code that can raise returns
      [result]. *)

From Stdlib Require Import NArith ZArith Ascii String Strings.Byte DecimalN.
From stdpp Require Import base option list numbers sorting gmap.

Local Open Scope N_scope.
Local Set Warnings "-register-all".

(* ===================================================================== *)
(** ** Python strings *)
(* ===================================================================== *)

Abbreviation str := (list N).
Abbreviation bytes := (list byte).

(** An ASCII literal as a [str] / as [bytes]. *)
Definition lit (s : string) : str := N_of_ascii <$> list_ascii_of_string s.
Definition blit (s : string) : bytes := list_byte_of_string s.

Definition SP : N := 32.
Definition LF : N := 10.
Definition CR : N := 13.

(** [str.isspace] on one code point (CPython's [_PyUnicode_IsWhitespace]). *)
Definition is_space (c : N) : bool :=
  ((9 <=? c) && (c <=? 13)) || ((28 <=? c) && (c <=? 32))
  || (c =? 0x85) || (c =? 0xA0) || (c =? 0x1680)
  || ((0x2000 <=? c) && (c <=? 0x200A))
  || (c =? 0x2028) || (c =? 0x2029) || (c =? 0x202F) || (c =? 0x205F)
  || (c =? 0x3000).

(** [str.split()] with no argument: maximal runs of non-whitespace.
    [cur] is the word read so far, reversed. *)
Fixpoint split_ws_aux (cur : str) (s : str) : list str :=
  match s with
  | [] => match cur with [] => [] | _ => [reverse cur] end
  | c :: r =>
      if is_space c
      then match cur with
           | [] => split_ws_aux [] r
           | _ => reverse cur :: split_ws_aux [] r
           end
      else split_ws_aux (c :: cur) r
  end.

Definition py_split (s : str) : list str := split_ws_aux [] s.

(** [sep.join(parts)]. *)
Fixpoint py_join (sep : str) (parts : list str) : str :=
  match parts with
  | [] => []
  | [p] => p
  | p :: ps => p ++ sep ++ py_join sep ps
  end.

(** [s.replace(ch, " ")] for a one-character [ch]. *)
Definition replace_char (ch : N) (by_ : N) (s : str) : str :=
  (λ c, if c =? ch then by_ else c) <$> s.

(** [str.strip()] with no argument. *)
Fixpoint lstrip (s : str) : str :=
  match s with
  | c :: r => if is_space c then lstrip r else s
  | [] => []
  end.

Definition rstrip (s : str) : str := reverse (lstrip (reverse s)).
Definition strip (s : str) : str := rstrip (lstrip s).

(* ===================================================================== *)
(** ** Naming policy: [safe_stem] *)
(* ===================================================================== *)

(** The list [bad] of [safe_stem]: slash, backslash, colon, star, question
    mark, double quote, angle brackets, bar, and the four smart quotes
    U+201C, U+201D, U+2018, U+2019. *)
Definition bad : list N :=
  [47; 92; 58; 42; 63; 34; 60; 62; 124; 0x201C; 0x201D; 0x2018; 0x2019].

Definition safe_stem (s : str) : str :=
  let out := fold_left (λ out ch, replace_char ch SP out) bad s in
  py_join [SP] (py_split out).

(** [str(i)] for a non-negative [int]: its decimal digits. *)
Fixpoint uint_digits (d : Decimal.uint) : str :=
  match d with
  | Decimal.Nil => []
  | Decimal.D0 r => 48 :: uint_digits r
  | Decimal.D1 r => 49 :: uint_digits r
  | Decimal.D2 r => 50 :: uint_digits r
  | Decimal.D3 r => 51 :: uint_digits r
  | Decimal.D4 r => 52 :: uint_digits r
  | Decimal.D5 r => 53 :: uint_digits r
  | Decimal.D6 r => 54 :: uint_digits r
  | Decimal.D7 r => 55 :: uint_digits r
  | Decimal.D8 r => 56 :: uint_digits r
  | Decimal.D9 r => 57 :: uint_digits r
  end.

Definition py_str_int (i : N) : str := uint_digits (N.to_uint i).

(* ===================================================================== *)
(** ** File system *)
(* ===================================================================== *)

(** A regular file: its bytes, its modification time, and whether the
    process may open it for reading. *)
Record FileData := mkFile {
  content : bytes;
  mtime : Z;
  readable : bool;
}.

(** A directory entry is a regular file or a subdirectory. *)
Inductive Node :=
  | File (d : FileData)
  | Dir.

Abbreviation folder := (gmap str Node).

(** [Path.exists()] and [Path.is_file()] for an entry name of a folder. *)
Definition exists_ (fo : folder) (name : str) : bool :=
  match fo !! name with Some _ => true | None => false end.

Definition is_file (fo : folder) (name : str) : bool :=
  match fo !! name with Some (File _) => true | _ => false end.

(** [Path.stat().st_size]. *)
Definition st_size (d : FileData) : Z := Z.of_nat (length (content d)).

(* ===================================================================== *)
(** ** Naming policy: [make_unique_txt_path] *)
(* ===================================================================== *)

(** The candidate of round [i] of the loop: [f"{base_name} {i}.txt"]. *)
Definition numbered (base_name : str) (i : N) : str :=
  base_name ++ [SP] ++ py_str_int i ++ lit ".txt".

(** The [while True] loop of [make_unique_txt_path], started at counter
    [i].  It is run for at most [fuel] rounds; after that many used
    candidates the next one is returned as it is.  With [fuel] the number
    of entries of the folder, that candidate is unused (lemma
    [probe_first_unused] below), so this is the value the loop returns. *)
Fixpoint probe (fo : folder) (base_name : str) (fuel : nat) (i : N) : str :=
  let candidate := numbered base_name i in
  match fuel with
  | O => candidate
  | S fuel' =>
      if negb (exists_ fo candidate) then candidate
      else probe fo base_name fuel' (i + 1)
  end.

Definition make_unique_txt_path (fo : folder) (base_name : str) : str :=
  let candidate := base_name ++ lit ".txt" in
  if negb (exists_ fo candidate) then candidate
  else probe fo base_name (size fo) 2.

(* ===================================================================== *)
(** ** [pathlib] name operations *)
(* ===================================================================== *)

Definition DOT : N := 46.

(** [name.rfind(".")]: index of the last dot, [None] for -1. *)
Fixpoint rfind_from (ch : N) (s : str) (i : nat) (last : option nat) : option nat :=
  match s with
  | [] => last
  | c :: r => rfind_from ch r (S i) (if c =? ch then Some i else last)
  end.

Definition rfind (ch : N) (s : str) : option nat := rfind_from ch s 0 None.

(** Index at which the suffix of [name] starts, when it has one:
    [0 < i < len(name) - 1] for [i = name.rfind(".")]. *)
Definition suffix_start (name : str) : option nat :=
  match rfind DOT name with
  | Some i => if bool_decide (0 < i ∧ S i < length name)%nat then Some i else None
  | None => None
  end.

(** [PurePath.suffix] and [PurePath.stem] of a path with final component
    [name]. *)
Definition py_suffix (name : str) : str :=
  match suffix_start name with Some i => drop i name | None => [] end.

Definition py_stem (name : str) : str :=
  match suffix_start name with Some i => take i name | None => name end.

(** [PurePath.with_suffix(suffix)] on the final component (the directory
    part is unchanged): the old suffix, if any, is cut off and the new
    one appended. *)
Definition with_suffix (name : str) (suffix : str) : str :=
  py_stem name ++ suffix.

(** [str.lower()], on the letters that matter for [AUDIO_EXTS]: no
    non-ASCII code point lowers to a character of an audio extension. *)
Definition lower_char (c : N) : N :=
  if (65 <=? c) && (c <=? 90) then c + 32 else c.

Definition lower (s : str) : str := lower_char <$> s.

Definition AUDIO_EXTS : list str :=
  [lit ".mp3"; lit ".mp4"; lit ".mpeg"; lit ".mpga"; lit ".m4a";
   lit ".wav"; lit ".webm"; lit ".ogg"; lit ".oga"; lit ".flac"].

(* ===================================================================== *)
(** ** Text files: UTF-8, newlines, lines *)
(* ===================================================================== *)

Definition byte_of_N (n : N) : byte :=
  default Byte.x00 (Byte.of_N (n mod 256)).

(** UTF-8 encoding of one code point. *)
Definition utf8_encode_char (c : N) : bytes :=
  if c <? 0x80 then [byte_of_N c]
  else if c <? 0x800 then
    [byte_of_N (0xC0 + c / 64); byte_of_N (0x80 + c mod 64)]
  else if c <? 0x10000 then
    [byte_of_N (0xE0 + c / 4096); byte_of_N (0x80 + (c / 64) mod 64);
     byte_of_N (0x80 + c mod 64)]
  else
    [byte_of_N (0xF0 + c / 262144); byte_of_N (0x80 + (c / 4096) mod 64);
     byte_of_N (0x80 + (c / 64) mod 64); byte_of_N (0x80 + c mod 64)].

Definition utf8_encode (s : str) : bytes := s ≫= utf8_encode_char.

(** A continuation byte in the range [lo..hi], as its six payload bits. *)
Definition cont_in (lo hi : N) (b : byte) : option N :=
  let n := Byte.to_N b in
  if (lo <=? n) && (n <=? hi) then Some (n mod 64) else None.

Definition cont (b : byte) : option N := cont_in 0x80 0xBF b.

(** The strict UTF-8 decoder of [bytes.decode("utf-8")]: [None] stands for
    [UnicodeDecodeError] (invalid start byte, invalid or missing
    continuation byte, overlong form, surrogate, beyond U+10FFFF). *)
Fixpoint utf8_decode (bs : bytes) : option str :=
  match bs with
  | [] => Some []
  | b0 :: r0 =>
      let n0 := Byte.to_N b0 in
      if n0 <? 0x80 then cons n0 <$> utf8_decode r0
      else if (0xC2 <=? n0) && (n0 <=? 0xDF) then
        match r0 with
        | b1 :: r1 =>
            c1 ← cont b1;
            cons ((n0 - 0xC0) * 64 + c1) <$> utf8_decode r1
        | _ => None
        end
      else if (0xE0 <=? n0) && (n0 <=? 0xEF) then
        match r0 with
        | b1 :: b2 :: r2 =>
            c1 ← cont_in (if n0 =? 0xE0 then 0xA0 else 0x80)
                         (if n0 =? 0xED then 0x9F else 0xBF) b1;
            c2 ← cont b2;
            cons ((n0 - 0xE0) * 4096 + c1 * 64 + c2) <$> utf8_decode r2
        | _ => None
        end
      else if (0xF0 <=? n0) && (n0 <=? 0xF4) then
        match r0 with
        | b1 :: b2 :: b3 :: r3 =>
            c1 ← cont_in (if n0 =? 0xF0 then 0x90 else 0x80)
                         (if n0 =? 0xF4 then 0x8F else 0xBF) b1;
            c2 ← cont b2;
            c3 ← cont b3;
            cons ((n0 - 0xF0) * 262144 + c1 * 4096 + c2 * 64 + c3)
              <$> utf8_decode r3
        | _ => None
        end
      else None
  end.

(** Universal-newline translation of a text stream opened for reading:
    CR LF and a lone CR become LF. *)
Fixpoint universal_newlines (s : str) : str :=
  match s with
  | [] => []
  | c :: r =>
      if c =? CR then
        match r with
        | c' :: r' => if c' =? LF then LF :: universal_newlines r'
                      else LF :: universal_newlines r
        | [] => [LF]
        end
      else c :: universal_newlines r
  end.

(** The line boundaries of [str.splitlines]: LF, VT, FF, CR, FS, GS, RS,
    NEL, LINE SEPARATOR, PARAGRAPH SEPARATOR (CR LF is one boundary). *)
Definition is_linebreak (c : N) : bool :=
  ((10 <=? c) && (c <=? 13)) || ((28 <=? c) && (c <=? 30))
  || (c =? 0x85) || (c =? 0x2028) || (c =? 0x2029).

(** [str.splitlines()]; [cur] is the line read so far, reversed.  A final
    line need not end in a boundary; no empty line is added after a final
    boundary. *)
Fixpoint splitlines_aux (cur : str) (s : str) : list str :=
  match s with
  | [] => match cur with [] => [] | _ => [reverse cur] end
  | c :: r =>
      if c =? CR then
        match r with
        | c' :: r' => if c' =? LF then reverse cur :: splitlines_aux [] r'
                      else reverse cur :: splitlines_aux [] r
        | [] => [reverse cur]
        end
      else if is_linebreak c then reverse cur :: splitlines_aux [] r
      else splitlines_aux (c :: cur) r
  end.

Definition splitlines (s : str) : list str := splitlines_aux [] s.

(* ===================================================================== *)
(** ** JSON: [json.loads] and [json.dumps] *)
(* ===================================================================== *)

(** A decoded JSON value.  A number keeps its literal (the decoder's
    [int(...)] or [float(...)] of it), with a flag for the float form;
    the constants NaN, Infinity and -Infinity are float literals too.
    An object keeps its pairs in source order; [dict] lookup takes the
    last pair of a key. *)
Inductive json :=
  | JNull
  | JBool (b : bool)
  | JNum (is_float : bool) (literal : str)
  | JStr (s : str)
  | JArr (xs : list json)
  | JObj (pairs : list (str * json)).

Definition QUOTE : N := 34.
Definition BACKSLASH : N := 92.

(** JSON whitespace: space, tab, LF, CR. *)
Definition is_json_ws (c : N) : bool :=
  (c =? 32) || (c =? 9) || (c =? 10) || (c =? 13).

Fixpoint skip_ws (s : str) : str :=
  match s with
  | c :: r => if is_json_ws c then skip_ws r else s
  | [] => []
  end.

Definition hexval (c : N) : option N :=
  if (48 <=? c) && (c <=? 57) then Some (c - 48)
  else if (97 <=? c) && (c <=? 102) then Some (c - 87)
  else if (65 <=? c) && (c <=? 70) then Some (c - 55)
  else None.

Definition hex4 (a b c d : N) : option N :=
  x ← hexval a; y ← hexval b; z ← hexval c; w ← hexval d;
  Some (x * 4096 + y * 256 + z * 16 + w).

(** The one-character escapes of the decoder's [BACKSLASH] table. *)
Definition unescape (e : N) : option N :=
  if e =? 34 then Some 34        (* quote *)
  else if e =? 92 then Some 92   (* backslash *)
  else if e =? 47 then Some 47   (* slash *)
  else if e =? 98 then Some 8    (* b *)
  else if e =? 102 then Some 12  (* f *)
  else if e =? 110 then Some 10  (* n *)
  else if e =? 114 then Some 13  (* r *)
  else if e =? 116 then Some 9   (* t *)
  else None.

Definition is_high_surrogate (u : N) : bool := (0xD800 <=? u) && (u <=? 0xDBFF).
Definition is_low_surrogate (u : N) : bool := (0xDC00 <=? u) && (u <=? 0xDFFF).

(** [scanstring] in strict mode, from just after the opening quote:
    the decoded string and the input after the closing quote.  [acc] is
    the string decoded so far, reversed. *)
Fixpoint scanstring (s : str) (acc : str) : option (str * str) :=
  match s with
  | [] => None
  | c :: r =>
      if c =? QUOTE then Some (reverse acc, r)
      else if c =? BACKSLASH then
        match r with
        | [] => None
        | e :: r1 =>
            if e =? 117 then
              match r1 with
              | h1 :: h2 :: h3 :: h4 :: r2 =>
                  uni ← hex4 h1 h2 h3 h4;
                  if is_high_surrogate uni then
                    match r2 with
                    | b :: u :: r3 =>
                        if (b =? BACKSLASH) && (u =? 117) then
                          match r3 with
                          | g1 :: g2 :: g3 :: g4 :: r4 =>
                              uni2 ← hex4 g1 g2 g3 g4;
                              if is_low_surrogate uni2
                              then scanstring r4
                                     (0x10000 + (uni - 0xD800) * 1024
                                      + (uni2 - 0xDC00) :: acc)
                              else scanstring r2 (uni :: acc)
                          | _ => None
                          end
                        else scanstring r2 (uni :: acc)
                    | _ => scanstring r2 (uni :: acc)
                    end
                  else scanstring r2 (uni :: acc)
              | _ => None
              end
            else
              ch ← unescape e;
              scanstring r1 (ch :: acc)
        end
      else if c <? 32 then None
      else scanstring r (c :: acc)
  end.

Definition is_digit (c : N) : bool := (48 <=? c) && (c <=? 57).

Fixpoint span_digits (s : str) : str * str :=
  match s with
  | c :: r =>
      if is_digit c then let '(d, r') := span_digits r in (c :: d, r')
      else ([], s)
  | [] => ([], [])
  end.

(** The integer part of [NUMBER_RE]: an optional minus sign, then [0] or
    a non-zero digit followed by digits. *)
Definition match_integer (s : str) : option (str * str) :=
  let '(sign, s1) :=
    match s with
    | c :: r => if c =? 45 then ([45], r) else ([], s)
    | [] => ([], s)
    end in
  match s1 with
  | c :: r =>
      if c =? 48 then Some (sign ++ [48], r)
      else if is_digit c then
        let '(d, r') := span_digits r in Some (sign ++ c :: d, r')
      else None
  | [] => None
  end.

(** The optional fraction of [NUMBER_RE]: a dot and at least one digit. *)
Definition match_frac (s : str) : str * str :=
  match s with
  | c :: r =>
      if c =? 46 then
        match span_digits r with
        | ([], _) => ([], s)
        | (d, r') => (c :: d, r')
        end
      else ([], s)
  | [] => ([], s)
  end.

(** The optional exponent of [NUMBER_RE]: [e] or [E], an optional sign
    and at least one digit. *)
Definition match_exp (s : str) : str * str :=
  match s with
  | c :: r =>
      if (c =? 101) || (c =? 69) then
        let '(sg, r1) :=
          match r with
          | c' :: r' => if (c' =? 45) || (c' =? 43) then ([c'], r') else ([], r)
          | [] => ([], r)
          end in
        match span_digits r1 with
        | ([], _) => ([], s)
        | (d, r2) => (c :: sg ++ d, r2)
        end
      else ([], s)
  | [] => ([], s)
  end.

(** [NUMBER_RE.match]: the number at the head of [s], if any. *)
Definition match_number (s : str) : option (json * str) :=
  '(i, r1) ← match_integer s;
  let '(f, r2) := match_frac r1 in
  let '(e, r3) := match_exp r2 in
  Some (JNum (negb (bool_decide (f = [] ∧ e = []))) (i ++ f ++ e), r3).

(** [s[idx:idx+len(p)] == p]: the input after the prefix [p]. *)
Fixpoint after_prefix (p s : str) : option str :=
  match p, s with
  | [], _ => Some s
  | a :: p', b :: s' => if a =? b then after_prefix p' s' else None
  | _ :: _, [] => None
  end.

Definition scan_constant (s : str) : option (json * str) :=
  match after_prefix (lit "null") s with Some r => Some (JNull, r) | None =>
  match after_prefix (lit "true") s with Some r => Some (JBool true, r) | None =>
  match after_prefix (lit "false") s with Some r => Some (JBool false, r) | None =>
  match match_number s with Some x => Some x | None =>
  match after_prefix (lit "NaN") s with Some r => Some (JNum true (lit "NaN"), r) | None =>
  match after_prefix (lit "Infinity") s with
  | Some r => Some (JNum true (lit "Infinity"), r) | None =>
  match after_prefix (lit "-Infinity") s with
  | Some r => Some (JNum true (lit "-Infinity"), r) | None => None
  end end end end end end end.

(** The scanner: [scan_once] with [JSONObject] and [JSONArray], each
    from just after its opening bracket, and their loops.  One unit of
    [fuel] is spent per call.  An opening bracket costs three calls
    ([scan_once], [JSONArray] or [JSONObject], and the loop), every
    further call of a loop comes after a value and a comma, so three
    units per character of the input and one more are never used up
    (lemma [scan_once_enough_fuel]); [None] stands for any exception of
    the decoder.  The interpreter's limit on the depth of recursion is
    not modelled. *)
Fixpoint scan_once (fuel : nat) (s : str) {struct fuel} : option (json * str) :=
  match fuel with
  | O => None
  | S f =>
      match s with
      | [] => None
      | c :: r =>
          if c =? QUOTE then '(x, r') ← scanstring r []; Some (JStr x, r')
          else if c =? 123 then JSONObject f r
          else if c =? 91 then JSONArray f r
          else scan_constant s
      end
  end
with JSONObject (fuel : nat) (s : str) {struct fuel} : option (json * str) :=
  match fuel with
  | O => None
  | S f =>
      match skip_ws s with
      | c :: r =>
          if c =? 125 then Some (JObj [], r)
          else if c =? QUOTE then object_members f r []
          else None
      | [] => None
      end
  end
with object_members (fuel : nat) (s : str) (acc : list (str * json))
       {struct fuel} : option (json * str) :=
  match fuel with
  | O => None
  | S f =>
      '(key, r1) ← scanstring s [];
      match skip_ws r1 with
      | c :: r2 =>
          if c =? 58 then
            '(value, r3) ← scan_once f (skip_ws r2);
            match skip_ws r3 with
            | c' :: r4 =>
                if c' =? 125 then Some (JObj (reverse ((key, value) :: acc)), r4)
                else if c' =? 44 then
                  match skip_ws r4 with
                  | c'' :: r5 =>
                      if c'' =? QUOTE
                      then object_members f r5 ((key, value) :: acc)
                      else None
                  | [] => None
                  end
                else None
            | [] => None
            end
          else None
      | [] => None
      end
  end
with JSONArray (fuel : nat) (s : str) {struct fuel} : option (json * str) :=
  match fuel with
  | O => None
  | S f =>
      match skip_ws s with
      | c :: r => if c =? 93 then Some (JArr [], r)
                  else array_elements f (c :: r) []
      | [] => None
      end
  end
with array_elements (fuel : nat) (s : str) (acc : list json)
       {struct fuel} : option (json * str) :=
  match fuel with
  | O => None
  | S f =>
      '(value, r1) ← scan_once f s;
      match skip_ws r1 with
      | c :: r2 =>
          if c =? 93 then Some (JArr (reverse (value :: acc)), r2)
          else if c =? 44 then array_elements f (skip_ws r2) (value :: acc)
          else None
      | [] => None
      end
  end.

Definition BOM : N := 0xFEFF.

(** [json.loads(s)]: [None] stands for any exception it raises. *)
Definition json_loads (s : str) : option json :=
  match s with
  | c :: _ => if c =? BOM then None else
      '(obj, r) ← scan_once (S (3 * length s)) (skip_ws s);
      match skip_ws r with [] => Some obj | _ => None end
  | [] => None
  end.

Definition hexdigit (n : N) : N := if n <? 10 then 48 + n else 87 + n.

(** The encoder's replacement for one character with [ensure_ascii=False]:
    quote, backslash and the control characters below U+0020 are escaped,
    everything else is written as it is. *)
Definition json_escape_char (c : N) : str :=
  if c =? 34 then [BACKSLASH; 34]
  else if c =? 92 then [BACKSLASH; 92]
  else if c =? 10 then [BACKSLASH; 110]
  else if c =? 13 then [BACKSLASH; 114]
  else if c =? 9 then [BACKSLASH; 116]
  else if c =? 8 then [BACKSLASH; 98]
  else if c =? 12 then [BACKSLASH; 102]
  else if c <? 32 then
    [BACKSLASH; 117; 48; 48; hexdigit (c / 16); hexdigit (c mod 16)]
  else [c].

Definition json_dumps_str (s : str) : str :=
  [QUOTE] ++ (s ≫= json_escape_char) ++ [QUOTE].

(** [json.dumps(record, ensure_ascii=False)] for a [dict] whose keys and
    values are strings, given as its items in insertion order. *)
Definition json_dumps (record : list (str * str)) : str :=
  lit "{"
  ++ py_join (lit ", ")
       ((λ kv, json_dumps_str kv.1 ++ lit ": " ++ json_dumps_str kv.2) <$> record)
  ++ lit "}".

(** [obj.get(key, default)] on a decoded object. *)
Definition dict_get (pairs : list (str * json)) (key : str) (default : json) : json :=
  match list_find (λ kv, kv.1 = key) (reverse pairs) with
  | Some (_, kv) => kv.2
  | None => default
  end.

(** A literal in which an apostrophe stands for the double quote. *)
Definition qlit (s : string) : str := replace_char 39 QUOTE (lit s).

Arguments lit : simpl never.
Arguments blit : simpl never.
Arguments qlit : simpl never.
Arguments utf8_encode : simpl never.
Arguments json_dumps : simpl never.

(* ===================================================================== *)
(** ** Exceptions, oracles, the world *)
(* ===================================================================== *)

Inductive exn :=
  | FileNotFoundError (name : str)
  | PermissionError (name : str)
  | IsADirectoryError (name : str)
  | NotADirectoryError (name : str)
  | UnicodeDecodeError
  | CalledProcessError (cmd : list str)
  | RuntimeError (msg : str)
  | APIError (msg : str).

Inductive result (A : Type) :=
  | Ok (a : A)
  | Raise (e : exn).
Arguments Ok {A} a.
Arguments Raise {A} e.

(** What one run of ffmpeg does: exit status 0 with the output file
    written, or a non-zero status, after which a partial output file may
    be left at the output path. *)
Inductive FfmpegOutcome :=
  | FfmpegDone (out : bytes)
  | FfmpegFailed (partial : option bytes).

(** What [client.audio.transcriptions.create] does: it raises, or returns
    an object whose [text] attribute is read with
    [getattr(result, "text", None)]. *)
Inductive ApiOutcome :=
  | ApiRaised (msg : str)
  | ApiReturned (text : option str).

Record Env := mkEnv {
  (** [hashlib.sha256(...).hexdigest()] of a file's bytes *)
  sha256_hex : bytes → str;
  (** [datetime.fromtimestamp(ts).strftime("%Y%m%d %H%M%S")] *)
  strftime : Z → str;
  (** [datetime.now().isoformat()] when the clock shows the given value *)
  now_iso : nat → str;
  (** the modification time given to a file created at that clock *)
  now_ts : nat → Z;
  (** ffmpeg on the given input bytes *)
  ffmpeg : nat → bytes → FfmpegOutcome;
  (** the service on the uploaded bytes, model and language keyword *)
  api_transcribe : nat → bytes → str → option str → ApiOutcome;
  (** [str(e)] for the exceptions the operating system raises *)
  os_strerror : exn → str;
  (** [st_size] of a directory *)
  dir_st_size : Z;
}.

(** [str(e)]. *)
Definition exn_str (E : Env) (e : exn) : str :=
  match e with
  | RuntimeError msg | APIError msg => msg
  | _ => os_strerror E e
  end.

(** Operations on the inbox that the properties below speak about. *)
Inductive Event :=
  | EvUnlink (name : str)
  | EvFfmpeg (src dst : str)
  | EvTranscribe (name : str)
  | EvArchive (name : str).

Record World := mkWorld {
  inbox : folder;                (** entries directly inside the inbox *)
  transcripts : folder;          (** entries of [Transcripts/] *)
  archive : folder;              (** entries of [Archive/] *)
  index_file : option bytes;     (** [transcribed_index.jsonl], if present *)
  errors_log : bytes;            (** [Transcripts/transcribe_errors.log] *)
  stdout : list str;             (** lines printed, oldest first *)
  clock : nat;                   (** external interactions so far *)
  trace : list Event;            (** inbox operations, oldest first *)
}.

Definition set_inbox (f : folder → folder) (w : World) : World :=
  mkWorld (f (inbox w)) (transcripts w) (archive w) (index_file w)
    (errors_log w) (stdout w) (clock w) (trace w).
Definition set_transcripts (f : folder → folder) (w : World) : World :=
  mkWorld (inbox w) (f (transcripts w)) (archive w) (index_file w)
    (errors_log w) (stdout w) (clock w) (trace w).
Definition set_archive (f : folder → folder) (w : World) : World :=
  mkWorld (inbox w) (transcripts w) (f (archive w)) (index_file w)
    (errors_log w) (stdout w) (clock w) (trace w).
Definition set_index_file (f : option bytes → option bytes) (w : World) : World :=
  mkWorld (inbox w) (transcripts w) (archive w) (f (index_file w))
    (errors_log w) (stdout w) (clock w) (trace w).
Definition set_errors_log (f : bytes → bytes) (w : World) : World :=
  mkWorld (inbox w) (transcripts w) (archive w) (index_file w)
    (f (errors_log w)) (stdout w) (clock w) (trace w).
Definition print (line : str) (w : World) : World :=
  mkWorld (inbox w) (transcripts w) (archive w) (index_file w)
    (errors_log w) (stdout w ++ [line]) (clock w) (trace w).
Definition tick (w : World) : World :=
  mkWorld (inbox w) (transcripts w) (archive w) (index_file w)
    (errors_log w) (stdout w) (S (clock w)) (trace w).
Definition emit (ev : Event) (w : World) : World :=
  mkWorld (inbox w) (transcripts w) (archive w) (index_file w)
    (errors_log w) (stdout w) (clock w) (trace w ++ [ev]).

(** A file created by the program or by a tool it runs. *)
Definition new_file (E : Env) (w : World) (b : bytes) : Node :=
  File (mkFile b (now_ts E (clock w)) true).

(* ===================================================================== *)
(** ** File operations *)
(* ===================================================================== *)

(** [sha256_file(inbox / name)]: opening fails on a missing entry, a
    directory or an unreadable file. *)
Definition sha256_file (E : Env) (w : World) (name : str) : result str :=
  match inbox w !! name with
  | Some (File d) =>
      if readable d then Ok (sha256_hex E (content d))
      else Raise (PermissionError name)
  | Some Dir => Raise (IsADirectoryError name)
  | None => Raise (FileNotFoundError name)
  end.

(** [(inbox / name).unlink()]. *)
Definition unlink (name : str) (w : World) : result unit * World :=
  match inbox w !! name with
  | Some (File _) => (Ok (), emit (EvUnlink name) (set_inbox (delete name) w))
  | Some Dir => (Raise (IsADirectoryError name), w)
  | None => (Raise (FileNotFoundError name), w)
  end.

(** [(inbox / name).replace(archive_dir / name)]: [os.replace] puts the
    entry under the target name, replacing a file that is there; a file
    cannot replace a directory, nor a directory a file. *)
Definition path_replace (name : str) (w : World) : result unit * World :=
  match inbox w !! name with
  | None => (Raise (FileNotFoundError name), w)
  | Some node =>
      match node, archive w !! name with
      | File _, Some Dir => (Raise (IsADirectoryError name), w)
      | Dir, Some (File _) => (Raise (NotADirectoryError name), w)
      | _, _ =>
          (Ok (), emit (EvArchive name)
                    (set_archive <[name := node]> (set_inbox (delete name) w)))
      end
  end.

(** [(transcripts_dir / name).write_text(text, encoding="utf-8")]. *)
Definition write_text (E : Env) (name : str) (text : str) (w : World)
  : result unit * World :=
  match transcripts w !! name with
  | Some Dir => (Raise (IsADirectoryError name), w)
  | _ => (Ok (), set_transcripts <[name := new_file E w (utf8_encode text)]> w)
  end.

(** Appending text to a file opened with mode ["a"]. *)
Definition append_text (text : str) (old : bytes) : bytes :=
  old ++ utf8_encode text.

(** [Path.read_text(encoding="utf-8")] on a file with the given bytes. *)
Definition read_text (b : bytes) : result str :=
  match utf8_decode b with
  | Some s => Ok (universal_newlines s)
  | None => Raise UnicodeDecodeError
  end.

(* ===================================================================== *)
(** ** Dedup ledger *)
(* ===================================================================== *)

(** The body of the loop of [load_done_hashes] on one line.  Of the
    values [obj.get("sha256", "")] can have, only a non-empty string can
    ever equal a file hash: a number or [True] is added to the Python set
    but equals no [str], [None], [False], zero and empty values fail the
    test [if h], a non-empty list or object makes [done.add] raise
    [TypeError], and an [obj] that is no object has no [get]; those
    exceptions are caught together with the decoder's.  The set is
    therefore modelled by its strings. *)
Definition done_step (done : gset str) (line : str) : gset str :=
  let line := strip line in
  match line with
  | [] => done
  | _ =>
      match json_loads line with
      | Some (JObj pairs) =>
          match dict_get pairs (lit "sha256") (JStr []) with
          | JStr (c :: h) => done ∪ {[ c :: h ]}
          | _ => done
          end
      | _ => done
      end
  end.

(** [load_done_hashes(index_file)]; [None] is a ledger that does not
    exist.  [read_text] is outside the [try], so its exception leaves the
    function. *)
Definition load_done_hashes (index : option bytes) : result (gset str) :=
  match index with
  | None => Ok ∅
  | Some b =>
      match read_text b with
      | Ok text => Ok (foldl done_step ∅ (splitlines text))
      | Raise e => Raise e
      end
  end.

(** [append_index_record(index_file, record)]: mode ["a"] creates the
    file when it is missing. *)
Definition append_index_record (record : list (str * str)) (w : World) : World :=
  set_index_file
    (λ old, Some (append_text (json_dumps record ++ [LF]) (default [] old))) w.

(* ===================================================================== *)
(** ** Size gate *)
(* ===================================================================== *)

(** [subprocess.check_call(["ffmpeg", "-y", "-i", src, ..., dst])]: the
    tool reads [src] and writes [dst]; a non-zero exit status raises
    [CalledProcessError]. *)
Definition ffmpeg_cmd (src dst : str) : list str :=
  [lit "ffmpeg"; lit "-y"; lit "-i"; src; lit "-vn"; lit "-c:a"; lit "aac";
   lit "-b:a"; lit "64k"; dst].

Definition check_call_ffmpeg (E : Env) (src dst : str) (w : World)
  : result unit * World :=
  let w1 := emit (EvFfmpeg src dst) (tick w) in
  match inbox w !! src with
  | Some (File d) =>
      match ffmpeg E (clock w) (content d) with
      | FfmpegDone out =>
          (Ok (), set_inbox <[dst := new_file E w out]> w1)
      | FfmpegFailed (Some partial) =>
          (Raise (CalledProcessError (ffmpeg_cmd src dst)),
           set_inbox <[dst := new_file E w partial]> w1)
      | FfmpegFailed None =>
          (Raise (CalledProcessError (ffmpeg_cmd src dst)), w1)
      end
  | _ => (Raise (CalledProcessError (ffmpeg_cmd src dst)), w1)
  end.

(** [maybe_compress_if_too_large(inbox / name, max_bytes)], returning the
    name of the file to upload. *)
Definition maybe_compress_if_too_large (E : Env) (name : str) (max_bytes : Z)
    (w : World) : result str * World :=
  match inbox w !! name with
  | None => (Raise (FileNotFoundError name), w)
  | Some node =>
      let size := match node with File d => st_size d | Dir => dir_st_size E end in
      if bool_decide (size ≤ max_bytes)%Z then (Ok name, w)
      else
        let compressed := with_suffix name (lit ".compressed.m4a") in
        let '(r1, w1) :=
          if exists_ (inbox w) compressed then unlink compressed w
          else (Ok (), w) in
        match r1 with
        | Raise e => (Raise e, w1)
        | Ok _ =>
            match check_call_ffmpeg E name compressed w1 with
            | (Ok _, w2) => (Ok compressed, w2)
            | (Raise e, w2) => (Raise e, w2)
            end
        end
  end.

(* ===================================================================== *)
(** ** Transcription *)
(* ===================================================================== *)

(** [transcribe_with_openai(client, inbox / name, model, language)]. *)
Definition transcribe_with_openai (E : Env) (name : str) (model : str)
    (language : option str) (w : World) : result str * World :=
  match inbox w !! name with
  | None => (Raise (FileNotFoundError name), w)
  | Some Dir => (Raise (IsADirectoryError name), w)
  | Some (File d) =>
      if negb (readable d) then (Raise (PermissionError name), w)
      else
        let kw_language :=
          match language with
          | Some (c :: l) => Some (c :: l)
          | _ => None
          end in
        let w1 := emit (EvTranscribe name) (tick w) in
        match api_transcribe E (clock w) (content d) model kw_language with
        | ApiRaised msg => (Raise (APIError msg), w1)
        | ApiReturned (Some (c :: t)) => (Ok (strip (c :: t)), w1)
        | ApiReturned _ =>
            (Raise (RuntimeError (lit "No transcript text returned by API")), w1)
        end
  end.

(* ===================================================================== *)
(** ** The pipeline *)
(* ===================================================================== *)

(** The settings [main] reads from the environment before the loop. *)
Record Config := mkConfig {
  model : str;
  language : option str;   (** [None] when auto-detection is on *)
  move_audio : bool;
  move_skipped : bool;
  max_bytes : Z;
}.

(** [language or "auto"]. *)
Definition language_or_auto (language : option str) : str :=
  match language with
  | Some (c :: l) => c :: l
  | _ => lit "auto"
  end.

(** The variables of [main] that the loop updates. *)
Record Run := mkRun {
  world : World;
  done_hashes : gset str;
  ok : nat;
  skipped : nat;
  failed : nat;
}.

(** [Run] with the two locals of one iteration. *)
Record Loc := mkLoc {
  run : Run;
  working_audio : str;
  created_temp : bool;
}.

(** Statements of the [try] block: they update the variables and may
    raise; the variables keep the values they had when the exception was
    raised. *)
Definition M (A : Type) : Type := Loc → result A * Loc.

Definition ret {A} (a : A) : M A := λ l, (Ok a, l).

Definition bind {A B} (m : M A) (k : A → M B) : M B :=
  λ l, match m l with
       | (Ok a, l') => k a l'
       | (Raise e, l') => (Raise e, l')
       end.

Notation "x <- m ;; k" := (bind m (λ x, k))
  (at level 63, m at next level, right associativity).
Notation "m ;;; k" := (bind m (λ _, k))
  (at level 63, right associativity).

Definition on_run (f : Run → Run) : M unit :=
  λ l, (Ok (), mkLoc (f (run l)) (working_audio l) (created_temp l)).

Definition on_world (f : World → World) : Run → Run :=
  λ r, mkRun (f (world r)) (done_hashes r) (ok r) (skipped r) (failed r).

(** An operation on the world, run inside the [try] block. *)
Definition in_world {A} (op : World → result A * World) : M A :=
  λ l, let '(res, w) := op (world (run l)) in
       (res, mkLoc (on_world (λ _, w) (run l)) (working_audio l) (created_temp l)).

Definition assign_working_audio (p : str) : M unit :=
  λ l, (Ok (), mkLoc (run l) p (created_temp l)).

Definition assign_created_temp (b : bool) : M unit :=
  λ l, (Ok (), mkLoc (run l) (working_audio l) b).

Definition read_working_audio : M str := λ l, (Ok (working_audio l), l).

Definition add_done (h : str) : Run → Run :=
  λ r, mkRun (world r) (done_hashes r ∪ {[h]}) (ok r) (skipped r) (failed r).
Definition incr_ok : Run → Run :=
  λ r, mkRun (world r) (done_hashes r) (S (ok r)) (skipped r) (failed r).
Definition incr_skipped : Run → Run :=
  λ r, mkRun (world r) (done_hashes r) (ok r) (S (skipped r)) (failed r).
Definition incr_failed : Run → Run :=
  λ r, mkRun (world r) (done_hashes r) (ok r) (skipped r) (S (failed r)).

(** [datetime.now().isoformat()]. *)
Definition datetime_now (E : Env) (w : World) : result str * World :=
  (Ok (now_iso E (clock w)), tick w).

(** [date_stamp_for_filename(audio_path)] for the file [d]. *)
Definition date_stamp_for_filename (E : Env) (d : FileData) : str :=
  strftime E (mtime d).

(** The text written to the transcript file. *)
Definition transcript_text (cfg : Config) (stamp name file_hash text : str) : str :=
  let header_lines :=
    [lit "DateStamp " ++ stamp;
     lit "AudioFile " ++ name;
     lit "Sha256 " ++ file_hash;
     lit "Model " ++ model cfg;
     lit "LanguageHint " ++ language_or_auto (language cfg);
     []] in
  py_join [LF] header_lines ++ text ++ [LF].

(** The ledger record of a success. *)
Definition index_record (cfg : Config) (file_hash name txt_path stamp created_at : str)
  : list (str * str) :=
  [(lit "sha256", file_hash);
   (lit "audio_file", name);
   (lit "transcript_file", lit "Transcripts/" ++ txt_path);
   (lit "date_stamp", stamp);
   (lit "model", model cfg);
   (lit "language_hint", language_or_auto (language cfg));
   (lit "created_at", created_at)].

(** The [try] block of the loop body, first part: the size gate.  The
    two locals are assigned only when the gate returns. *)
Definition gate_step (E : Env) (cfg : Config) (name : str) (d : FileData) : M unit :=
  if bool_decide (st_size d > max_bytes cfg)%Z then
    p <- in_world (maybe_compress_if_too_large E name (max_bytes cfg)) ;;
    assign_working_audio p ;;;
    assign_created_temp (bool_decide (p ≠ name))
  else ret ().

(** The [try] block, second part: upload, transcript, ledger record,
    tallies, archive. *)
Definition upload_and_commit (E : Env) (cfg : Config) (name : str)
    (file_hash stamp txt_path : str) : M unit :=
  on_run (on_world (print (lit "Transcribing " ++ name))) ;;;
  working <- read_working_audio ;;
  text <- in_world (transcribe_with_openai E working (model cfg) (language cfg)) ;;
  in_world (write_text E txt_path (transcript_text cfg stamp name file_hash text)) ;;;
  created_at <- in_world (datetime_now E) ;;
  on_run (on_world (append_index_record
            (index_record cfg file_hash name txt_path stamp created_at))) ;;;
  on_run (add_done file_hash) ;;;
  on_run incr_ok ;;;
  if move_audio cfg then in_world (path_replace name) else ret ().

(** The [try] block of the loop body. *)
Definition try_block (E : Env) (cfg : Config) (name : str) (d : FileData)
    (file_hash stamp txt_path : str) : M unit :=
  gate_step E cfg name d ;;;
  upload_and_commit E cfg name file_hash stamp txt_path.

(** One line of the error log. *)
Definition error_line (now name tag detail : str) : str :=
  now ++ lit "  " ++ name ++ lit "  " ++ tag ++ lit "  " ++ detail ++ [LF].

Arguments transcript_text : simpl never.
Arguments index_record : simpl never.
Arguments error_line : simpl never.

(** [failed += 1] and the write to the error log of an [except] clause. *)
Definition record_failure (E : Env) (name tag : str) (e : exn) (r : Run) : Run :=
  let r := incr_failed r in
  on_world (λ w,
    set_errors_log
      (append_text (error_line (now_iso E (clock w)) name tag (exn_str E e)))
      (tick w)) r.

(** The [finally] clause. *)
Definition finally (l : Loc) : Run :=
  if created_temp l
  then on_world (λ w, (unlink (working_audio l) w).2) (run l)
  else run l.

(** What became of one entry of the directory listing. *)
Inductive Outcome :=
  | NotCandidate                (** not yielded by [iter_audio_files] *)
  | HashFailed (e : exn)
  | Skipped
  | Transcribed
  | Failed (e : exn).

(** One entry [name] of the sorted listing: the test of
    [iter_audio_files], made when the generator reaches the entry, and
    the loop body.  The outcome is returned for the statements below; the
    program keeps the tallies only. *)
Definition process_item (E : Env) (cfg : Config) (name : str) (r : Run)
  : Outcome * Run :=
  match inbox (world r) !! name with
  | Some (File d) =>
      if negb (bool_decide (lower (py_suffix name) ∈ AUDIO_EXTS))
      then (NotCandidate, r)
      else
        match sha256_file E (world r) name with
        | Raise e => (HashFailed e, record_failure E name (lit "hash_error") e r)
        | Ok file_hash =>
            if bool_decide (file_hash ∈ done_hashes r) then
              let r := incr_skipped r in
              (Skipped,
               if move_skipped cfg
               then on_world (λ w, (path_replace name w).2) r
               else r)
            else
              let stamp := date_stamp_for_filename E d in
              let cleaned_stem := safe_stem (py_stem name) in
              let base_name := stamp ++ [SP] ++ cleaned_stem in
              let txt_path :=
                make_unique_txt_path (transcripts (world r)) base_name in
              match try_block E cfg name d file_hash stamp txt_path
                      (mkLoc r name false) with
              | (Ok _, l) => (Transcribed, finally l)
              | (Raise e, l) =>
                  let r1 := record_failure E name (lit "transcribe_error") e (run l) in
                  let r2 := on_world (print (lit "Failed " ++ name ++ lit "  "
                                              ++ exn_str E e)) r1 in
                  (Failed e,
                   finally (mkLoc r2 (working_audio l) (created_temp l)))
              end
        end
  | _ => (NotCandidate, r)
  end.

(** The order of [sorted] on paths of one directory: code point by code
    point. *)
Fixpoint str_leb (a b : str) : bool :=
  match a, b with
  | [], _ => true
  | _ :: _, [] => false
  | x :: a', y :: b' =>
      if x <? y then true else if y <? x then false else str_leb a' b'
  end.

(** [sorted(inbox.iterdir())], as entry names. *)
Definition sorted_listing (fo : folder) : list str :=
  merge_sort (λ a b, Is_true (str_leb a b)) (elements (dom fo)).

(** The [for] loop over the listing. *)
Fixpoint run_items (E : Env) (cfg : Config) (names : list str) (r : Run)
  : list Outcome * Run :=
  match names with
  | [] => ([], r)
  | name :: rest =>
      let '(o, r1) := process_item E cfg name r in
      let '(os, r2) := run_items E cfg rest r1 in
      (o :: os, r2)
  end.

Definition tally_line (r : Run) : str :=
  lit "Done  success " ++ py_str_int (N.of_nat (ok r))
  ++ lit "  skipped " ++ py_str_int (N.of_nat (skipped r))
  ++ lit "  failed " ++ py_str_int (N.of_nat (failed r)).

(** [main()] from the point where the configuration has been read: the
    ledger is loaded, the listing is taken, every entry is processed, and
    the value returned is the exit status of the process.  An exception
    that leaves [main] ends the process with a traceback. *)
Definition main (E : Env) (cfg : Config) (w : World) : result (Z * Run) :=
  match load_done_hashes (index_file w) with
  | Raise e => Raise e
  | Ok done =>
      let '(_, r) :=
        run_items E cfg (sorted_listing (inbox w)) (mkRun w done 0 0 0) in
      let r := on_world (print (tally_line r)) r in
      Ok (if bool_decide (failed r = 0)%nat then 0%Z else 1%Z, r)
  end.

(* ===================================================================== *)
(** ** API key, URL list, language setting *)
(* ===================================================================== *)

(** [s.replace(ch, "")] for a one-character [ch]. *)
Definition remove_char (ch : N) (s : str) : str := filter (λ c, c ≠ ch) s.

(** [s.strip(chars)]. *)
Fixpoint lstrip_chars (chars : list N) (s : str) : str :=
  match s with
  | c :: r => if bool_decide (c ∈ chars) then lstrip_chars chars r else s
  | [] => []
  end.

Definition strip_chars (chars : list N) (s : str) : str :=
  reverse (lstrip_chars chars (reverse (lstrip_chars chars s))).

(** [s.encode("ascii", "ignore").decode("ascii")]: the characters the
    ASCII codec cannot encode are dropped. *)
Definition ascii_ignore (s : str) : str := filter (λ c, c < 128) s.

(** [sanitize_api_key(key)] for a [str] argument ([key or ""] is [key]
    then). *)
Definition sanitize_api_key (key : str) : str :=
  let key := strip key in
  let key := remove_char 0x2019 (remove_char 0x2018
               (remove_char 0x201D (remove_char 0x201C key))) in
  let key := strip_chars [39] (strip_chars [QUOTE] (strip key)) in
  let key := ascii_ignore key in
  strip key.

(** The message of the error [read_api_key] raises. *)
Definition KEY_NOT_FOUND : str :=
  lit "OpenAI API key not found. Set OPENAI_API_KEY or store it in Keychain."
  ++ [LF] ++ lit "Keychain example:" ++ [LF]
  ++ qlit "security add-generic-password -a '$USER' -s 'anki-tools-openai' -w 'YOUR_KEY' -U".

(** [read_api_key()].  [env_key] is [OPENAI_API_KEY] in the environment,
    if set; [keychain] is what [subprocess.check_output] of the
    [security] tool returns, [None] when it raises.  Every exception of
    the [try] block, the one for an empty key included, is turned into
    the one [RuntimeError]. *)
Definition read_api_key (env_key : option str) (keychain : option str) : result str :=
  match sanitize_api_key (default [] env_key) with
  | c :: k => Ok (c :: k)
  | [] =>
      match keychain with
      | Some out =>
          match sanitize_api_key out with
          | c :: k => Ok (c :: k)
          | [] => Raise (RuntimeError KEY_NOT_FOUND)
          end
      | None => Raise (RuntimeError KEY_NOT_FOUND)
      end
  end.

Definition HASH_SIGN : N := 35.

(** The loop body of [load_urls] on one line. *)
Definition urls_step (urls : list str) (line : str) : list str :=
  let line := strip line in
  match line with
  | [] => urls
  | c :: _ => if c =? HASH_SIGN then urls else urls ++ [line]
  end.

(** [load_urls(url_file)] for the entry [video_urls.txt] of the inbox:
    [None] is a missing entry.  [read_text] raises on a directory, on a
    file that may not be read and on bytes that are not UTF-8. *)
Definition load_urls (name : str) (entry : option Node) : result (list str) :=
  match entry with
  | None => Ok []
  | Some Dir => Raise (IsADirectoryError name)
  | Some (File d) =>
      if negb (readable d) then Raise (PermissionError name)
      else
        match read_text (content d) with
        | Ok text => Ok (foldl urls_step [] (splitlines text))
        | Raise e => Raise e
        end
  end.

(** [str.lower()].  On a string of ASCII characters it lowers the
    letters A to Z; on any other string it is the function [unicode_lower],
    about which nothing is assumed. *)
Definition py_lower (unicode_lower : str → str) (s : str) : str :=
  if forallb (λ c, c <? 128) s then lower s else unicode_lower s.

Definition HYPHEN : N := 45.

(** [s.split(ch, 1)[0]]: the part of [s] before the first [ch]. *)
Fixpoint before_char (ch : N) (s : str) : str :=
  match s with
  | [] => []
  | c :: r => if c =? ch then [] else c :: before_char ch r
  end.

(** The two sets of spellings [preferred_language] maps to ["pt"]; the
    last one of the first set is [portugu], U+00EA, [s]. *)
Definition PT_PT_SPELLINGS : list str :=
  [lit "pt-pt"; lit "pt_pt"; lit "ptpt"; lit "portuguese";
   lit "portugu" ++ [0xEA] ++ lit "s"].
Definition PT_BR_SPELLINGS : list str := [lit "pt-br"; lit "pt_br"; lit "ptbr"].

(** [preferred_language()]; [variant] is [TRANSCRIBE_PT_VARIANT] in the
    environment, if set. *)
Definition preferred_language (unicode_lower : str → str) (variant : option str) : str :=
  let raw := strip (default (lit "pt") variant) in
  let raw_lower := py_lower unicode_lower raw in
  if bool_decide (raw_lower ∈ PT_PT_SPELLINGS) then lit "pt"
  else if bool_decide (raw_lower ∈ PT_BR_SPELLINGS) then lit "pt"
  else
    let raw_lower :=
      if bool_decide (HYPHEN ∈ raw_lower) then before_char HYPHEN raw_lower
      else raw_lower in
    match raw_lower with
    | [] => lit "pt"
    | _ => raw_lower
    end.

(** The language setting of [main]: [auto_detect] is
    [TRANSCRIBE_AUTO_DETECT] in the environment, if set. *)
Definition language_setting (unicode_lower : str → str)
    (auto_detect variant : option str) : option str :=
  if bool_decide (strip (default (lit "0") auto_detect) = lit "1") then None
  else Some (preferred_language unicode_lower variant).

(* ===================================================================== *)
(** ** Vocabulary of the statements *)
(* ===================================================================== *)

(** One pass over a stem that maps each character of [bad] to a space. *)
Definition sanitize_char (c : N) : N :=
  if bool_decide (c ∈ bad) then SP else c.

(** A word: a non-empty run of characters that are not whitespace. *)
Definition is_word (w : str) : Prop :=
  w ≠ [] ∧ Forall (λ c, is_space c = false) w.

(** The hash a ledger line records: the line, stripped, decodes to an
    object whose ["sha256"] is a non-empty string. *)
Definition line_hash (line : str) : option str :=
  match json_loads (strip line) with
  | Some (JObj pairs) =>
      match dict_get pairs (lit "sha256") (JStr []) with
      | JStr (c :: h) => Some (c :: h)
      | _ => None
      end
  | _ => None
  end.

(** A Unicode scalar value: a code point that is no surrogate.  Only
    these have a UTF-8 encoding. *)
Definition scalar (c : N) : Prop := c < 0xD800 ∨ (0xE000 ≤ c ∧ c < 0x110000).

(** A character that is written to the ledger and read back as one
    character of one line: a scalar value that is none of the three line
    boundaries of [str.splitlines] which the encoder leaves as they are
    (U+0085, U+2028, U+2029). *)
Definition plain_char (c : N) : bool :=
  ((c <? 0xD800) || ((0xE000 <=? c) && (c <? 0x110000)))
  && negb ((c =? 0x85) || (c =? 0x2028) || (c =? 0x2029)).

Definition plain (s : str) : Prop := Forall (λ c, plain_char c = true) s.

Definition plain_record (rec : list (str * str)) : Prop :=
  Forall (λ kv, plain kv.1 ∧ plain kv.2) rec.

(** A character of a ledger line: a scalar value that is no line
    boundary. *)
Definition line_char (c : N) : Prop := scalar c ∧ is_linebreak c = false.

(** The fields of an encoded object after the first, each with its
    leading comma. *)
Fixpoint more_fields (kvs : list (str * str)) : str :=
  match kvs with
  | [] => []
  | kv :: kvs' =>
      [44; 32; QUOTE] ++ (kv.1 ≫= json_escape_char) ++ [QUOTE; 58; 32; QUOTE]
      ++ (kv.2 ≫= json_escape_char) ++ [QUOTE] ++ more_fields kvs'
  end.

(** What the decoder makes of a record of strings. *)
Definition decoded_fields (kvs : list (str * str)) : list (str * json) :=
  (λ kv, (kv.1, JStr kv.2)) <$> kvs.

(** A ledger that is missing, or decodes to a text that is empty or ends
    in a newline. *)
Definition ledger_whole (index : option bytes) : Prop :=
  match index with
  | None => True
  | Some b =>
      match utf8_decode b with
      | Some s => s = [] ∨ last s = Some LF
      | None => False
      end
  end.

(** The oracles return text that goes through the ledger unchanged, and
    a digest is never empty. *)
Record plain_env (E : Env) : Prop := mk_plain_env {
  pe_hash_nonempty : ∀ b, sha256_hex E b ≠ [];
  pe_hash : ∀ b, plain (sha256_hex E b);
  pe_stamp : ∀ t, plain (strftime E t);
  pe_now : ∀ n, plain (now_iso E n);
}.

Definition plain_cfg (cfg : Config) : Prop :=
  plain (model cfg) ∧ plain (language_or_auto (language cfg)).

(** The seen-set of the run is what a load of the ledger gives. *)
Definition in_sync (r : Run) : Prop :=
  ledger_whole (index_file (world r))
  ∧ load_done_hashes (index_file (world r)) = Ok (done_hashes r).

Definition is_skipped (o : Outcome) : bool :=
  match o with Skipped => true | _ => false end.

Definition is_transcribed (o : Outcome) : bool :=
  match o with Transcribed => true | _ => false end.

Definition is_failed_try (o : Outcome) : bool :=
  match o with Failed _ => true | _ => false end.

(** How many outcomes of a run satisfy [p]. *)
Definition count (p : Outcome → bool) (os : list Outcome) : nat :=
  length (filter (λ o, p o = true) os).

(** What enough fuel means for one function of the scanner, with bound
    [3 * length s + k]: a result found with fuel [f] is found with every
    fuel from the bound on, and the input left is shorter. *)
Definition fuel_enough {A} (g : nat → str → A → option (json * str))
    (k f : nat) : Prop :=
  ∀ s a res b, g f s a = Some res → (3 * length s + k ≤ b)%nat →
               g b s a = Some res ∧ (length res.2 < length s)%nat.



(* ===================================================================== *)
(** ** Concrete worlds for the examples *)
(* ===================================================================== *)

(** A stand-in for SHA-256 with the shape of a hex digest: 64 hex digits
    computed from the bytes. *)
Definition toy_sha256 (b : bytes) : str :=
  let n := fold_right (λ x acc, (Byte.to_N x + 31 * acc) mod 256) 7 b in
  mjoin (replicate 32 [hexdigit (n / 16); hexdigit (n mod 16)]).

(** An environment in which ffmpeg and the service succeed. *)
Definition env_ok : Env := {|
  sha256_hex := toy_sha256;
  strftime := λ _, lit "20240101 120000";
  now_iso := λ n, lit "2024-01-01T12:00:0" ++ py_str_int (N.of_nat n);
  now_ts := λ n, Z.of_nat n;
  ffmpeg := λ _ b, FfmpegDone (take 2 b);
  api_transcribe := λ _ _ _ _, ApiReturned (Some (lit " Bom dia. "));
  os_strerror := λ _, lit "OS error";
  dir_st_size := 64;
|}.

(** The same environment with an ffmpeg that fails after writing part of
    its output. *)
Definition env_ffmpeg_fails : Env := {|
  sha256_hex := toy_sha256;
  strftime := λ _, lit "20240101 120000";
  now_iso := λ n, lit "2024-01-01T12:00:0" ++ py_str_int (N.of_nat n);
  now_ts := λ n, Z.of_nat n;
  ffmpeg := λ _ b, FfmpegFailed (Some (take 1 b));
  api_transcribe := λ _ _ _ _, ApiReturned (Some (lit " Bom dia. "));
  os_strerror := λ _, lit "OS error";
  dir_st_size := 64;
|}.

(** Settings that leave processed audio in the inbox, and the defaults
    for the two archive switches; the upload limit is 4 bytes. *)
Definition cfg_keep : Config :=
  mkConfig (lit "whisper-1") (Some (lit "pt")) false false 4.
Definition cfg_move : Config :=
  mkConfig (lit "whisper-1") (Some (lit "pt")) true true 4.

Definition audio (b : string) : Node := File (mkFile (blit b) 0 true).

Definition empty_world : World := mkWorld ∅ ∅ ∅ None [] [] 0 [].

(** A ledger whose last line was cut short by an interrupted write: it
    does not end in a newline. *)
Definition cut_ledger : bytes := utf8_encode (qlit "{'sha256': '0f").

(** An inbox with one small file, beside the cut ledger. *)
Definition world_cut : World :=
  mkWorld {[ lit "talk.mp3" := audio "abc" ]} ∅ ∅ (Some cut_ledger) [] [] 0 [].

(** A ledger with one whole record and a second one cut at a character
    boundary, and the same ledger cut one byte later, inside the two-byte
    character U+00E7. *)
Definition ledger_cut_at_char : bytes :=
  utf8_encode (qlit "{'sha256': 'ab', 'audio_file': 'a.mp3'}" ++ [LF]
               ++ qlit "{'sha256': 'cd', 'audio_file': 'li").
Definition ledger_cut_in_char : bytes := ledger_cut_at_char ++ [Byte.xc3].

(** An inbox with a six-byte file and a stale compressed copy of it. *)
Definition world_stale : World :=
  mkWorld {[ lit "talk.wav" := audio "abcdef";
             lit "talk.compressed.m4a" := audio "zz" ]}
    ∅ ∅ None [] [] 0 [].

(** The bytes of the ledger; a missing ledger has none. *)
Definition ledger (w : World) : bytes := default [] (index_file w).

(** Two folders agree off the names [ks]. *)
Definition agree_off (ks : list str) (m m' : folder) : Prop :=
  ∀ k, k ∉ ks → m' !! k = m !! k.

(** What a step leaves alone: the inbox off [ki], the transcripts off
    [kt], the archive off [ka], the ledger up to appended bytes, the
    error log; the clock and the trace only grow. *)
Record wframe (ki kt ka : list str) (w w' : World) : Prop := mk_wframe {
  wf_inbox : agree_off ki (inbox w) (inbox w');
  wf_transcripts : agree_off kt (transcripts w) (transcripts w');
  wf_archive : agree_off ka (archive w) (archive w');
  wf_ledger : ledger w `prefix_of` ledger w';
  wf_errors : errors_log w' = errors_log w;
  wf_trace : trace w `prefix_of` trace w';
}.

(** [wframe] on the world of the loop variables, whose failure and skip
    tallies stay and whose done-set and success tally only grow. *)
Record lframe (ki kt ka : list str) (l l' : Loc) : Prop := mk_lframe {
  lf_world : wframe ki kt ka (world (run l)) (world (run l'));
  lf_failed : failed (run l') = failed (run l);
  lf_skipped : skipped (run l') = skipped (run l);
  lf_ok : (ok (run l) ≤ ok (run l'))%nat;
  lf_done : done_hashes (run l) ⊆ done_hashes (run l');
}.

(** A statement of the [try] block keeps a relation between the
    variables before and after it, whether it raises or not. *)
Definition preserves {A} (P : Loc → Loc → Prop) (m : M A) : Prop :=
  ∀ l res l', m l = (res, l') → P l l'.

(** The two locals keep their values. *)
Definition locals_same (l l' : Loc) : Prop :=
  working_audio l' = working_audio l ∧ created_temp l' = created_temp l.

(** Nothing committed is lost from [w] to [w']: the ledger and the error
    log are extended at the end, the entries of the transcript folder are
    all still there. *)
Definition grows (w w' : World) : Prop :=
  ledger w `prefix_of` ledger w'
  ∧ transcripts w ⊆ transcripts w'
  ∧ errors_log w `prefix_of` errors_log w'.

Definition is_failure (o : Outcome) : bool :=
  match o with
  | HashFailed _ | Failed _ => true
  | _ => false
  end.

(** The category tag and the exception of a failure. *)
Definition failure_of (o : Outcome) : option (str * exn) :=
  match o with
  | HashFailed e => Some (lit "hash_error", e)
  | Failed e => Some (lit "transcribe_error", e)
  | _ => None
  end.

(** [name] is yielded by [iter_audio_files] in world [w], as file [d]. *)
Definition candidate (w : World) (name : str) (d : FileData) : Prop :=
  inbox w !! name = Some (File d) ∧ lower (py_suffix name) ∈ AUDIO_EXTS.

(** The item [name] has been processed to a transcript and a ledger
    entry in world [w]: some transcript file holds the text made for a
    file of that name, and the ledger holds the record that points to
    it. *)
Definition committed (E : Env) (cfg : Config) (name : str) (w : World) : Prop :=
  ∃ (d : FileData) (txt_path text created_at : str) (fd : FileData),
    let file_hash := sha256_hex E (content d) in
    let stamp := date_stamp_for_filename E d in
    transcripts w !! txt_path = Some (File fd)
    ∧ content fd = utf8_encode (transcript_text cfg stamp name file_hash text)
    ∧ ∃ before after,
        ledger w = before
                   ++ utf8_encode (json_dumps (index_record cfg file_hash name
                                                 txt_path stamp created_at) ++ [LF])
                   ++ after.

(** An inbox with one six-byte file, above the limit of four bytes. *)
Definition world_big : World :=
  mkWorld {[ lit "talk.wav" := audio "abcdef" ]} ∅ ∅ None [] [] 0 [].

Definition start (w : World) : Run := mkRun w ∅ 0 0 0.




(** An inbox with one small file and no ledger yet. *)
Definition world_small : World :=
  mkWorld {[ lit "talk.mp3" := audio "abc" ]} ∅ ∅ None [] [] 0 [].

(** The ledger line of the record made for [talk.mp3] with transcript
    [txt_path] at time [created_at]. *)
Definition talk_record (txt_path created_at : str) : bytes :=
  utf8_encode
    (json_dumps (index_record cfg_keep (toy_sha256 (blit "abc")) (lit "talk.mp3")
                   txt_path (lit "20240101 120000") created_at)
     ++ [LF]).

Definition is_transcribe (ev : Event) : bool :=
  match ev with EvTranscribe _ => true | _ => false end.

(** The variables with which a run ended (for a run that raised: those of
    a run that has not started). *)
Definition run_after (res : result (Z * Run)) : Run :=
  match res with
  | Ok (_, r) => r
  | Raise _ => start empty_world
  end.

(** The transcript text made for [talk.mp3]. *)
Definition talk_transcript : str :=
  transcript_text cfg_keep (lit "20240101 120000") (lit "talk.mp3")
    (toy_sha256 (blit "abc")) (lit "Bom dia.").

(** An inbox with one small file whose name is taken by a directory of
    the archive. *)
Definition world_blocked : World :=
  mkWorld {[ lit "talk.mp3" := audio "abc" ]} ∅ {[ lit "talk.mp3" := Dir ]}
    None [] [] 0 [].

(** A ledger with one whole record. *)
Definition ledger_one : bytes := utf8_encode (qlit "{'sha256': 'ab'}" ++ [LF]).

(** The same inbox as [world_small], beside the ledger of one record. *)
Definition world_one : World :=
  mkWorld {[ lit "talk.mp3" := audio "abc" ]} ∅ ∅ (Some ledger_one) [] [] 0 [].

(** A URL list with a comment, a blank line and two addresses. *)
Definition urls_file : Node :=
  File (mkFile (utf8_encode (lit "# talks" ++ [LF] ++ lit "  https://a.example/1 "
                             ++ [CR; LF; LF] ++ lit "https://a.example/2"))
          0 true).



(** A text with arrays nested three deep. *)
Definition nested_text : str := lit "[[[1]], [2, [3]]]".


(* ===================================================================== *)
(** * Properties *)
(* ===================================================================== *)

(** ** Naming policy: the sanitized stem *)

Section SafeStem.

(** The thirteen replacements of [safe_stem] amount to one pass that
    maps each character of [bad] to a space. *)
Lemma replace_bad (s : str) :
  fold_left (λ out ch, replace_char ch SP out) bad s = sanitize_char <$> s.
Proof.
  unfold bad; cbn [fold_left]; unfold replace_char.
  rewrite <- !list_fmap_compose.
  apply list_fmap_ext; intros _ c _.
  unfold compose, sanitize_char.
  repeat match goal with
  | |- context [c =? ?k] =>
      destruct (N.eqb_spec c k) as [->|?]; [vm_compute; reflexivity|cbv iota]
  end.
  rewrite bool_decide_eq_false_2; [reflexivity|].
  unfold bad. rewrite !elem_of_cons, elem_of_nil. intuition congruence.
Qed.

Lemma split_ws_aux_words (s cur : str) :
  Forall (λ c, is_space c = false) cur →
  Forall is_word (split_ws_aux cur s).
Proof.
  revert cur; induction s as [|c r IH]; intros cur Hcur; cbn [split_ws_aux].
  - destruct cur as [|a cur']; [constructor|].
    repeat constructor; [|by apply Forall_reverse].
    intros E; apply (f_equal length) in E.
    rewrite length_reverse in E; discriminate.
  - destruct (is_space c) eqn:Hc.
    + destruct cur as [|a cur']; [by apply IH|].
      constructor; [|by apply IH].
      split; [|by apply Forall_reverse].
      intros E; apply (f_equal length) in E.
      rewrite length_reverse in E; discriminate.
    + apply IH. by constructor.
Qed.

Lemma split_ws_aux_elem (s cur w : str) (c : N) :
  w ∈ split_ws_aux cur s → c ∈ w → c ∈ cur ∨ c ∈ s.
Proof.
  revert cur; induction s as [|a r IH]; intros cur Hw Hc; cbn [split_ws_aux] in Hw.
  - destruct cur as [|b cur']; [by apply elem_of_nil in Hw|].
    apply list_elem_of_singleton in Hw; subst w.
    left. by rewrite elem_of_reverse in Hc.
  - destruct (is_space a).
    + destruct cur as [|b cur'].
      * destruct (IH [] Hw Hc) as [H|H]; [by apply elem_of_nil in H|].
        right; by constructor.
      * apply elem_of_cons in Hw as [->|Hw].
        -- left. by rewrite elem_of_reverse in Hc.
        -- destruct (IH [] Hw Hc) as [H|H]; [by apply elem_of_nil in H|].
           right; by constructor.
    + destruct (IH (a :: cur) Hw Hc) as [H|H].
      * apply elem_of_cons in H as [->|H]; [right; constructor|by left].
      * right; by constructor.
Qed.

Lemma py_split_words (s : str) : Forall is_word (py_split s).
Proof. apply split_ws_aux_words; constructor. Qed.

Lemma py_split_elem (s w : str) (c : N) : w ∈ py_split s → c ∈ w → c ∈ s.
Proof.
  intros Hw Hc. destruct (split_ws_aux_elem _ _ _ _ Hw Hc) as [H|H]; [|done].
  by apply elem_of_nil in H.
Qed.

(** Characters of a joined string come from the parts or the separator. *)
Lemma py_join_elem (sep : str) (ws : list str) (c : N) :
  c ∈ py_join sep ws → c ∈ sep ∨ ∃ w, w ∈ ws ∧ c ∈ w.
Proof.
  induction ws as [|w ws IH]; cbn [py_join]; [by intros ?%elem_of_nil|].
  destruct ws as [|w' ws'].
  - intros H; right; exists w; split; [constructor|done].
  - rewrite !elem_of_app. intros [H|[H|H]].
    + right; exists w; split; [constructor|done].
    + by left.
    + destruct (IH H) as [?|(x & Hx & Hcx)]; [by left|].
      right; exists x; split; [by constructor|done].
Qed.

Lemma SP_is_space : is_space SP = true.
Proof. reflexivity. Qed.

(** The shape of words joined by single spaces. *)
Lemma py_join_head (ws : list str) (c : N) (r : str) :
  Forall is_word ws → py_join [SP] ws = c :: r → is_space c = false.
Proof.
  destruct ws as [|w ws]; [discriminate|].
  intros Hws; apply Forall_cons in Hws as [[Hne Hw] _].
  destruct w as [|a w']; [done|].
  apply Forall_cons in Hw as [Ha _].
  cbn [py_join]. destruct ws; cbn; intros [= <- _]; done.
Qed.

Lemma py_join_nonempty (w : str) (ws : list str) :
  is_word w → py_join [SP] (w :: ws) ≠ [].
Proof.
  intros [Hne _]. cbn [py_join]. destruct ws; [done|].
  destruct w; [done|discriminate].
Qed.

Lemma py_join_last (ws : list str) (c : N) :
  Forall is_word ws → last (py_join [SP] ws) = Some c → is_space c = false.
Proof.
  induction ws as [|w ws IH]; [discriminate|].
  intros Hws; apply Forall_cons in Hws as [Hw Hws].
  cbn [py_join]. destruct ws as [|w' ws'].
  - intros Hl. destruct Hw as [_ Hw].
    rewrite Forall_forall in Hw. apply Hw.
    rewrite last_lookup in Hl. by eapply list_elem_of_lookup_2.
  - rewrite !last_app.
    destruct (last (py_join [SP] (w' :: ws'))) as [x|] eqn:Hx.
    + intros [= <-]. by apply IH.
    + apply last_None in Hx.
      apply Forall_cons in Hws as [Hw' _].
      by apply py_join_nonempty in Hx.
Qed.

Lemma py_join_adjacent (ws : list str) (i : nat) (a b : N) :
  Forall is_word ws →
  py_join [SP] ws !! i = Some a → py_join [SP] ws !! S i = Some b →
  is_space a = true → is_space b = false.
Proof.
  revert i; induction ws as [|w ws IH]; intros i Hws; [done|].
  apply Forall_cons in Hws as [Hw Hws].
  cbn [py_join]. destruct ws as [|w' ws'].
  - intros Ha _ Hsa. destruct Hw as [_ Hw]. rewrite Forall_forall in Hw.
    rewrite (Hw a) in Hsa; [done|]. by eapply list_elem_of_lookup_2.
  - remember (py_join [SP] (w' :: ws')) as t eqn:Ht.
    intros Ha Hb Hsa.
    destruct (decide (i < length w)%nat) as [Hi|Hi].
    + rewrite lookup_app_l in Ha by done.
      destruct Hw as [_ Hw]. rewrite Forall_forall in Hw.
      rewrite (Hw a) in Hsa; [done|]. by eapply list_elem_of_lookup_2.
    + rewrite lookup_app_r in Hb by lia.
      destruct (decide (i = length w)) as [->|Hne].
      * replace (S (length w) - length w)%nat with 1%nat in Hb by lia.
        cbn in Hb. destruct t as [|x t']; [done|].
        injection Hb as <-.
        eapply (py_join_head (w' :: ws')); [done|symmetry; exact Ht].
      * rewrite lookup_app_r in Ha by lia.
        replace (i - length w)%nat with (S (i - length w - 1)) in Ha by lia.
        replace (S i - length w)%nat with (S (S (i - length w - 1))) in Hb by lia.
        cbn in Ha, Hb. subst t. by eapply IH.
Qed.

End SafeStem.

(** C9.  For every file name, the stem used in the base name is the name
    without its extension ([py_stem]), in which every character of [bad]
    (slash, backslash, colon, star, question mark, double quote, angle
    brackets, bar, the four smart quotes) has been replaced by a space and
    the words then joined by single spaces: the result contains no
    character of [bad], its only whitespace is the space, it neither
    starts nor ends with whitespace, and no two whitespace characters are
    adjacent. *)
Theorem safe_stem_sanitized (name : str) :
  let cleaned := safe_stem (py_stem name) in
  py_stem name ++ py_suffix name = name
  ∧ cleaned = py_join [SP] (py_split (sanitize_char <$> py_stem name))
  ∧ (∀ c, c ∈ cleaned → c ∉ bad)
  ∧ (∀ c, c ∈ cleaned → is_space c = true → c = SP)
  ∧ (∀ c r, cleaned = c :: r → is_space c = false)
  ∧ (∀ c, last cleaned = Some c → is_space c = false)
  ∧ (∀ i a b, cleaned !! i = Some a → cleaned !! S i = Some b →
       is_space a = true → is_space b = false).
Proof.
  intros cleaned.
  assert (Hc : cleaned = py_join [SP] (py_split (sanitize_char <$> py_stem name))).
  { unfold cleaned, safe_stem. by rewrite replace_bad. }
  pose proof (py_split_words (sanitize_char <$> py_stem name)) as Hws.
  split; [|split; [exact Hc|]].
  { unfold py_stem, py_suffix. destruct (suffix_start name); [apply take_drop|apply app_nil_r]. }
  rewrite Hc. repeat split.
  - intros c Hin Hbad.
    apply py_join_elem in Hin as [Hin|(w & Hw & Hin)].
    + apply list_elem_of_singleton in Hin; subst c. revert Hbad.
      unfold bad, SP. rewrite !elem_of_cons, elem_of_nil. intuition discriminate.
    + pose proof (py_split_elem _ _ _ Hw Hin) as Hs.
      apply list_elem_of_fmap in Hs as (x & -> & _).
      unfold sanitize_char in Hbad. case_bool_decide as Hx.
      * revert Hbad. unfold bad, SP. rewrite !elem_of_cons, elem_of_nil.
        intuition discriminate.
      * done.
  - intros c Hin Hsp.
    apply py_join_elem in Hin as [Hin|(w & Hw & Hin)].
    + by apply list_elem_of_singleton in Hin.
    + rewrite Forall_forall in Hws. destruct (Hws w Hw) as [_ Hnw].
      rewrite Forall_forall in Hnw. rewrite (Hnw c Hin) in Hsp. done.
  - intros c r. by apply py_join_head.
  - intros c. by apply py_join_last.
  - intros i a b. by apply py_join_adjacent.
Qed.

(** ** Naming policy: the unique transcript path *)

Section UniquePath.

Lemma uint_digits_inj (d d' : Decimal.uint) :
  uint_digits d = uint_digits d' → d = d'.
Proof.
  revert d'; induction d; destruct d'; cbn; intros H;
    try discriminate; try reflexivity;
    injection H as H; f_equal; auto.
Qed.

Lemma py_str_int_inj (i j : N) : py_str_int i = py_str_int j → i = j.
Proof.
  intros H. apply DecimalN.Unsigned.to_uint_inj. by apply uint_digits_inj.
Qed.

Lemma numbered_inj (base_name : str) (i j : N) :
  numbered base_name i = numbered base_name j → i = j.
Proof.
  unfold numbered. intros H.
  apply app_inv_head in H. injection H as H.
  apply app_inv_tail in H. by apply py_str_int_inj.
Qed.

Lemma exists_true (fo : folder) (name : str) :
  exists_ fo name = true ↔ name ∈ dom fo.
Proof.
  unfold exists_. rewrite elem_of_dom.
  destruct (fo !! name); split; intros H; try done.
Qed.

Lemma exists_false (fo : folder) (name : str) :
  exists_ fo name = false ↔ fo !! name = None.
Proof. unfold exists_. destruct (fo !! name); split; intros H; done. Qed.

Variable fo : folder.
Variable base_name : str.

(** The loop started at [i] with [fuel] rounds left, when the candidates
    [seen] are used, those from [i] on are not among them, and the
    folder has at most [fuel] entries beside them: it returns the first
    unused candidate from [i] on.  With the fuel spent, [seen] is the
    whole folder, and candidate [i] is unused. *)
Lemma probe_first_unused (fuel : nat) (i : N) (seen : gset str) :
  seen ⊆ dom fo →
  (∀ j, i ≤ j → numbered base_name j ∉ seen) →
  (size (dom fo) ≤ fuel + size seen)%nat →
  ∃ k, i ≤ k
       ∧ probe fo base_name fuel i = numbered base_name k
       ∧ fo !! numbered base_name k = None
       ∧ ∀ j, i ≤ j < k → is_Some (fo !! numbered base_name j).
Proof.
  revert i seen; induction fuel as [|fuel IH]; intros i seen Hsub Hfresh Hsize.
  - exists i. cbn. repeat split; [lia| |intros j ?; lia].
    apply not_elem_of_dom.
    assert (seen = dom fo) as <-.
    { apply set_subseteq_size_eq; [done|simpl in Hsize; lia]. }
    apply Hfresh; lia.
  - cbn [probe]. destruct (exists_ fo (numbered base_name i)) eqn:Hex; cbn [negb].
    + apply exists_true in Hex.
      destruct (IH (i + 1) (seen ∪ {[numbered base_name i]}))
        as (k & Hk & Hp & Hnone & Hused).
      * apply union_subseteq; split; [done|].
        by apply singleton_subseteq_l.
      * intros j Hj Hin. apply elem_of_union in Hin as [Hin|Hin].
        -- revert Hin. apply Hfresh; lia.
        -- apply elem_of_singleton in Hin. apply numbered_inj in Hin. lia.
      * rewrite size_union, size_singleton; [lia|].
        assert (numbered base_name i ∉ seen) by (apply Hfresh; lia).
        by apply disjoint_singleton_r.
      * exists k. repeat split; [lia|done|done|].
        intros j Hj. destruct (decide (j = i)) as [->|Hne].
        -- by apply elem_of_dom.
        -- apply Hused; lia.
    + apply exists_false in Hex.
      exists i. repeat split; [lia|done|intros j ?; lia].
Qed.

End UniquePath.

(** The path returned names no entry of the folder. *)
Lemma make_unique_txt_path_fresh (fo : folder) (base_name : str) :
  fo !! make_unique_txt_path fo base_name = None.
Proof.
  unfold make_unique_txt_path.
  destruct (exists_ fo (base_name ++ lit ".txt")) eqn:Hex; cbn [negb].
  - destruct (probe_first_unused fo base_name (size fo) 2 ∅)
      as (k & _ & Hp & Hnone & _).
    + apply empty_subseteq.
    + intros j _. apply not_elem_of_empty.
    + rewrite size_dom, size_empty. lia.
    + by rewrite Hp.
  - by apply exists_false.
Qed.

(** C6.  For every folder and base name X, [make_unique_txt_path] returns
    [X.txt] when no entry has that name; otherwise it returns [X i.txt]
    for the least [i >= 2] whose name is unused, every [X j.txt] with
    [2 <= j < i] being in use; so with [X.txt] and [X 2.txt] present and
    [X 3.txt] not, it returns [X 3.txt].  In all cases the path returned
    names no entry of the folder: writing to it overwrites nothing. *)
Theorem make_unique_txt_path_unused (fo : folder) (X : str) :
  let p := make_unique_txt_path fo X in
  (fo !! (X ++ lit ".txt") = None → p = X ++ lit ".txt")
  ∧ (is_Some (fo !! (X ++ lit ".txt")) →
       ∃ i, 2 ≤ i ∧ p = X ++ lit " " ++ py_str_int i ++ lit ".txt"
            ∧ ∀ j, 2 ≤ j < i →
                is_Some (fo !! (X ++ lit " " ++ py_str_int j ++ lit ".txt")))
  ∧ (is_Some (fo !! (X ++ lit ".txt")) → is_Some (fo !! (X ++ lit " 2.txt")) →
       fo !! (X ++ lit " 3.txt") = None → p = X ++ lit " 3.txt")
  ∧ fo !! p = None.
Proof.
  intros p. subst p. unfold make_unique_txt_path.
  destruct (probe_first_unused fo X (size fo) 2 ∅)
    as (k & Hk & Hp & Hnone & Hused).
  { set_solver. }
  { set_solver. }
  { rewrite size_dom, size_empty. lia. }
  destruct (exists_ fo (X ++ lit ".txt")) eqn:Hex; cbn [negb].
  - apply exists_true, elem_of_dom in Hex.
    repeat split.
    + intros Hn. rewrite Hn in Hex. by destruct Hex.
    + intros _. exists k. split; [done|]. split; [exact Hp|]. exact Hused.
    + intros _ H2 H3. rewrite Hp.
      destruct (decide (k = 2)) as [->|Hk2].
      { change (numbered X 2) with (X ++ lit " 2.txt") in Hnone.
        rewrite Hnone in H2. by destruct H2. }
      destruct (decide (k = 3)) as [->|Hk3]; [reflexivity|].
      assert (H : is_Some (fo !! numbered X 3)) by (apply Hused; lia).
      change (numbered X 3) with (X ++ lit " 3.txt") in H.
      rewrite H3 in H. by destruct H.
    + by rewrite Hp.
  - apply exists_false in Hex. repeat split; try done.
    + intros H. rewrite Hex in H. by destruct H.
    + intros H. rewrite Hex in H. by destruct H.
Qed.

(** ** Dedup ledger: loading *)

Section Ledger.

Lemma done_step_line_hash (done : gset str) (line : str) :
  done_step done line =
    match line_hash line with Some h => done ∪ {[h]} | None => done end.
Proof.
  unfold done_step, line_hash.
  destruct (strip line) as [|c l] eqn:Hs; [reflexivity|].
  destruct (json_loads (c :: l)) as [[| | | | |pairs]|]; try reflexivity.
  destruct (dict_get pairs (lit "sha256") (JStr [])) as [| | |[|a h]| |];
    reflexivity.
Qed.

Lemma elem_of_foldl_done_step (lines : list str) (done : gset str) (h : str) :
  h ∈ foldl done_step done lines
  ↔ h ∈ done ∨ ∃ line, line ∈ lines ∧ line_hash line = Some h.
Proof.
  revert done; induction lines as [|l lines IH]; intros done; cbn [foldl].
  - split; [by left|]. intros [?|(? & []%elem_of_nil & _)]; done.
  - rewrite IH, done_step_line_hash. split.
    + intros [Hin|(line & Hl & Hh)].
      * destruct (line_hash l) as [h'|] eqn:Hl'; [|by left].
        apply elem_of_union in Hin as [?|Hin]; [by left|].
        apply elem_of_singleton in Hin as ->.
        right; exists l; split; [constructor|done].
      * right; exists line; split; [by constructor|done].
    + intros [Hin|(line & Hl & Hh)].
      * left. destruct (line_hash l); [|done]. by apply elem_of_union_l.
      * apply elem_of_cons in Hl as [->|Hl].
        -- left. rewrite Hh. apply elem_of_union_r. by apply elem_of_singleton.
        -- right; by exists line.
Qed.

(** On a ledger that decodes as UTF-8 the load succeeds, and the set it
    returns holds exactly the hashes recorded by well-formed lines:
    every other line is passed over. *)
Lemma load_done_hashes_decodable (b : bytes) (text : str) :
  utf8_decode b = Some text →
  ∃ done, load_done_hashes (Some b) = Ok done
          ∧ ∀ h, h ∈ done
                 ↔ ∃ line, line ∈ splitlines (universal_newlines text)
                           ∧ line_hash line = Some h.
Proof.
  intros Hdec. unfold load_done_hashes, read_text. rewrite Hdec.
  eexists; split; [reflexivity|]. intros h.
  rewrite elem_of_foldl_done_step. split; [|by right].
  intros [[]%elem_of_empty|H]; done.
Qed.

End Ledger.

(** C8, evaluated on a ledger whose last record was cut short.  Cut at a
    character boundary, the partial line is passed over and the whole
    record before it is loaded.  Cut one byte later, inside a two-byte
    character, the file no longer decodes: [read_text] raises
    [UnicodeDecodeError] outside the [try] of [load_done_hashes], and the
    load fails. *)
Theorem load_done_hashes_cut_in_character :
  load_done_hashes (Some ledger_cut_at_char) = Ok {[ lit "ab" ]}
  ∧ load_done_hashes (Some ledger_cut_in_char) = Raise UnicodeDecodeError.
Proof. split; vm_compute; reflexivity. Qed.

(** ** Size gate *)

Section SizeGate.

(** [rfind] returns the last occurrence. *)
Lemma rfind_from_last (ch : N) (s : str) (i : nat) (last : option nat) (k : nat) :
  rfind_from ch s i last = Some k →
  (last = Some k ∧ ch ∉ s)
  ∨ (i ≤ k ∧ s !! (k - i) = Some ch ∧ ch ∉ drop (S (k - i)) s)%nat.
Proof.
  revert i last; induction s as [|c r IH]; intros i last; cbn [rfind_from].
  - intros ->. left. split; [done|]. by intros ?%elem_of_nil.
  - intros H. apply IH in H as [[Hl Hr]|(Hi & Hk & Hd)].
    + destruct (N.eqb_spec c ch) as [->|Hne].
      * injection Hl as <-. right. rewrite Nat.sub_diag. cbn. by rewrite drop_0.
      * left. split; [done|]. rewrite elem_of_cons. intros [?|?]; congruence.
    + right. split; [lia|].
      replace (k - i)%nat with (S (k - S i)) by lia. by cbn.
Qed.

Lemma suffix_one_dot (name : str) (i : nat) :
  suffix_start name = Some i →
  ∃ t, drop i name = DOT :: t ∧ DOT ∉ t.
Proof.
  unfold suffix_start, rfind.
  destruct (rfind_from DOT name 0 None) as [k|] eqn:Hr; [|done].
  case_bool_decide; [|done]. intros [= ->].
  apply rfind_from_last in Hr as [[? _]|(_ & Hk & Hd)]; [done|].
  rewrite Nat.sub_0_r in Hk, Hd.
  exists (drop (S i) name). split; [|done].
  by apply drop_S.
Qed.

(** The derived path differs from the path it is derived from. *)
Lemma with_suffix_compressed_ne (name : str) :
  with_suffix name (lit ".compressed.m4a") ≠ name.
Proof.
  unfold with_suffix, py_stem.
  destruct (suffix_start name) as [i|] eqn:Hs.
  - intros H. apply suffix_one_dot in Hs as (t & Ht & Hdot).
    rewrite <- (take_drop i name) in H at 2.
    apply app_inv_head in H. rewrite Ht in H.
    injection H as <-. apply Hdot.
    apply list_elem_of_In. vm_compute. tauto.
  - intros H. apply (f_equal length) in H.
    rewrite length_app in H.
    change (length (lit ".compressed.m4a")) with 15%nat in H. lia.
Qed.

End SizeGate.

(** C7.  For every file of the inbox and every limit: when the file's
    size is at most the limit, the gate returns the input path and leaves
    the world as it was.  When the size exceeds the limit, the entry at
    the derived path (if any) is no directory and ffmpeg succeeds, the
    gate returns the derived path [stem + ".compressed.m4a"], which
    differs from the input path and now holds ffmpeg's output; a stale
    copy found there was unlinked before ffmpeg ran. *)
Theorem size_gate_passes_or_compresses (E : Env) (name : str) (limit : Z)
    (w : World) (d : FileData) :
  inbox w !! name = Some (File d) →
  let compressed := with_suffix name (lit ".compressed.m4a") in
  ((st_size d ≤ limit)%Z →
     maybe_compress_if_too_large E name limit w = (Ok name, w))
  ∧ (∀ out, (st_size d > limit)%Z →
       inbox w !! compressed ≠ Some Dir →
       ffmpeg E (clock w) (content d) = FfmpegDone out →
       ∃ w', maybe_compress_if_too_large E name limit w = (Ok compressed, w')
         ∧ compressed ≠ name
         ∧ inbox w' = <[compressed := File (mkFile out (now_ts E (clock w)) true)]> (inbox w)
         ∧ trace w' = trace w
                      ++ (if exists_ (inbox w) compressed
                          then [EvUnlink compressed] else [])
                      ++ [EvFfmpeg name compressed]
         ∧ transcripts w' = transcripts w ∧ archive w' = archive w
         ∧ index_file w' = index_file w ∧ errors_log w' = errors_log w).
Proof.
  intros Hname compressed. unfold maybe_compress_if_too_large.
  rewrite Hname. fold compressed. split.
  - intros Hle. by rewrite bool_decide_eq_true_2.
  - intros out Hgt Hnd Hff.
    rewrite bool_decide_eq_false_2 by lia.
    pose proof (with_suffix_compressed_ne name) as Hne. fold compressed in Hne.
    unfold exists_, unlink.
    destruct (inbox w !! compressed) as [[stale|]|] eqn:Hc; [|done|].
    + unfold check_call_ffmpeg. cbn.
      rewrite lookup_delete_ne by done. rewrite Hname, Hff.
      eexists; split; [reflexivity|]. cbn.
      repeat split; try done.
      * by rewrite insert_delete_eq.
      * by rewrite <- app_assoc.
    + unfold check_call_ffmpeg. cbn. rewrite Hname, Hff.
      eexists; split; [reflexivity|]. cbn. repeat split; done.
Qed.

(** The gate on a six-byte file with a limit of four bytes and a stale
    copy at the derived path. *)
Lemma size_gate_passes_or_compresses_witness :
  ∃ w', maybe_compress_if_too_large env_ok (lit "talk.wav") 4 world_stale
        = (Ok (lit "talk.compressed.m4a"), w')
      ∧ inbox w' !! lit "talk.compressed.m4a"
        = Some (File (mkFile (blit "ab") 0 true))
      ∧ trace w' = [EvUnlink (lit "talk.compressed.m4a");
                    EvFfmpeg (lit "talk.wav") (lit "talk.compressed.m4a")].
Proof.
  destruct (size_gate_passes_or_compresses env_ok (lit "talk.wav") 4 world_stale
              (mkFile (blit "abcdef") 0 true) eq_refl) as [_ H].
  destruct (H (blit "ab")) as (w' & Hres & _ & Hin & Htr & _).
  - reflexivity.
  - vm_compute. discriminate.
  - reflexivity.
  - exists w'. split; [exact Hres|]. split; [|exact Htr].
    rewrite Hin. apply lookup_insert_eq.
Defined.

(** ** What the statements of the loop body leave alone *)

Section Frames.

Lemma agree_off_refl ks m : agree_off ks m m.
Proof. by intros k _. Qed.

Lemma agree_off_trans ks m1 m2 m3 :
  agree_off ks m1 m2 → agree_off ks m2 m3 → agree_off ks m1 m3.
Proof. intros H1 H2 k Hk. by rewrite H2, H1. Qed.

Lemma agree_off_weaken ks ks' m m' :
  ks ⊆ ks' → agree_off ks m m' → agree_off ks' m m'.
Proof. intros Hs H k Hk. apply H. intros Hin. by apply Hk, Hs. Qed.

Lemma agree_off_insert k v ks m : k ∈ ks → agree_off ks m (<[k:=v]> m).
Proof.
  intros Hin j Hj. apply lookup_insert_ne. intros ->. by apply Hj.
Qed.

Lemma agree_off_delete k ks m : k ∈ ks → agree_off ks m (delete k m).
Proof.
  intros Hin j Hj. apply lookup_delete_ne. intros ->. by apply Hj.
Qed.

Lemma wframe_refl ki kt ka w : wframe ki kt ka w w.
Proof. split; first [apply agree_off_refl|done]. Qed.

Lemma wframe_trans ki kt ka w1 w2 w3 :
  wframe ki kt ka w1 w2 → wframe ki kt ka w2 w3 → wframe ki kt ka w1 w3.
Proof.
  intros [] []. split.
  - by eapply agree_off_trans.
  - by eapply agree_off_trans.
  - by eapply agree_off_trans.
  - by etrans.
  - congruence.
  - by etrans.
Qed.

Lemma wframe_weaken ki kt ka ki' kt' ka' w w' :
  ki ⊆ ki' → kt ⊆ kt' → ka ⊆ ka' →
  wframe ki kt ka w w' → wframe ki' kt' ka' w w'.
Proof.
  intros ??? []. split; first [by eapply agree_off_weaken|done].
Qed.

Lemma lframe_refl ki kt ka l : lframe ki kt ka l l.
Proof. split; first [apply wframe_refl|done]. Qed.

Lemma lframe_trans ki kt ka l1 l2 l3 :
  lframe ki kt ka l1 l2 → lframe ki kt ka l2 l3 → lframe ki kt ka l1 l3.
Proof.
  intros [] []. split.
  - by eapply wframe_trans.
  - congruence.
  - congruence.
  - lia.
  - by etrans.
Qed.

Lemma lframe_weaken ki kt ka ki' kt' ka' l l' :
  ki ⊆ ki' → kt ⊆ kt' → ka ⊆ ka' →
  lframe ki kt ka l l' → lframe ki' kt' ka' l l'.
Proof. intros ??? []. split; first [by eapply wframe_weaken|done]. Qed.

(** *** The combinators *)

Context {P : Loc → Loc → Prop} (Prefl : ∀ l, P l l)
        (Ptrans : ∀ l1 l2 l3, P l1 l2 → P l2 l3 → P l1 l3).

Lemma preserves_ret {A} (a : A) : preserves P (ret a).
Proof. intros l res l' [= <- <-]. apply Prefl. Qed.

Lemma preserves_bind {A B} (m : M A) (k : A → M B) :
  preserves P m → (∀ a, preserves P (k a)) → preserves P (bind m k).
Proof.
  intros Hm Hk l res l'. unfold bind.
  destruct (m l) as [[a|e] l1] eqn:Hml.
  - intros Hkl. eapply Ptrans; [by eapply Hm|by eapply Hk].
  - intros [= <- <-]. by eapply Hm.
Qed.

Lemma preserves_if {A} (b : bool) (m1 m2 : M A) :
  preserves P m1 → preserves P m2 → preserves P (if b then m1 else m2).
Proof. by destruct b. Qed.

End Frames.

Section WorldOps.

Local Ltac frame_fields :=
  split; cbn;
  first [ apply agree_off_refl
        | apply agree_off_insert; set_solver
        | apply agree_off_delete; set_solver
        | reflexivity
        | by apply prefix_app_r
        | idtac ].

Lemma wframe_tick ki kt ka w : wframe ki kt ka w (tick w).
Proof. frame_fields. Qed.

Lemma wframe_emit ki kt ka ev w : wframe ki kt ka w (emit ev w).
Proof. frame_fields. Qed.

Lemma wframe_print ki kt ka line w : wframe ki kt ka w (print line w).
Proof. frame_fields. Qed.

Lemma wframe_append_index_record ki kt ka record w :
  wframe ki kt ka w (append_index_record record w).
Proof. frame_fields. Qed.

Lemma wframe_unlink p w : wframe [p] [] [] w (unlink p w).2.
Proof.
  unfold unlink. destruct (inbox w !! p) as [[]|]; cbn;
    [frame_fields|apply wframe_refl..].
Qed.

Lemma wframe_check_call_ffmpeg E src dst w :
  wframe [dst] [] [] w (check_call_ffmpeg E src dst w).2.
Proof.
  unfold check_call_ffmpeg.
  destruct (inbox w !! src) as [[d|]|]; [|frame_fields..].
  destruct (ffmpeg E (clock w) (content d)) as [out|[partial|]]; frame_fields.
Qed.

Lemma wframe_maybe_compress E name limit w :
  wframe [with_suffix name (lit ".compressed.m4a")] [] [] w
    (maybe_compress_if_too_large E name limit w).2.
Proof.
  unfold maybe_compress_if_too_large.
  destruct (inbox w !! name) as [node|]; [|apply wframe_refl].
  case_bool_decide; [apply wframe_refl|].
  set (compressed := with_suffix name (lit ".compressed.m4a")).
  assert (Hu : wframe [compressed] [] [] w
             (if exists_ (inbox w) compressed then unlink compressed w
              else (Ok (), w)).2).
  { destruct (exists_ (inbox w) compressed); [apply wframe_unlink|apply wframe_refl]. }
  destruct (if exists_ (inbox w) compressed then unlink compressed w
            else (Ok (), w)) as [[[]|e] w1]; cbn in Hu; [|done].
  pose proof (wframe_check_call_ffmpeg E name compressed w1) as Hf.
  destruct (check_call_ffmpeg E name compressed w1) as [[[]|e] w2]; cbn in *;
    by eapply wframe_trans.
Qed.

Lemma wframe_transcribe E name model language w :
  wframe [] [] [] w (transcribe_with_openai E name model language w).2.
Proof.
  unfold transcribe_with_openai.
  destruct (inbox w !! name) as [[d|]|]; [|apply wframe_refl..].
  destruct (readable d); cbn; [|apply wframe_refl].
  destruct (api_transcribe _ _ _ _ _) as [msg|[[|c t]|]]; frame_fields.
Qed.

Lemma wframe_write_text E txt text w :
  wframe [] [txt] [] w (write_text E txt text w).2.
Proof.
  unfold write_text.
  destruct (transcripts w !! txt) as [[]|]; cbn;
    first [apply wframe_refl|frame_fields].
Qed.

Lemma wframe_datetime_now E w : wframe [] [] [] w (datetime_now E w).2.
Proof. apply wframe_tick. Qed.

Lemma wframe_path_replace name w :
  wframe [name] [] [name] w (path_replace name w).2.
Proof.
  unfold path_replace.
  destruct (inbox w !! name) as [node|]; [|apply wframe_refl].
  destruct node, (archive w !! name) as [[]|]; cbn;
    first [apply wframe_refl|frame_fields].
Qed.

End WorldOps.

Section TryBlock.

Variables ki kt ka : list str.

Lemma lframe_in_world {A} (op : World → result A * World) :
  (∀ w, wframe ki kt ka w (op w).2) →
  preserves (lframe ki kt ka) (in_world op).
Proof.
  intros Hop l res l'. unfold in_world.
  specialize (Hop (world (run l))).
  destruct (op (world (run l))) as [r w]. intros [= <- <-]. by split.
Qed.

Lemma lframe_on_world (f : World → World) :
  (∀ w, wframe ki kt ka w (f w)) →
  preserves (lframe ki kt ka) (on_run (on_world f)).
Proof. intros Hf l res l' [= <- <-]. split; first [apply Hf|done]. Qed.

Lemma lframe_add_done h : preserves (lframe ki kt ka) (on_run (add_done h)).
Proof.
  intros l res l' [= <- <-].
  split; [apply wframe_refl|done|done|done|cbn; apply union_subseteq_l].
Qed.

Lemma lframe_incr_ok : preserves (lframe ki kt ka) (on_run incr_ok).
Proof.
  intros l res l' [= <- <-].
  split; [apply wframe_refl|done|done|cbn; lia|done].
Qed.

Lemma lframe_assign_working_audio p :
  preserves (lframe ki kt ka) (assign_working_audio p).
Proof.
  intros l res l' [= <- <-]. split; cbn; first [apply wframe_refl|done].
Qed.

Lemma lframe_assign_created_temp b :
  preserves (lframe ki kt ka) (assign_created_temp b).
Proof.
  intros l res l' [= <- <-]. split; cbn; first [apply wframe_refl|done].
Qed.

Lemma lframe_read_working_audio : preserves (lframe ki kt ka) read_working_audio.
Proof. intros l res l' [= <- <-]. apply lframe_refl. Qed.

Lemma preserves_lframe_weaken {A} (m : M A) ki' kt' ka' :
  ki' ⊆ ki → kt' ⊆ kt → ka' ⊆ ka →
  preserves (lframe ki' kt' ka') m → preserves (lframe ki kt ka) m.
Proof. intros ??? H l res l' Hm. eapply lframe_weaken; eauto. Qed.

End TryBlock.

Section LocalsSame.

Lemma locals_same_refl l : locals_same l l.
Proof. by split. Qed.

Lemma locals_same_trans l1 l2 l3 :
  locals_same l1 l2 → locals_same l2 l3 → locals_same l1 l3.
Proof. intros [] []. split; congruence. Qed.

Lemma locals_in_world {A} (op : World → result A * World) :
  preserves locals_same (in_world op).
Proof.
  intros l res l'. unfold in_world.
  destruct (op (world (run l))). intros [= <- <-]. by split.
Qed.

Lemma locals_on_run (f : Run → Run) : preserves locals_same (on_run f).
Proof. intros l res l' [= <- <-]. by split. Qed.

Lemma locals_read_working_audio : preserves locals_same read_working_audio.
Proof. intros l res l' [= <- <-]. by split. Qed.

End LocalsSame.

Section Blocks.

Variable E : Env.
Variable cfg : Config.
Variable name : str.

Let compressed := with_suffix name (lit ".compressed.m4a").

Local Ltac list_sub :=
  intros ?; rewrite ?elem_of_cons, ?elem_of_nil; tauto.

Local Ltac step_lframe :=
  repeat first
    [ apply (preserves_bind (lframe_trans _ _ _)); [|intros ?]
    | apply (preserves_if (P := lframe _ _ _))
    | apply (preserves_ret (lframe_refl _ _ _))
    | apply lframe_add_done
    | apply lframe_incr_ok
    | apply lframe_assign_working_audio
    | apply lframe_assign_created_temp
    | apply lframe_read_working_audio ].

Lemma gate_step_lframe (d : FileData) :
  preserves (lframe [compressed] [] []) (gate_step E cfg name d).
Proof.
  unfold gate_step. step_lframe.
  apply lframe_in_world. intros w. apply wframe_maybe_compress.
Qed.

Lemma upload_and_commit_lframe (file_hash stamp txt_path : str) :
  preserves (lframe [name] [txt_path] [name])
    (upload_and_commit E cfg name file_hash stamp txt_path).
Proof.
  unfold upload_and_commit. step_lframe.
  - apply lframe_on_world. intros w. apply wframe_print.
  - apply lframe_in_world. intros w.
    eapply wframe_weaken; [..|apply wframe_transcribe]; list_sub.
  - apply lframe_in_world. intros w.
    eapply wframe_weaken; [..|apply wframe_write_text]; list_sub.
  - apply lframe_in_world. intros w. apply wframe_tick.
  - apply lframe_on_world. intros w. apply wframe_append_index_record.
  - apply lframe_in_world. intros w.
    eapply wframe_weaken; [..|apply wframe_path_replace]; list_sub.
Qed.

Lemma upload_and_commit_locals (file_hash stamp txt_path : str) :
  preserves locals_same (upload_and_commit E cfg name file_hash stamp txt_path).
Proof.
  unfold upload_and_commit.
  repeat first
    [ apply (preserves_bind locals_same_trans); [|intros ?]
    | apply (preserves_if (P := locals_same))
    | apply (preserves_ret locals_same_refl)
    | apply locals_in_world
    | apply locals_on_run
    | apply locals_read_working_audio ].
Qed.

Lemma try_block_lframe (d : FileData) (file_hash stamp txt_path : str) :
  preserves (lframe [name; compressed] [txt_path] [name])
    (try_block E cfg name d file_hash stamp txt_path).
Proof.
  unfold try_block.
  apply (preserves_bind (lframe_trans _ _ _)); [|intros ?].
  - eapply preserves_lframe_weaken; [..|apply gate_step_lframe]; list_sub.
  - eapply preserves_lframe_weaken; [..|apply upload_and_commit_lframe];
      list_sub.
Qed.

End Blocks.

(** ** One item of the listing *)

Section Item.

Variable E : Env.
Variable cfg : Config.

(** A [bind] that returns normally ran both of its parts normally. *)
Lemma bind_Ok {A B} (m : M A) (k : A → M B) (l l' : Loc) (b : B) :
  bind m k l = (Ok b, l') →
  ∃ a l1, m l = (Ok a, l1) ∧ k a l1 = (Ok b, l').
Proof.
  unfold bind. destruct (m l) as [[a|e] l1]; [|done]. intros H. by exists a, l1.
Qed.

Lemma bind_Raise {A B} (m : M A) (k : A → M B) (l l' : Loc) (e : exn) :
  bind m k l = (Raise e, l') →
  m l = (Raise e, l') ∨ ∃ a l1, m l = (Ok a, l1) ∧ k a l1 = (Raise e, l').
Proof.
  unfold bind. destruct (m l) as [[a|e'] l1].
  - intros H. right. by exists a, l1.
  - intros [= -> ->]. by left.
Qed.

Lemma in_world_inv {A} (op : World → result A * World) (l l' : Loc) res :
  in_world op l = (res, l') →
  ∃ w, op (world (run l)) = (res, w)
       ∧ l' = mkLoc (on_world (λ _, w) (run l)) (working_audio l) (created_temp l).
Proof.
  unfold in_world. destruct (op (world (run l))) as [r w].
  intros [= <- <-]. by exists w.
Qed.

(** The process item step, case by case. *)
Lemma process_item_inv (name : str) (r r' : Run) (o : Outcome) :
  process_item E cfg name r = (o, r') →
  (o = NotCandidate ∧ r' = r ∧ ∀ d, ¬ candidate (world r) name d)
  ∨ ∃ d, candidate (world r) name d ∧
      ((∃ e, sha256_file E (world r) name = Raise e ∧ o = HashFailed e
             ∧ r' = record_failure E name (lit "hash_error") e r)
       ∨ (readable d = true ∧
          let file_hash := sha256_hex E (content d) in
          let stamp := date_stamp_for_filename E d in
          let txt_path :=
            make_unique_txt_path (transcripts (world r))
              (stamp ++ [SP] ++ safe_stem (py_stem name)) in
          ((file_hash ∈ done_hashes r ∧ o = Skipped
            ∧ r' = (if move_skipped cfg
                    then on_world (λ w, (path_replace name w).2) (incr_skipped r)
                    else incr_skipped r))
           ∨ ((file_hash ∉ done_hashes r) ∧
              ∃ res l, try_block E cfg name d file_hash stamp txt_path
                         (mkLoc r name false) = (res, l)
                ∧ match res with
                  | Ok _ => o = Transcribed ∧ r' = finally l
                  | Raise e =>
                      o = Failed e
                      ∧ r' = finally
                          (mkLoc (on_world (print (lit "Failed " ++ name ++ lit "  "
                                                    ++ exn_str E e))
                                    (record_failure E name (lit "transcribe_error")
                                       e (run l)))
                             (working_audio l) (created_temp l))
                  end)))).
Proof.
  unfold process_item, candidate.
  destruct (inbox (world r) !! name) as [[d|]|] eqn:Hin;
    [|intros [= <- <-]; left; repeat split; intros d [? _]; done..].
  case_bool_decide as Hext; cbn [negb];
    [|intros [= <- <-]; left; repeat split; intros d' [_ ?]; done].
  intros H. right. exists d. split; [done|].
  unfold sha256_file in *. rewrite Hin in *.
  destruct (readable d) eqn:Hrd.
  - right. split; [done|]. cbn zeta.
    case_bool_decide as Hdone.
    + left. injection H as <- <-. done.
    + right. split; [done|].
      destruct (try_block _ _ _ _ _ _ _ _) as [[[]|e] l] eqn:Htry;
        injection H as <- <-; eexists _, l; (split; [reflexivity|done]).
  - left. injection H as <- <-. by eexists.
Qed.

(** *** The [except] and [finally] clauses *)

Lemma record_failure_spec (name tag : str) (e : exn) (r : Run) :
  let r' := record_failure E name tag e r in
  failed r' = S (failed r) ∧ ok r' = ok r ∧ skipped r' = skipped r
  ∧ done_hashes r' = done_hashes r
  ∧ errors_log (world r')
    = errors_log (world r)
      ++ utf8_encode (error_line (now_iso E (clock (world r))) name tag (exn_str E e))
  ∧ inbox (world r') = inbox (world r)
  ∧ transcripts (world r') = transcripts (world r)
  ∧ archive (world r') = archive (world r)
  ∧ index_file (world r') = index_file (world r)
  ∧ trace (world r') = trace (world r).
Proof. by repeat split. Qed.

Lemma finally_spec (l : Loc) :
  wframe [working_audio l] [] [] (world (run l)) (world (finally l))
  ∧ failed (finally l) = failed (run l) ∧ ok (finally l) = ok (run l)
  ∧ skipped (finally l) = skipped (run l)
  ∧ done_hashes (finally l) = done_hashes (run l).
Proof.
  unfold finally. destruct (created_temp l); cbn.
  - split; [apply wframe_unlink|done].
  - split; [apply wframe_refl|done].
Qed.

(** *** Nothing committed is lost *)

Lemma grows_refl (w : World) : grows w w.
Proof. by repeat split. Qed.

Lemma grows_trans (w1 w2 w3 : World) : grows w1 w2 → grows w2 w3 → grows w1 w3.
Proof. intros (? & ? & ?) (? & ? & ?). repeat split; by etrans. Qed.

Lemma wframe_grows ki kt ka (w w' : World) :
  wframe ki kt ka w w' →
  (∀ k, k ∈ kt → transcripts w !! k = None) →
  grows w w'.
Proof.
  intros [_ Ht _ Hl He _] Hfresh. repeat split; [done| |by rewrite He].
  apply map_subseteq_spec. intros k v Hk.
  rewrite Ht; [done|]. intros Hin. apply Hfresh in Hin. congruence.
Qed.

(** One step of the loop: what it adds to the tallies and to the error
    log, and that it loses nothing. *)
Lemma process_item_step (name : str) (r r' : Run) (o : Outcome) :
  process_item E cfg name r = (o, r') →
  grows (world r) (world r')
  ∧ failed r' = (failed r + (if is_failure o then 1 else 0))%nat
  ∧ done_hashes r ⊆ done_hashes r'
  ∧ match failure_of o with
    | Some (tag, e) =>
        ∃ now, errors_log (world r')
               = errors_log (world r)
                 ++ utf8_encode (error_line now name tag (exn_str E e))
    | None => errors_log (world r') = errors_log (world r)
    end.
Proof.
  intros H. apply process_item_inv in H
    as [(-> & -> & _)|(d & [Hin Hext] & [(e & Hsha & -> & ->)|(Hrd & H)])].
  - cbn. split; [apply grows_refl|]. split; [lia|done].
  - pose proof (record_failure_spec name (lit "hash_error") e r)
      as (Hf & _ & _ & Hd & Hlog & _ & Htr & _ & Hix & _).
    cbn [is_failure failure_of]. split; [|split; [|split]].
    + split; [|split].
      * unfold ledger. by rewrite Hix.
      * by rewrite Htr.
      * rewrite Hlog. by apply prefix_app_r.
    + lia.
    + by rewrite Hd.
    + eexists. exact Hlog.
  - cbn zeta in H. destruct H as [(Hdone & -> & ->)|(Hdone & res & l & Htry & H)].
    + cbn [is_failure failure_of].
      assert (Hw : wframe [name] [] [name] (world r)
                     (world (if move_skipped cfg
                             then on_world (λ w, (path_replace name w).2)
                                    (incr_skipped r)
                             else incr_skipped r))).
      { destruct (move_skipped cfg); cbn;
          [apply wframe_path_replace|apply wframe_refl]. }
      split; [|split; [|split]].
      * eapply wframe_grows; [exact Hw|]. by intros k ?%elem_of_nil.
      * destruct (move_skipped cfg); cbn; lia.
      * by destruct (move_skipped cfg).
      * by destruct Hw.
    + pose proof (try_block_lframe E cfg name d _ _ _ _ _ _ Htry) as [Hw Hf _ _ Hd].
      cbn in Hw, Hf, Hd.
      assert (Hg : grows (world r) (world (run l))).
      { eapply wframe_grows; [exact Hw|].
        intros k ->%list_elem_of_singleton. apply make_unique_txt_path_fresh. }
      destruct res as [[]|e].
      * destruct H as [-> ->]. cbn [is_failure failure_of].
        destruct (finally_spec l) as (Hfin & Hff & _ & _ & Hfd).
        split; [|split; [|split]].
        -- eapply grows_trans; [exact Hg|].
           eapply wframe_grows; [exact Hfin|]. by intros k ?%elem_of_nil.
        -- rewrite Hff, Hf. lia.
        -- by rewrite Hfd.
        -- destruct Hfin, Hw. congruence.
      * destruct H as [-> ->]. cbn [is_failure failure_of].
        set (l2 := mkLoc _ _ _).
        destruct (finally_spec l2) as (Hfin & Hff & _ & _ & Hfd).
        assert (Hg2 : grows (world (run l)) (world (run l2))).
        { split; [|split]; cbn; [done|done|by apply prefix_app_r]. }
        split; [|split; [|split]].
        -- eapply grows_trans; [exact Hg|]. eapply grows_trans; [exact Hg2|].
           eapply wframe_grows; [exact Hfin|]. by intros k ?%elem_of_nil.
        -- rewrite Hff. cbn. rewrite Hf. lia.
        -- rewrite Hfd. cbn. done.
        -- eexists. destruct Hfin as [_ _ _ _ -> _]. cbn.
           destruct Hw as [_ _ _ _ -> _]. reflexivity.
Qed.

(** *** The path on which an item is committed *)

Lemma upload_and_commit_Ok (name file_hash stamp txt_path : str) (l0 l : Loc) :
  upload_and_commit E cfg name file_hash stamp txt_path l0 = (Ok (), l) →
  ∃ text w1 w2,
    transcribe_with_openai E (working_audio l0) (model cfg) (language cfg)
      (print (lit "Transcribing " ++ name) (world (run l0))) = (Ok text, w1)
    ∧ write_text E txt_path (transcript_text cfg stamp name file_hash text) w1
      = (Ok (), w2)
    ∧ (let w3 :=
         append_index_record
           (index_record cfg file_hash name txt_path stamp (now_iso E (clock w2)))
           (tick w2) in
       if move_audio cfg then path_replace name w3 = (Ok (), world (run l))
       else world (run l) = w3)
    ∧ done_hashes (run l) = done_hashes (run l0) ∪ {[file_hash]}
    ∧ ok (run l) = S (ok (run l0))
    ∧ working_audio l = working_audio l0
    ∧ created_temp l = created_temp l0.
Proof.
  unfold upload_and_commit, bind, on_run, in_world, read_working_audio, ret.
  cbn.
  destruct (transcribe_with_openai _ _ _ _ _) as [[text|e] w1] eqn:Htr; [|done].
  cbn.
  destruct (write_text _ _ _ _) as [[[]|e] w2] eqn:Hwr; [|done].
  cbn. intros H. exists text, w1, w2.
  split; [done|]. split; [done|].
  destruct (move_audio cfg).
  - destruct (path_replace _ _) as [[[]|e] w3] eqn:Hrep; [|done].
    by injection H as <-.
  - injection H as <-. by cbn.
Qed.

Lemma write_text_Ok (txt text : str) (w w' : World) :
  write_text E txt text w = (Ok (), w') →
  w' = set_transcripts <[txt := new_file E w (utf8_encode text)]> w.
Proof.
  unfold write_text. destruct (transcripts w !! txt) as [[]|]; by intros [= <-].
Qed.

Lemma committed_grows (name : str) (w w' : World) :
  committed E cfg name w → grows w w' → committed E cfg name w'.
Proof.
  intros (d & txt & text & created & fd & Htxt & Hfd & before & after & Hled)
         ([extra Hl] & Ht & _).
  exists d, txt, text, created, fd. cbn zeta in *.
  split; [by eapply lookup_weaken|]. split; [done|].
  exists before, (after ++ extra). rewrite Hl, Hled.
  by rewrite <- !app_assoc.
Qed.

Lemma upload_and_commit_committed (name : str) (d : FileData)
    (txt_path : str) (l0 l : Loc) :
  upload_and_commit E cfg name (sha256_hex E (content d)) (date_stamp_for_filename E d)
    txt_path l0 = (Ok (), l) →
  committed E cfg name (world (run l))
  ∧ sha256_hex E (content d) ∈ done_hashes (run l).
Proof.
  intros H. apply upload_and_commit_Ok in H
    as (text & w1 & w2 & Htr & Hwr & Hmv & Hdone & _).
  split; [|rewrite Hdone; apply elem_of_union_r; by apply elem_of_singleton].
  apply write_text_Ok in Hwr. cbn zeta in Hmv.
  set (w3 := append_index_record _ _) in Hmv.
  assert (Hc : committed E cfg name w3).
  { eexists d, txt_path, text, _, _. cbn zeta. split; [|split].
    - subst w3 w2. cbn. apply lookup_insert_eq.
    - reflexivity.
    - exists (ledger w2), []. subst w3. unfold ledger. cbn.
      unfold append_text. by rewrite app_nil_r. }
  destruct (move_audio cfg); [|by rewrite Hmv].
  eapply committed_grows; [exact Hc|].
  pose proof (wframe_path_replace name w3) as Hw. rewrite Hmv in Hw.
  eapply wframe_grows; [exact Hw|]. by intros k ?%elem_of_nil.
Qed.

(** An item that was transcribed has its transcript and its ledger
    record in the world the step leaves, and its hash in the done-set. *)
Lemma process_item_Transcribed (name : str) (r r' : Run) :
  process_item E cfg name r = (Transcribed, r') →
  committed E cfg name (world r')
  ∧ ∃ d, candidate (world r) name d
         ∧ sha256_hex E (content d) ∈ done_hashes r'
         ∧ sha256_hex E (content d) ∉ done_hashes r.
Proof.
  intros H. apply process_item_inv in H
    as [([=] & _)|(d & Hc & [(e & _ & [=] & _)|(Hrd & H)])].
  cbn zeta in H. destruct H as [(_ & [=] & _)|(Hnd & res & l & Htry & H)].
  destruct res as [[]|e]; [|by destruct H].
  destruct H as [_ ->].
  unfold try_block in Htry. apply bind_Ok in Htry as ([] & l1 & _ & Hup).
  apply upload_and_commit_committed in Hup as [Hcom Hdone].
  destruct (finally_spec l) as (Hfin & _ & _ & _ & Hfd).
  split.
  - eapply committed_grows; [exact Hcom|].
    eapply wframe_grows; [exact Hfin|]. by intros k ?%elem_of_nil.
  - exists d. rewrite Hfd. done.
Qed.

End Item.

(** ** The substitute and its removal *)

Section Cleanup.

Variable E : Env.
Variable cfg : Config.

Lemma gate_step_inv (name : str) (d : FileData) (l l' : Loc) (res : result unit) :
  gate_step E cfg name d l = (res, l') →
  (¬ (st_size d > max_bytes cfg)%Z ∧ res = Ok () ∧ l' = l)
  ∨ ((st_size d > max_bytes cfg)%Z ∧
     ∃ gr w1,
       maybe_compress_if_too_large E name (max_bytes cfg) (world (run l)) = (gr, w1)
       ∧ match gr with
         | Ok p =>
             res = Ok ()
             ∧ l' = mkLoc (on_world (λ _, w1) (run l)) p (bool_decide (p ≠ name))
         | Raise e =>
             res = Raise e
             ∧ l' = mkLoc (on_world (λ _, w1) (run l))
                      (working_audio l) (created_temp l)
         end).
Proof.
  unfold gate_step. case_bool_decide as Hsz.
  - intros H. right. split; [done|].
    unfold bind, in_world, assign_working_audio, assign_created_temp in H.
    destruct (maybe_compress_if_too_large _ _ _ _) as [[p|e] w1]; cbn in H;
      injection H as <- <-; eexists _, w1; (split; [reflexivity|done]).
  - intros [= <- <-]. by left.
Qed.

(** When the gate returns for a file above the limit, it returns the
    derived path, and a file is there. *)
Lemma maybe_compress_Ok (name p : str) (d : FileData) (w w1 : World) :
  inbox w !! name = Some (File d) →
  (st_size d > max_bytes cfg)%Z →
  maybe_compress_if_too_large E name (max_bytes cfg) w = (Ok p, w1) →
  p = with_suffix name (lit ".compressed.m4a")
  ∧ ∃ f, inbox w1 !! p = Some (File f).
Proof.
  intros Hin Hsz. unfold maybe_compress_if_too_large. rewrite Hin.
  rewrite bool_decide_eq_false_2 by lia.
  set (compressed := with_suffix name (lit ".compressed.m4a")).
  destruct (if exists_ (inbox w) compressed then unlink compressed w
            else (Ok (), w)) as [[[]|e] w0]; [|done].
  unfold check_call_ffmpeg.
  destruct (inbox w0 !! name) as [[d0|]|]; [|done..].
  destruct (ffmpeg E (clock w0) (content d0)) as [out|[partial|]]; [|done..].
  intros [= <- <-]. split; [done|]. eexists. cbn. apply lookup_insert_eq.
Qed.

Lemma unlink_file_gone (p : str) (f : FileData) (w : World) :
  inbox w !! p = Some (File f) → inbox (unlink p w).2 !! p = None.
Proof. intros H. unfold unlink. rewrite H. cbn. apply lookup_delete_eq. Qed.

Lemma maybe_compress_partial (name : str) (d : FileData) (partial : bytes)
    (w : World) :
  inbox w !! name = Some (File d) →
  (st_size d > max_bytes cfg)%Z →
  inbox w !! with_suffix name (lit ".compressed.m4a") ≠ Some Dir →
  ffmpeg E (clock w) (content d) = FfmpegFailed (Some partial) →
  ∃ w1,
    maybe_compress_if_too_large E name (max_bytes cfg) w
    = (Raise (CalledProcessError
                (ffmpeg_cmd name (with_suffix name (lit ".compressed.m4a")))), w1)
    ∧ inbox w1 !! with_suffix name (lit ".compressed.m4a")
      = Some (File (mkFile partial (now_ts E (clock w)) true)).
Proof.
  intros Hin Hsz Hdir Hff. unfold maybe_compress_if_too_large. rewrite Hin.
  rewrite bool_decide_eq_false_2 by lia.
  pose proof (with_suffix_compressed_ne name) as Hne.
  set (compressed := with_suffix name (lit ".compressed.m4a")) in *.
  unfold exists_, unlink.
  destruct (inbox w !! compressed) as [[f|]|] eqn:Hc; [|done|].
  - unfold check_call_ffmpeg. cbn [inbox set_inbox emit clock].
    rewrite lookup_delete_ne by done. rewrite Hin, Hff.
    eexists. split; [reflexivity|]. cbn. by rewrite lookup_insert_eq.
  - unfold check_call_ffmpeg. rewrite Hin, Hff.
    eexists. split; [reflexivity|]. cbn. by rewrite lookup_insert_eq.
Qed.

End Cleanup.

(** C3, as the code has it.  Take a candidate above the upload limit
    that is not a duplicate.  If the size gate returns a substitute, the
    substitute is gone from the inbox when the step ends, whether the
    item was transcribed or failed afterwards.  If the gate raises (the
    transcoder failed, or a directory is in the way), the item fails and
    the inbox is left as the gate left it: nothing is deleted, so a
    partial file written by the failing transcoder stays.  When the
    transcoder fails after writing [partial], that file is at the derived
    path when the step ends. *)
Theorem substitute_removed_when_gate_returns (E : Env) (cfg : Config)
    (name : str) (d : FileData) (r : Run) (gr : result str) (w1 : World) :
  candidate (world r) name d →
  readable d = true →
  sha256_hex E (content d) ∉ done_hashes r →
  (st_size d > max_bytes cfg)%Z →
  maybe_compress_if_too_large E name (max_bytes cfg) (world r) = (gr, w1) →
  let o := (process_item E cfg name r).1 in
  let r' := (process_item E cfg name r).2 in
  match gr with
  | Ok p =>
      p = with_suffix name (lit ".compressed.m4a")
      ∧ is_Some (inbox w1 !! p)
      ∧ inbox (world r') !! p = None
      ∧ (o = Transcribed ∨ ∃ e, o = Failed e)
  | Raise e =>
      o = Failed e ∧ inbox (world r') = inbox w1
      ∧ ∀ partial,
          inbox (world r) !! with_suffix name (lit ".compressed.m4a") ≠ Some Dir →
          ffmpeg E (clock (world r)) (content d) = FfmpegFailed (Some partial) →
          e = CalledProcessError
                (ffmpeg_cmd name (with_suffix name (lit ".compressed.m4a")))
          ∧ inbox (world r') !! with_suffix name (lit ".compressed.m4a")
            = Some (File (mkFile partial (now_ts E (clock (world r))) true))
  end.
Proof.
  intros [Hin Hext] Hrd Hnd Hsz Hgate o r'. subst o r'.
  destruct (process_item E cfg name r) as [o r'] eqn:Hp. cbn [fst snd].
  apply process_item_inv in Hp
    as [(_ & _ & Hnc)|(d' & [Hin' _] & [(e & Hsha & _)|(_ & H)])].
  { exfalso. by apply (Hnc d). }
  { unfold sha256_file in Hsha. rewrite Hin, Hrd in Hsha. done. }
  assert (d' = d) as -> by congruence.
  cbn zeta in H. destruct H as [(Hdone & _)|(_ & res & l & Htry & H)]; [done|].
  unfold try_block in Htry.
  unfold bind in Htry.
  destruct (gate_step E cfg name d (mkLoc r name false)) as [gres l1] eqn:Hg.
  apply gate_step_inv in Hg as [(Hle & _)|(_ & gr' & w1' & Hgate' & Hg)]; [done|].
  cbn in Hgate'. rewrite Hgate in Hgate'. injection Hgate' as <- <-.
  destruct gr as [p|e].
  - destruct Hg as [-> ->].
    destruct (maybe_compress_Ok E cfg name p d _ _ Hin Hsz Hgate) as [Hp (f & Hf)].
    pose proof (with_suffix_compressed_ne name) as Hne. rewrite <- Hp in Hne.
    rewrite bool_decide_eq_true_2 in Htry by done.
    pose proof (upload_and_commit_lframe E cfg name _ _ _ _ _ _ Htry) as [[Hi _ _ _ _ _] _ _ _ _].
    pose proof (upload_and_commit_locals E cfg name _ _ _ _ _ _ Htry) as [Hwa Hct].
    cbn in Hi, Hwa, Hct.
    assert (Hpl : inbox (world (run l)) !! p = Some (File f)).
    { rewrite Hi; [done|]. by intros ->%list_elem_of_singleton. }
    split; [done|]. split; [by eexists|].
    destruct res as [[]|e]; destruct H as [-> ->].
    + split; [|by left]. unfold finally. rewrite Hct, Hwa. cbn.
      by eapply unlink_file_gone.
    + split; [|right; by eexists]. unfold finally. cbn [created_temp working_audio].
      rewrite Hct, Hwa. cbn. by eapply unlink_file_gone.
  - destruct Hg as [-> ->]. injection Htry as <- <-.
    destruct H as [-> ->]. split; [done|].
    match goal with
    | |- ?X = inbox w1 ∧ _ =>
        assert (Hsame : X = inbox w1) by (unfold finally; by cbn)
    end.
    split; [exact Hsame|]. intros partial Hdir Hff.
    destruct (maybe_compress_partial E cfg name d partial (world r) Hin Hsz Hdir Hff)
      as (w1' & Hgate' & Hpart).
    rewrite Hgate in Hgate'. injection Hgate' as He Hw.
    split; [done|]. rewrite Hsame, Hw. exact Hpart.
Qed.

(** A six-byte file, a limit of four bytes, and an ffmpeg that works:
    the substitute is created and is gone after the step. *)
Lemma substitute_removed_when_gate_returns_witness :
  inbox (world (process_item env_ok cfg_keep (lit "talk.wav") (start world_big)).2)
    !! lit "talk.compressed.m4a" = None.
Proof.
  pose proof (substitute_removed_when_gate_returns env_ok cfg_keep (lit "talk.wav")
                (mkFile (blit "abcdef") 0 true) (start world_big)
                (Ok (lit "talk.compressed.m4a"))
                (maybe_compress_if_too_large env_ok (lit "talk.wav") 4 world_big).2)
    as H.
  cbn zeta in H. destruct H as (_ & _ & Hgone & _).
  - split; [reflexivity|]. apply list_elem_of_In. vm_compute. tauto.
  - reflexivity.
  - apply not_elem_of_empty.
  - reflexivity.
  - vm_compute. reflexivity.
  - exact Hgone.
Defined.

(** C3 as stated fails when the transcoder fails after writing part of
    its output: the inbox had no entry at the derived path before the
    item was processed; the gate raises [CalledProcessError], the item is
    counted as failed, and the partial file is in the inbox when the step
    ends. *)
Lemma substitute_left_by_failed_transcoder :
  let step := process_item env_ffmpeg_fails cfg_keep (lit "talk.wav")
                (start world_big) in
  inbox world_big !! lit "talk.compressed.m4a" = None
  ∧ step.1 = Failed (CalledProcessError
                       (ffmpeg_cmd (lit "talk.wav") (lit "talk.compressed.m4a")))
  ∧ failed step.2 = 1%nat
  ∧ inbox (world step.2) !! lit "talk.compressed.m4a"
    = Some (File (mkFile (blit "a") 0 true)).
Proof. vm_compute. repeat split; reflexivity. Qed.

(** ** Relocation to the archive *)

Section Archive.

Variable E : Env.
Variable cfg : Config.

Lemma agree_off_nil (m m' : folder) : agree_off [] m m' → m' = m.
Proof. intros H. apply map_eq. intros k. apply H. by intros ?%elem_of_nil. Qed.

(** [os.replace] of a file onto a name that holds no directory. *)
Lemma path_replace_file (name : str) (d : FileData) (w : World) :
  inbox w !! name = Some (File d) →
  archive w !! name ≠ Some Dir →
  path_replace name w
  = (Ok (), emit (EvArchive name)
              (set_archive <[name := File d]> (set_inbox (delete name) w))).
Proof.
  intros Hin Hnd. unfold path_replace. rewrite Hin.
  by destruct (archive w !! name) as [[]|].
Qed.

Lemma path_replace_Ok (name : str) (d : FileData) (w w' : World) :
  inbox w !! name = Some (File d) →
  path_replace name w = (Ok (), w') →
  archive w' = <[name := File d]> (archive w) ∧ inbox w' = delete name (inbox w).
Proof.
  intros Hin. unfold path_replace. rewrite Hin.
  destruct (archive w !! name) as [[]|]; [|done|]; by intros [= <-].
Qed.

Lemma finally_keeps_archived (name : str) (l : Loc) :
  inbox (world (run l)) !! name = None →
  inbox (world (finally l)) !! name = None
  ∧ archive (world (finally l)) = archive (world (run l)).
Proof.
  intros Hn. destruct (finally_spec l) as ([_ _ Ha _ _ _] & _). split.
  - unfold finally. destruct (created_temp l); [|done]. cbn.
    unfold unlink. destruct (inbox (world (run l)) !! working_audio l) as [[]|];
      cbn; [|done..].
    rewrite lookup_delete. case_decide; done.
  - by apply agree_off_nil.
Qed.

(** The world just before the archive step of a successful item still has
    the item's file in the inbox, and the archive as it was. *)
Lemma before_archive_step (name : str) (d : FileData) (r : Run)
    (l0 : Loc) (text txt body : str) (w1 w2 : World) (record : list (str * str)) :
  inbox (world r) !! name = Some (File d) →
  lframe [with_suffix name (lit ".compressed.m4a")] [] [] (mkLoc r name false) l0 →
  transcribe_with_openai E (working_audio l0) (model cfg) (language cfg)
    (print (lit "Transcribing " ++ name) (world (run l0))) = (Ok text, w1) →
  write_text E txt body w1 = (Ok (), w2) →
  let w3 := append_index_record record (tick w2) in
  inbox w3 !! name = Some (File d) ∧ archive w3 = archive (world r).
Proof.
  intros Hin [[Hi _ Ha _ _ _] _ _ _ _] Htr Hwr w3. cbn in Hi, Ha.
  pose proof (wframe_transcribe E (working_audio l0) (model cfg) (language cfg)
                (print (lit "Transcribing " ++ name) (world (run l0))))
    as [Hi1 _ Ha1 _ _ _].
  rewrite Htr in Hi1, Ha1. cbn in Hi1, Ha1.
  apply (write_text_Ok E) in Hwr. subst w2 w3. cbn. split.
  - rewrite (agree_off_nil _ _ Hi1). rewrite (Hi name); [done|].
    intros Heq%list_elem_of_singleton.
    by apply (with_suffix_compressed_ne name).
  - rewrite (agree_off_nil _ _ Ha1). by apply agree_off_nil.
Qed.

Lemma process_item_archives (name : str) (d : FileData) (r : Run) :
  candidate (world r) name d →
  let o := (process_item E cfg name r).1 in
  let r' := (process_item E cfg name r).2 in
  (o = Skipped ∧ move_skipped cfg = true ∧ archive (world r) !! name ≠ Some Dir)
  ∨ (o = Transcribed ∧ move_audio cfg = true) →
  archive (world r') = <[name := File d]> (archive (world r))
  ∧ inbox (world r') !! name = None.
Proof.
  intros [Hin Hext] o r'. subst o r'.
  destruct (process_item E cfg name r) as [o r'] eqn:Hp. cbn [fst snd].
  intros Hcase.
  apply process_item_inv in Hp
    as [(-> & _)|(d' & [Hin' _] & [(e & _ & -> & _)|(_ & H)])].
  { by destruct Hcase as [[? _]|[? _]]. }
  { by destruct Hcase as [[? _]|[? _]]. }
  assert (d' = d) as -> by congruence.
  cbn zeta in H. destruct H as [(_ & -> & ->)|(_ & res & l & Htry & H)].
  - destruct Hcase as [(_ & -> & Hnd)|[? _]]; [|done]. cbn.
    rewrite (path_replace_file name d) by done. cbn.
    split; [done|apply lookup_delete_eq].
  - destruct res as [[]|e]; destruct H as [-> ->].
    2: { by destruct Hcase as [[? _]|[? _]]. }
    destruct Hcase as [[? _]|[_ Hmv]]; [done|].
    unfold try_block in Htry. apply bind_Ok in Htry as ([] & l0 & Hg & Hup).
    apply gate_step_lframe in Hg.
    apply upload_and_commit_Ok in Hup as (text & w1 & w2 & Htr & Hwr & Hrep & _).
    cbn zeta in Hrep. rewrite Hmv in Hrep.
    destruct (before_archive_step name d r l0 _ _ _ _ _
                (index_record cfg (sha256_hex E (content d)) name
                   (make_unique_txt_path (transcripts (world r))
                      (date_stamp_for_filename E d ++ [SP] ++ safe_stem (py_stem name)))
                   (date_stamp_for_filename E d) (now_iso E (clock w2)))
                Hin Hg Htr Hwr) as [Hin3 Ha3].
    destruct (path_replace_Ok name d _ _ Hin3 Hrep) as [Ha Hi].
    destruct (finally_keeps_archived name l) as [Hfi Hfa].
    { rewrite Hi. apply lookup_delete_eq. }
    split; [|done]. by rewrite Hfa, Ha, Ha3.
Qed.

End Archive.

(** C10.  An item that is relocated, as a duplicate (with
    [MOVE_SKIPPED_TO_ARCHIVE] on and no directory of its name in the
    archive) or after its transcription (with [MOVE_AUDIO_TO_ARCHIVE]
    on), ends up in the archive under its own file name, whatever file had
    that name there before, and is gone from the inbox.  So when two files
    of one name are archived in turn, the archive holds the later one
    under that name and is otherwise as it was: the first is replaced,
    no second name is made up. *)
Theorem archive_move_replaces :
  (∀ (E : Env) (cfg : Config) (name : str) (d : FileData) (r : Run),
     candidate (world r) name d →
     let o := (process_item E cfg name r).1 in
     let r' := (process_item E cfg name r).2 in
     (o = Skipped ∧ move_skipped cfg = true ∧ archive (world r) !! name ≠ Some Dir)
     ∨ (o = Transcribed ∧ move_audio cfg = true) →
     archive (world r') = <[name := File d]> (archive (world r))
     ∧ inbox (world r') !! name = None)
  ∧ (∀ (name : str) (d1 d2 : FileData) (w : World),
       archive w !! name ≠ Some Dir →
       let w1 := (path_replace name (set_inbox <[name := File d1]> w)).2 in
       let w2 := (path_replace name (set_inbox <[name := File d2]> w1)).2 in
       archive w1 = <[name := File d1]> (archive w)
       ∧ archive w2 = <[name := File d2]> (archive w)
       ∧ inbox w2 !! name = None).
Proof.
  split; [apply process_item_archives|].
  intros name d1 d2 w Hnd w1 w2. subst w2 w1.
  rewrite (path_replace_file name d1); [|apply lookup_insert_eq|done]. cbn.
  rewrite (path_replace_file name d2);
    [|apply lookup_insert_eq|cbn; by rewrite lookup_insert_eq]. cbn.
  split; [done|]. split; [apply insert_insert_eq|apply lookup_delete_eq].
Qed.

(** ** A whole run *)

Section Run.

Variable E : Env.
Variable cfg : Config.

Lemma run_items_cons (name : str) (rest : list str) (r : Run) :
  run_items E cfg (name :: rest) r
  = ((process_item E cfg name r).1
       :: (run_items E cfg rest (process_item E cfg name r).2).1,
     (run_items E cfg rest (process_item E cfg name r).2).2).
Proof.
  cbn [run_items]. destruct (process_item E cfg name r) as [o r1].
  cbn [fst snd]. by destruct (run_items E cfg rest r1).
Qed.

(** The loop over a list is the loop over its first part followed by the
    loop over the rest, started where the first part ended. *)
Lemma run_items_app (pre post : list str) (r : Run) :
  run_items E cfg (pre ++ post) r
  = ((run_items E cfg pre r).1
       ++ (run_items E cfg post (run_items E cfg pre r).2).1,
     (run_items E cfg post (run_items E cfg pre r).2).2).
Proof.
  revert r; induction pre as [|name pre IH]; intros r.
  - cbn. by destruct (run_items E cfg post r).
  - rewrite <- app_comm_cons, !run_items_cons, IH. reflexivity.
Qed.

(** Every entry of the listing gets its outcome. *)
Lemma run_items_length (names : list str) (r : Run) :
  length (run_items E cfg names r).1 = length names.
Proof.
  revert r; induction names as [|name rest IH]; intros r; [done|].
  rewrite run_items_cons. cbn. by rewrite IH.
Qed.

Lemma run_items_grows (names : list str) (r : Run) :
  grows (world r) (world (run_items E cfg names r).2).
Proof.
  revert r; induction names as [|name rest IH]; intros r; [apply grows_refl|].
  rewrite run_items_cons. cbn [snd].
  destruct (process_item E cfg name r) as [o r1] eqn:Hp.
  apply process_item_step in Hp as [Hg _].
  eapply grows_trans; [exact Hg|apply IH].
Qed.

(** The failure tally counts the failed outcomes. *)
Lemma run_items_failed (names : list str) (r : Run) :
  failed (run_items E cfg names r).2
  = (failed r + length (filter (λ o, is_failure o = true) (run_items E cfg names r).1))%nat.
Proof.
  revert r; induction names as [|name rest IH]; intros r; [cbn; lia|].
  rewrite run_items_cons. cbn [fst snd].
  destruct (process_item E cfg name r) as [o r1] eqn:Hp.
  apply process_item_step in Hp as (_ & Hf & _). cbn [fst snd].
  rewrite IH, Hf, filter_cons.
  destruct (is_failure o); case_decide; try done; cbn; lia.
Qed.

(** Every item that was transcribed has its transcript and its ledger
    record when the loop ends. *)
Lemma run_items_committed (names : list str) (r : Run) (j : nat) (name : str) :
  names !! j = Some name →
  (run_items E cfg names r).1 !! j = Some Transcribed →
  committed E cfg name (world (run_items E cfg names r).2).
Proof.
  revert r j; induction names as [|n rest IH]; intros r j; [done|].
  rewrite run_items_cons. cbn [fst snd].
  destruct j as [|j]; cbn.
  - intros [= ->] [= Ho].
    destruct (process_item E cfg name r) as [o r1] eqn:Hp. cbn in Ho. subst o.
    apply process_item_Transcribed in Hp as [Hc _].
    eapply committed_grows; [exact Hc|apply run_items_grows].
  - apply IH.
Qed.


End Run.

(** C4.  A run either stops before the loop, because the ledger cannot
    be read, or returns.  When it returns, the exit status is 0 exactly
    when no entry of the listing failed, and 1 as soon as one did;
    whatever the status, every item that was transcribed has its
    transcript and its ledger record in the final world, and nothing that
    was in the ledger, the transcript folder or the error log at any
    point of the run has been lost by the end. *)
Theorem exit_status_reflects_failures (E : Env) (cfg : Config) (w : World) :
  match main E cfg w with
  | Raise e => load_done_hashes (index_file w) = Raise e
  | Ok (status, r) =>
      ∃ done,
        load_done_hashes (index_file w) = Ok done
        ∧ let names := sorted_listing (inbox w) in
          let os := (run_items E cfg names (mkRun w done 0 0 0)).1 in
          (status = 0%Z ↔ ∀ o, o ∈ os → is_failure o = false)
          ∧ (status = 1%Z ↔ ∃ o, o ∈ os ∧ is_failure o = true)
          ∧ (∀ j name, names !! j = Some name → os !! j = Some Transcribed →
               committed E cfg name (world r))
          ∧ (∀ pre post, names = pre ++ post →
               grows (world (run_items E cfg pre (mkRun w done 0 0 0)).2)
                     (world r))
  end.
Proof.
  unfold main. destruct (load_done_hashes (index_file w)) as [seen|e]; [|done].
  cbn zeta.
  set (r0 := mkRun w seen 0 0 0). set (names := sorted_listing (inbox w)).
  destruct (run_items E cfg names r0) as [os r1] eqn:Hrun.
  exists seen. split; [done|]. cbn zeta. fold r0 names. rewrite Hrun. cbn [fst snd].
  pose proof (run_items_failed E cfg names r0) as Hf.
  rewrite Hrun in Hf. cbn [fst snd] in Hf. cbn in Hf.
  assert (Hzero : failed r1 = 0%nat ↔ ∀ o, o ∈ os → is_failure o = false).
  { rewrite Hf. split.
    - intros Hl o Ho. destruct (is_failure o) eqn:Hio; [|done].
      assert (Hin : o ∈ filter (λ o, is_failure o = true) os)
        by (by apply list_elem_of_filter).
      destruct (filter _ os); [by apply elem_of_nil in Hin|discriminate].
    - intros Hall.
      destruct (filter (λ o, is_failure o = true) os) as [|o l] eqn:Hfl; [done|].
      assert (Hin : o ∈ filter (λ o, is_failure o = true) os)
        by (rewrite Hfl; constructor).
      apply list_elem_of_filter in Hin as [Hio Ho].
      rewrite (Hall o Ho) in Hio. done. }
  split; [|split; [|split]].
  - cbn. case_bool_decide as Hb; cbn in Hb.
    + split; [intros _; exact (proj1 Hzero Hb)|done].
    + split; [done|]. intros Hall. exfalso. by apply Hb, Hzero.
  - cbn. case_bool_decide as Hb; cbn in Hb.
    + split; [done|]. intros (o & Ho & Hio).
      rewrite (proj1 Hzero Hb o Ho) in Hio. done.
    + split; [|done]. intros _. rewrite Hf in Hb.
      destruct (filter (λ o, is_failure o = true) os) as [|o l] eqn:Hfl; [done|].
      assert (Hin : o ∈ filter (λ o, is_failure o = true) os)
        by (rewrite Hfl; constructor).
      apply list_elem_of_filter in Hin as [Hio Ho]. by exists o.
  - intros j name Hj Ho. cbn.
    pose proof (run_items_committed E cfg names r0 j name Hj) as Hc.
    rewrite Hrun in Hc. by apply Hc.
  - intros pre post Hnames. cbn.
    pose proof (run_items_app E cfg pre post r0) as Happ.
    rewrite <- Hnames, Hrun in Happ. injection Happ as _ ->.
    apply run_items_grows.
Qed.

(** ** A record written to the ledger is read back *)

Section Utf8.

Local Ltac dlia := zify; Z.to_euclidean_division_equations; lia.

Lemma byte_of_N_to_N (n : N) : n < 256 → Byte.to_N (byte_of_N n) = n.
Proof.
  intros Hn. unfold byte_of_N. rewrite N.mod_small by done.
  destruct (Byte.of_N n) as [b|] eqn:Hb; cbn.
  - by apply Byte.to_of_N.
  - apply Byte.of_N_None_iff in Hb. lia.
Qed.

Local Ltac dbool :=
  repeat first
    [ rewrite (proj2 (N.ltb_lt _ _)) by dlia
    | rewrite (proj2 (N.ltb_ge _ _)) by dlia
    | rewrite (proj2 (N.leb_le _ _)) by dlia
    | rewrite (proj2 (N.leb_gt _ _)) by dlia
    | rewrite (proj2 (N.eqb_eq _ _)) by dlia
    | rewrite (proj2 (N.eqb_neq _ _)) by dlia ];
  cbn [andb orb negb].

Local Ltac same_char :=
  try (exfalso; dlia);
  match goal with
  | |- cons ?x <$> _ = cons ?c <$> _ => replace x with c by dlia; reflexivity
  end.

Lemma utf8_decode_encode_char (c : N) (rest : bytes) :
  scalar c →
  utf8_decode (utf8_encode_char c ++ rest) = cons c <$> utf8_decode rest.
Proof.
  intros Hc. unfold utf8_encode_char.
  assert (Hmax : c < 0x110000) by (destruct Hc; lia).
  destruct (N.ltb_spec c 0x80) as [H1|H1].
  { cbn [app utf8_decode]. rewrite byte_of_N_to_N by dlia. dbool. done. }
  destruct (N.ltb_spec c 0x800) as [H2|H2].
  { cbn [app utf8_decode]. unfold cont, cont_in.
    rewrite !byte_of_N_to_N by dlia. dbool. cbn. same_char. }
  destruct (N.ltb_spec c 0x10000) as [H3|H3].
  { cbn [app utf8_decode]. unfold cont, cont_in.
    rewrite !byte_of_N_to_N by dlia. dbool.
    destruct Hc as [Hc|Hc].
    - destruct (N.eqb_spec (224 + c / 4096) 224) as [He|He];
      destruct (N.eqb_spec (224 + c / 4096) 237) as [Hd|Hd];
        dbool; cbn; same_char.
    - destruct (N.eqb_spec (224 + c / 4096) 224) as [He|He];
      destruct (N.eqb_spec (224 + c / 4096) 237) as [Hd|Hd];
        dbool; cbn; same_char. }
  cbn [app utf8_decode]. unfold cont, cont_in.
  rewrite !byte_of_N_to_N by dlia. dbool.
  destruct (N.eqb_spec (240 + c / 262144) 240) as [He|He];
  destruct (N.eqb_spec (240 + c / 262144) 244) as [Hd|Hd];
    dbool; cbn; same_char.
Qed.

Lemma utf8_decode_encode (s : str) :
  Forall scalar s → utf8_decode (utf8_encode s) = Some s.
Proof.
  induction 1 as [|c s Hc _ IH]; [done|].
  change (utf8_encode (c :: s)) with (utf8_encode_char c ++ utf8_encode s).
  by rewrite utf8_decode_encode_char, IH.
Qed.

End Utf8.

Section Utf8App.

Local Ltac tail_step IH b2 :=
  match goal with
  | |- cons _ <$> utf8_decode ?r = Some _ → _ =>
      let s := fresh "s" in let Hr := fresh "Hr" in
      destruct (utf8_decode r) as [s|] eqn:Hr; [|done];
      intros [= <-]; cbn;
      rewrite (IH (length r) ltac:(cbn in *; lia) r s eq_refl Hr);
      by destruct (utf8_decode b2)
  end.

Lemma utf8_decode_app (b1 b2 : bytes) (s1 : str) :
  utf8_decode b1 = Some s1 →
  utf8_decode (b1 ++ b2) = app s1 <$> utf8_decode b2.
Proof.
  remember (length b1) as n eqn:Hn. revert b1 s1 Hn.
  induction n as [n IH] using lt_wf_ind. intros b1 s1 Hn.
  destruct b1 as [|b0 r0].
  { intros [= <-]. cbn. by destruct (utf8_decode b2). }
  cbn [utf8_decode app]. cbn in Hn.
  destruct (Byte.to_N b0 <? 128).
  { tail_step IH b2. }
  destruct ((194 <=? Byte.to_N b0) && (Byte.to_N b0 <=? 223)).
  { destruct r0 as [|b1 r1]; [done|]. cbn [app].
    destruct (cont b1) as [c1|]; cbn; [|done]. tail_step IH b2. }
  destruct ((224 <=? Byte.to_N b0) && (Byte.to_N b0 <=? 239)).
  { destruct r0 as [|b1 [|b2' r2]]; [done..|]. cbn [app].
    destruct (cont_in _ _ b1) as [c1|]; cbn; [|done].
    destruct (cont b2') as [c2|]; cbn; [|done]. tail_step IH b2. }
  destruct ((240 <=? Byte.to_N b0) && (Byte.to_N b0 <=? 244)); [|done].
  destruct r0 as [|b1 [|b2' [|b3 r3]]]; [done..|]. cbn [app].
  destruct (cont_in _ _ b1) as [c1|]; cbn; [|done].
  destruct (cont b2') as [c2|]; cbn; [|done].
  destruct (cont b3) as [c3|]; cbn; [|done]. tail_step IH b2.
Qed.

End Utf8App.

Section Lines.

Lemma universal_newlines_no_cr (s : str) :
  CR ∉ s → universal_newlines s = s.
Proof.
  induction s as [|c r IH]; [done|]. intros Hc. cbn [universal_newlines].
  destruct (N.eqb_spec c CR) as [->|_].
  - exfalso. apply Hc. constructor.
  - rewrite IH; [done|]. intros ?. apply Hc. by constructor.
Qed.

Lemma universal_newlines_app_LF (t s : str) :
  universal_newlines (t ++ LF :: s)
  = universal_newlines (t ++ [LF]) ++ universal_newlines s.
Proof.
  remember (length t) as n eqn:Hn. revert t Hn.
  induction n as [n IH] using lt_wf_ind. intros t Hn.
  destruct t as [|c r]; [done|]. cbn in Hn.
  cbn [app universal_newlines].
  destruct (c =? CR).
  - destruct r as [|c' r']; [done|]. cbn [app]. cbn in Hn.
    destruct (c' =? LF).
    + rewrite (IH (length r')) by (done || lia). done.
    + pose proof (IH (length (c' :: r')) ltac:(cbn; lia) (c' :: r') eq_refl) as H.
      cbn [app] in H. by rewrite H.
  - rewrite (IH (length r)) by (done || lia). done.
Qed.

Lemma universal_newlines_ends_LF (t : str) :
  ∃ u, universal_newlines (t ++ [LF]) = u ++ [LF].
Proof.
  remember (length t) as n eqn:Hn. revert t Hn.
  induction n as [n IH] using lt_wf_ind. intros t Hn.
  destruct t as [|c r]; [by exists []|]. cbn in Hn.
  cbn [app universal_newlines].
  destruct (c =? CR).
  - destruct r as [|c' r']; [by exists []|]. cbn [app]. cbn in Hn.
    destruct (c' =? LF).
    + destruct (IH (length r') ltac:(lia) r' eq_refl) as [u ->]. by exists (LF :: u).
    + destruct (IH (length (c' :: r')) ltac:(cbn; lia) (c' :: r') eq_refl) as [u Hu].
      cbn [app] in Hu. rewrite Hu. by exists (LF :: u).
  - destruct (IH (length r) ltac:(lia) r eq_refl) as [u ->]. by exists (c :: u).
Qed.

Lemma splitlines_aux_app_LF (u v cur : str) :
  splitlines_aux cur (u ++ LF :: v)
  = splitlines_aux cur (u ++ [LF]) ++ splitlines_aux [] v.
Proof.
  remember (length u) as n eqn:Hn. revert u cur Hn.
  induction n as [n IH] using lt_wf_ind. intros u cur Hn.
  destruct u as [|c r]; [done|]. cbn in Hn.
  cbn [app splitlines_aux].
  destruct (c =? CR).
  - destruct r as [|c' r']; [done|]. cbn [app]. cbn in Hn.
    destruct (c' =? LF).
    + rewrite (IH (length r')) by (done || lia). done.
    + pose proof (IH (length (c' :: r')) ltac:(cbn; lia) (c' :: r') [] eq_refl) as H.
      cbn [app] in H. by rewrite H.
  - destruct (is_linebreak c).
    + rewrite (IH (length r)) by (done || lia). done.
    + rewrite (IH (length r)) by (done || lia). done.
Qed.

Lemma splitlines_aux_line (line cur : str) :
  Forall (λ c, is_linebreak c = false) line →
  splitlines_aux cur (line ++ [LF]) = [reverse cur ++ line].
Proof.
  intros Hl. revert cur. induction Hl as [|c r Hc _ IH]; intros cur.
  - cbn. by rewrite app_nil_r.
  - cbn [app splitlines_aux].
    destruct (N.eqb_spec c CR) as [->|_]; [by vm_compute in Hc|]. rewrite Hc.
    rewrite IH, reverse_cons, <- app_assoc. done.
Qed.

(** A line without line boundaries, appended with its newline to a text
    that is empty or ends in a newline, is one more line. *)
Lemma splitlines_append_line (u line : str) :
  u = [] ∨ (∃ u', u = u' ++ [LF]) →
  Forall (λ c, is_linebreak c = false) line →
  splitlines (u ++ line ++ [LF]) = splitlines u ++ [line].
Proof.
  intros Hu Hl. unfold splitlines. destruct Hu as [->|[u' ->]].
  - cbn [app]. by rewrite splitlines_aux_line.
  - rewrite <- app_assoc. cbn [app].
    rewrite splitlines_aux_app_LF. rewrite (splitlines_aux_line line) by done.
    reflexivity.
Qed.

End Lines.

Section JsonRoundTrip.

Local Ltac nbool :=
  repeat first
    [ rewrite (proj2 (N.ltb_lt _ _)) by lia
    | rewrite (proj2 (N.ltb_ge _ _)) by lia
    | rewrite (proj2 (N.leb_le _ _)) by lia
    | rewrite (proj2 (N.leb_gt _ _)) by lia
    | rewrite (proj2 (N.eqb_eq _ _)) by lia
    | rewrite (proj2 (N.eqb_neq _ _)) by lia ];
  cbn [andb orb negb].

(** The decoder reads back one escaped character. *)
Lemma scanstring_escape_char (c : N) (tl acc : str) :
  scanstring (json_escape_char c ++ tl) acc = scanstring tl (c :: acc).
Proof.
  unfold json_escape_char.
  destruct (N.eqb_spec c 34) as [->|H34]; [reflexivity|].
  destruct (N.eqb_spec c 92) as [->|H92]; [reflexivity|].
  destruct (N.eqb_spec c 10) as [->|H10]; [reflexivity|].
  destruct (N.eqb_spec c 13) as [->|H13]; [reflexivity|].
  destruct (N.eqb_spec c 9) as [->|H9]; [reflexivity|].
  destruct (N.eqb_spec c 8) as [->|H8]; [reflexivity|].
  destruct (N.eqb_spec c 12) as [->|H12]; [reflexivity|].
  destruct (N.ltb_spec c 32) as [Hlt|Hge].
  - clear H34 H92 H10 H13 H9 H8 H12.
    destruct c as [|p]; [reflexivity|].
    repeat match goal with
           | p : positive |- _ => destruct p as [p|p|]; try (exfalso; lia)
           end; reflexivity.
  - cbn [app scanstring]. unfold QUOTE, BACKSLASH. nbool. reflexivity.
Qed.

Lemma scanstring_escape (s rest acc : str) :
  scanstring ((s ≫= json_escape_char) ++ QUOTE :: rest) acc
  = Some (reverse acc ++ s, rest).
Proof.
  revert acc; induction s as [|c s IH]; intros acc.
  - cbn. by rewrite app_nil_r.
  - change ((c :: s) ≫= json_escape_char)
      with (json_escape_char c ++ (s ≫= json_escape_char)).
    rewrite <- app_assoc, scanstring_escape_char, IH, reverse_cons, <- app_assoc.
    reflexivity.
Qed.

End JsonRoundTrip.

Section JsonObject.

Lemma py_join_cons (sep x : str) (xs : list str) :
  py_join sep (x :: xs) = x ++ mjoin ((λ y, sep ++ y) <$> xs).
Proof.
  revert x; induction xs as [|y ys IH]; intros x.
  - cbn. by rewrite app_nil_r.
  - change (py_join sep (x :: y :: ys)) with (x ++ sep ++ py_join sep (y :: ys)).
    rewrite IH. cbn. by rewrite <- !app_assoc.
Qed.

Lemma more_fields_join (kvs : list (str * str)) :
  mjoin ((λ y, lit ", " ++ y)
           <$> ((λ kv, json_dumps_str kv.1 ++ lit ": " ++ json_dumps_str kv.2)
                  <$> kvs))
  = more_fields kvs.
Proof.
  induction kvs as [|kv kvs IH]; [done|].
  rewrite !fmap_cons. change (mjoin (?x :: ?l)) with (x ++ mjoin l).
  cbn [more_fields]. rewrite IH.
  change (lit ": ") with [58; 32]. change (lit ", ") with [44; 32].
  unfold json_dumps_str. rewrite <- !app_assoc. reflexivity.
Qed.

Lemma json_dumps_shape (k v : str) (kvs : list (str * str)) :
  json_dumps ((k, v) :: kvs)
  = [123; QUOTE] ++ (k ≫= json_escape_char) ++ [QUOTE; 58; 32; QUOTE]
    ++ (v ≫= json_escape_char) ++ [QUOTE] ++ more_fields kvs ++ [125].
Proof.
  unfold json_dumps. rewrite fmap_cons, py_join_cons, more_fields_join.
  change (lit "{") with [123]. change (lit "}") with [125].
  change (lit ": ") with [58; 32].
  unfold json_dumps_str. cbn [fst snd].
  rewrite <- !app_assoc. reflexivity.
Qed.

Lemma more_fields_cons (kv : str * str) (kvs : list (str * str)) (tl : str) :
  more_fields (kv :: kvs) ++ tl
  = 44 :: 32 :: QUOTE :: (kv.1 ≫= json_escape_char)
    ++ QUOTE :: 58 :: 32 :: QUOTE :: (kv.2 ≫= json_escape_char)
    ++ QUOTE :: more_fields kvs ++ tl.
Proof. cbn [more_fields]. rewrite <- !app_assoc. reflexivity. Qed.

Lemma scan_once_string (fuel : nat) (s rest : str) :
  (1 ≤ fuel)%nat →
  scan_once fuel (QUOTE :: (s ≫= json_escape_char) ++ QUOTE :: rest)
  = Some (JStr s, rest).
Proof.
  intros Hf. destruct fuel as [|f]; [lia|].
  cbn [scan_once]. cbn -[scanstring]. by rewrite scanstring_escape.
Qed.

Lemma object_members_fields (kvs : list (str * str)) (k v : str)
    (acc : list (str * json)) (fuel : nat) (rest : str) :
  (length kvs + 2 ≤ fuel)%nat →
  object_members fuel
    ((k ≫= json_escape_char) ++ [QUOTE; 58; 32; QUOTE]
     ++ (v ≫= json_escape_char) ++ [QUOTE] ++ more_fields kvs ++ 125 :: rest) acc
  = Some (JObj (reverse acc ++ (k, JStr v) :: decoded_fields kvs), rest).
Proof.
  revert k v acc fuel; induction kvs as [|kv kvs IH]; intros k v acc fuel Hf.
  - destruct fuel as [|f]; [cbn in Hf; lia|].
    cbn [object_members]. cbn [app]. rewrite scanstring_escape, reverse_nil.
    cbn -[scanstring scan_once object_members reverse].
    rewrite scan_once_string by (cbn in Hf; lia).
    cbn -[reverse]. by rewrite reverse_cons.
  - destruct fuel as [|f]; [cbn in Hf; lia|].
    cbn [object_members]. cbn [app]. rewrite scanstring_escape, reverse_nil.
    cbn -[scanstring scan_once object_members reverse more_fields].
    rewrite scan_once_string by (cbn in Hf; lia).
    rewrite more_fields_cons.
    cbn -[scanstring scan_once object_members reverse more_fields].
    specialize (IH kv.1 kv.2 ((k, JStr v) :: acc) f ltac:(cbn in Hf |- *; lia)).
    cbn [app] in IH.
    rewrite IH. rewrite reverse_cons, <- app_assoc.
    by destruct kv.
Qed.

End JsonObject.

Section JsonLine.

Lemma more_fields_length (kvs : list (str * str)) :
  (length kvs ≤ length (more_fields kvs))%nat.
Proof.
  induction kvs as [|kv kvs IH]; [done|].
  cbn [more_fields]. rewrite !length_app. cbn [length]. lia.
Qed.

Lemma scan_once_dumps (k v : str) (kvs : list (str * str)) (fuel : nat) :
  (length kvs + 4 ≤ fuel)%nat →
  scan_once fuel (json_dumps ((k, v) :: kvs))
  = Some (JObj (decoded_fields ((k, v) :: kvs)), []).
Proof.
  intros Hf. rewrite json_dumps_shape.
  destruct fuel as [|[|f]]; [lia..|]. cbn [app scan_once].
  change (123 =? QUOTE) with false. change (123 =? 123) with true. cbv iota.
  cbn [JSONObject]. change (skip_ws (QUOTE :: ?r)) with (QUOTE :: r).
  cbv iota. change (QUOTE =? 125) with false.
  change (QUOTE =? QUOTE) with true. cbv iota.
  pose proof (object_members_fields kvs k v [] f [] ltac:(lia)) as H.
  cbn [app] in H. rewrite H. reflexivity.
Qed.

(** The decoder reads an encoded record back. *)
Lemma json_loads_dumps (k v : str) (kvs : list (str * str)) :
  json_loads (json_dumps ((k, v) :: kvs))
  = Some (JObj (decoded_fields ((k, v) :: kvs))).
Proof.
  unfold json_loads.
  assert (∃ r, json_dumps ((k, v) :: kvs) = 123 :: r
                    ∧ (length kvs + 1 ≤ length r)%nat) as (r & Hr & Hlen).
  { rewrite json_dumps_shape. cbn [app]. eexists. split; [done|].
    pose proof (more_fields_length kvs).
    cbn [length]. rewrite !length_app. cbn [length]. rewrite !length_app.
    cbn [length]. rewrite !length_app. lia. }
  rewrite Hr. change (123 =? BOM) with false. cbv iota.
  change (skip_ws (123 :: r)) with (123 :: r). rewrite <- Hr.
  rewrite scan_once_dumps; [done|]. rewrite Hr. cbn [length]. lia.
Qed.

Lemma lstrip_not_space (c : N) (s : str) :
  is_space c = false → lstrip (c :: s) = c :: s.
Proof. intros H. cbn. by rewrite H. Qed.

Lemma strip_braces (mid : str) : strip (123 :: mid ++ [125]) = 123 :: mid ++ [125].
Proof.
  unfold strip, rstrip. rewrite lstrip_not_space by done.
  change (123 :: mid ++ [125]) with ((123 :: mid) ++ [125]).
  rewrite reverse_app. change (reverse [125]) with [125]. cbn [app].
  rewrite lstrip_not_space by done.
  rewrite reverse_cons, reverse_involutive. done.
Qed.

Lemma strip_dumps (rec : list (str * str)) : strip (json_dumps rec) = json_dumps rec.
Proof.
  unfold json_dumps. change (lit "{") with [123]. change (lit "}") with [125].
  cbn [app]. apply strip_braces.
Qed.

Lemma dict_get_first (key : str) (v : json) (pairs : list (str * json)) (dflt : json) :
  key ∉ pairs.*1 → dict_get ((key, v) :: pairs) key dflt = v.
Proof.
  intros Hk. unfold dict_get. rewrite reverse_cons.
  destruct (list_find _ (reverse pairs ++ [(key, v)])) as [[i kv]|] eqn:Hf.
  - apply list_find_Some in Hf as (Hl & Hkv & _).
    apply lookup_app_Some in Hl as [Hl|[_ Hl]].
    + exfalso. apply Hk. apply list_elem_of_fmap. exists kv. split; [done|].
      apply elem_of_reverse. by eapply list_elem_of_lookup_2.
    + apply list_lookup_singleton_Some in Hl as [_ <-]. done.
  - apply list_find_None in Hf. rewrite Forall_app in Hf. destruct Hf as [_ Hf].
    rewrite Forall_singleton in Hf. exfalso. by apply Hf.
Qed.

(** The loop body of the load on the line of a record. *)
Lemma done_step_record (seen : gset str) (c : N) (h : str) (rest : list (str * str)) :
  lit "sha256" ∉ rest.*1 →
  done_step seen (json_dumps ((lit "sha256", c :: h) :: rest)) = seen ∪ {[c :: h]}.
Proof.
  intros Hk. unfold done_step. rewrite strip_dumps, json_loads_dumps.
  destruct (json_dumps _) as [|c0 l0] eqn:Hd.
  { rewrite json_dumps_shape in Hd. done. }
  unfold decoded_fields. rewrite fmap_cons. cbn [fst snd].
  rewrite dict_get_first; [done|].
  rewrite <- list_fmap_compose. intros Hin. apply Hk.
  apply list_elem_of_fmap in Hin as (kv & -> & Hin).
  apply list_elem_of_fmap. by exists kv.
Qed.

End JsonLine.

Section Appended.

Local Ltac each :=
  repeat match goal with
         | |- Forall _ (_ :: _) => constructor
         | |- Forall _ [] => constructor
         end.

Lemma line_char_small (c : N) :
  32 ≤ c → c < 127 → line_char c.
Proof.
  intros H1 H2. split; [left; lia|]. unfold is_linebreak.
  rewrite (proj2 (N.leb_gt c 13)), (proj2 (N.leb_gt c 30)) by lia.
  rewrite (proj2 (N.eqb_neq c 0x85)), (proj2 (N.eqb_neq c 0x2028)),
    (proj2 (N.eqb_neq c 0x2029)) by lia.
  by rewrite !andb_false_r.
Qed.

Lemma plain_line_char (c : N) : plain_char c = true → 32 ≤ c → line_char c.
Proof.
  unfold plain_char, line_char, scalar, is_linebreak. intros H Hc.
  apply andb_prop in H as [Hs Hl]. apply negb_true_iff in Hl.
  split.
  - apply orb_prop in Hs as [Hs|Hs]; [left; by apply N.ltb_lt|right].
    apply andb_prop in Hs as [? ?]. split; [by apply N.leb_le|by apply N.ltb_lt].
  - apply orb_false_iff in Hl as [Hl ?]. apply orb_false_iff in Hl as [? ?].
    rewrite (proj2 (N.leb_gt c 13)) by lia.
    rewrite (proj2 (N.leb_gt c 30)) by lia.
    rewrite !andb_false_r. cbn. by repeat (apply orb_false_iff; split).
Qed.

Lemma hexdigit_line_char (n : N) : n < 16 → line_char (hexdigit n).
Proof.
  intros Hn. unfold hexdigit. destruct (N.ltb_spec n 10); apply line_char_small; lia.
Qed.

Lemma json_escape_line_char (c : N) :
  plain_char c = true → Forall line_char (json_escape_char c).
Proof.
  intros Hc. unfold json_escape_char.
  repeat match goal with
         | |- context [if ?a =? ?b then _ else _] =>
             destruct (N.eqb_spec a b) as [?|?];
               [each; apply line_char_small; unfold BACKSLASH; lia|]
         end.
  destruct (N.ltb_spec c 32) as [Hlt|Hge].
  - each; try (apply line_char_small; unfold BACKSLASH; lia).
    + apply hexdigit_line_char. apply N.Div0.div_lt_upper_bound. lia.
    + apply hexdigit_line_char. by apply N.mod_lt.
  - each. by apply plain_line_char.
Qed.

Lemma escaped_line_chars (s : str) :
  plain s → Forall line_char (s ≫= json_escape_char).
Proof.
  intros Hs. apply Forall_bind. eapply Forall_impl; [exact Hs|].
  intros c Hc. by apply json_escape_line_char.
Qed.

Lemma more_fields_line_chars (kvs : list (str * str)) :
  plain_record kvs → Forall line_char (more_fields kvs).
Proof.
  induction 1 as [|kv kvs [Hk Hv] _ IH]; [constructor|].
  cbn [more_fields]. rewrite !Forall_app. repeat split;
    try (by apply escaped_line_chars); try done;
    each; by apply line_char_small.
Qed.

Lemma json_dumps_line_chars (k v : str) (kvs : list (str * str)) :
  plain_record ((k, v) :: kvs) → Forall line_char (json_dumps ((k, v) :: kvs)).
Proof.
  intros H. apply Forall_cons in H as [[Hk Hv] Hkvs]. cbn [fst snd] in *.
  rewrite json_dumps_shape, !Forall_app. repeat split;
    try (by apply escaped_line_chars); try (by apply more_fields_line_chars);
    each; by apply line_char_small.
Qed.

Lemma ledger_whole_text (index : option bytes) :
  ledger_whole index →
  ∃ s, utf8_decode (default [] index) = Some s
       ∧ (s = [] ∨ ∃ s', s = s' ++ [LF])
       ∧ load_done_hashes index
         = Ok (foldl done_step ∅ (splitlines (universal_newlines s))).
Proof.
  destruct index as [b|]; cbn [ledger_whole].
  - change (default [] (Some b)) with b. unfold load_done_hashes, read_text.
    destruct (utf8_decode b) as [s|]; [|done]. intros Hs. exists s.
    split; [done|]. split; [|done].
    destruct Hs as [Hs|Hs]; [by left|right]. by apply last_Some.
  - intros _. exists []. split; [done|]. split; [by left|done].
Qed.

(** A record appended to a whole ledger is one more line of it, and the
    next load finds its hash. *)
Lemma appended_record_is_loaded (index : option bytes) (seen : gset str)
    (c : N) (h : str) (rest : list (str * str)) :
  let rec := (lit "sha256", c :: h) :: rest in
  let index' := Some (append_text (json_dumps rec ++ [LF]) (default [] index)) in
  ledger_whole index →
  load_done_hashes index = Ok seen →
  plain_record rec →
  lit "sha256" ∉ rest.*1 →
  ledger_whole index' ∧ load_done_hashes index' = Ok (seen ∪ {[c :: h]}).
Proof.
  intros rec index' Hw Hload Hrec Hkey.
  destruct (ledger_whole_text index Hw) as (s & Hs & Hend & Hl).
  rewrite Hl in Hload. injection Hload as Hseen.
  pose proof (json_dumps_line_chars _ _ _ Hrec) as Hline. fold rec in Hline.
  assert (Hdec : utf8_decode (append_text (json_dumps rec ++ [LF]) (default [] index))
                 = Some (s ++ json_dumps rec ++ [LF])).
  { unfold append_text. rewrite (utf8_decode_app _ _ s Hs).
    rewrite utf8_decode_encode; [done|].
    apply Forall_app. split.
    - eapply Forall_impl; [exact Hline|]. by intros ? [? _].
    - each. left. unfold LF. lia. }
  assert (Hnl : Forall (λ x, is_linebreak x = false) (json_dumps rec)).
  { eapply Forall_impl; [exact Hline|]. by intros ? [_ ?]. }
  assert (Hcr : CR ∉ json_dumps rec ++ [LF]).
  { intros Hin. apply elem_of_app in Hin as [Hin|Hin].
    - rewrite Forall_forall in Hnl. by apply Hnl in Hin.
    - by apply list_elem_of_singleton in Hin. }
  subst index'. split.
  - cbn [ledger_whole]. rewrite Hdec. right.
    rewrite app_assoc. apply last_snoc.
  - unfold load_done_hashes, read_text. rewrite Hdec.
    f_equal. rewrite <- Hseen.
    assert (∃ u, universal_newlines (s ++ json_dumps rec ++ [LF])
                      = u ++ json_dumps rec ++ [LF]
                      ∧ u = universal_newlines s
                      ∧ (u = [] ∨ ∃ u', u = u' ++ [LF])) as (u & -> & -> & Hu').
    { destruct Hend as [->|[s' ->]].
      - exists []. cbn [app]. rewrite universal_newlines_no_cr by done.
        repeat split. by left.
      - rewrite <- app_assoc. cbn [app].
        rewrite universal_newlines_app_LF.
        rewrite (universal_newlines_no_cr (json_dumps rec ++ [LF])) by done.
        eexists. split; [done|]. split; [done|]. right.
        apply universal_newlines_ends_LF. }
    rewrite splitlines_append_line by done.
    rewrite foldl_app. cbn [foldl]. by apply done_step_record.
Qed.

End Appended.

(** ** The ledger and the seen-set stay in step *)

Section PlainNames.

Lemma plain_app (a b : str) : plain a → plain b → plain (a ++ b).
Proof. intros. by apply Forall_app. Qed.

Lemma plain_lit_txt : plain (lit ".txt").
Proof. by apply (bool_decide_unpack _). Qed.

Lemma plain_uint_digits (d : Decimal.uint) : plain (uint_digits d).
Proof. induction d; cbn [uint_digits]; by constructor. Qed.

Lemma plain_numbered (base_name : str) (i : N) :
  plain base_name → plain (numbered base_name i).
Proof.
  intros Hb. unfold numbered. repeat apply plain_app; try done.
  - by constructor.
  - apply plain_uint_digits.
  - apply plain_lit_txt.
Qed.

Lemma plain_probe (fo : folder) (base_name : str) (fuel : nat) (i : N) :
  plain base_name → plain (probe fo base_name fuel i).
Proof.
  intros Hb. revert i. induction fuel as [|f IH]; intros i; cbn [probe].
  - by apply plain_numbered.
  - destruct (negb _); [by apply plain_numbered|apply IH].
Qed.

Lemma plain_make_unique_txt_path (fo : folder) (base_name : str) :
  plain base_name → plain (make_unique_txt_path fo base_name).
Proof.
  intros Hb. unfold make_unique_txt_path. destruct (negb _).
  - apply plain_app; [done|apply plain_lit_txt].
  - by apply plain_probe.
Qed.

Lemma plain_py_stem (name : str) : plain name → plain (py_stem name).
Proof.
  intros Hn. unfold py_stem. destruct (suffix_start name); [|done].
  by apply Forall_take.
Qed.

Lemma plain_safe_stem (s : str) : plain s → plain (safe_stem s).
Proof.
  intros Hs. unfold safe_stem. rewrite replace_bad.
  apply Forall_forall. intros c Hc.
  apply py_join_elem in Hc as [Hc|(w & Hw & Hc)].
  - apply list_elem_of_singleton in Hc as ->. done.
  - apply (py_split_elem _ _ _ Hw) in Hc.
    apply list_elem_of_fmap in Hc as (c0 & -> & Hc0).
    unfold sanitize_char. case_bool_decide; [done|].
    unfold plain in Hs. rewrite Forall_forall in Hs. by apply Hs.
Qed.

Lemma index_record_keys (cfg : Config) (file_hash name txt_path stamp created_at : str) :
  ∃ rest, (index_record cfg file_hash name txt_path stamp created_at
           = (lit "sha256", file_hash) :: rest)
          ∧ (lit "sha256" ∉ rest.*1)
          ∧ (plain file_hash → plain name → plain txt_path → plain stamp →
             plain created_at → plain_cfg cfg →
             plain_record ((lit "sha256", file_hash) :: rest)).
Proof.
  eexists. split; [reflexivity|]. split.
  - cbn [fmap list_fmap fst]. by apply (bool_decide_unpack _).
  - intros Hh Hn Ht Hs Hc [Hm Hl].
    repeat (constructor; [split; cbn [fst snd];
        [by apply (bool_decide_unpack _)|try done]|]).
    + apply plain_app; [by apply (bool_decide_unpack _)|done].
    + constructor.
Qed.

End PlainNames.

Section Sync.

Variable E : Env.
Variable cfg : Config.
Hypothesis HE : plain_env E.
Hypothesis Hcfg : plain_cfg cfg.

Lemma unlink_index (name : str) (w : World) :
  index_file (unlink name w).2 = index_file w.
Proof. unfold unlink. by repeat case_match. Qed.

Lemma path_replace_index (name : str) (w : World) :
  index_file (path_replace name w).2 = index_file w.
Proof. unfold path_replace. by repeat case_match. Qed.

Lemma write_text_index (name text : str) (w : World) :
  index_file (write_text E name text w).2 = index_file w.
Proof. unfold write_text. by repeat case_match. Qed.

Lemma check_call_ffmpeg_index (src dst : str) (w : World) :
  index_file (check_call_ffmpeg E src dst w).2 = index_file w.
Proof. unfold check_call_ffmpeg. by repeat case_match. Qed.

Lemma maybe_compress_index (name : str) (limit : Z) (w : World) :
  index_file (maybe_compress_if_too_large E name limit w).2 = index_file w.
Proof.
  unfold maybe_compress_if_too_large.
  destruct (inbox w !! name); [|done]. case_bool_decide; [done|].
  destruct (exists_ _ _).
  - pose proof (unlink_index (with_suffix name (lit ".compressed.m4a")) w) as Hu.
    destruct (unlink _ w) as [[[]|e] w1]; cbn [snd] in Hu; [|done].
    pose proof (check_call_ffmpeg_index name
                  (with_suffix name (lit ".compressed.m4a")) w1) as Hc.
    destruct (check_call_ffmpeg _ _ _ w1) as [[[]|e] w2]; cbn [snd] in *; congruence.
  - pose proof (check_call_ffmpeg_index name
                  (with_suffix name (lit ".compressed.m4a")) w) as Hc.
    by destruct (check_call_ffmpeg _ _ _ w) as [[[]|e] w2].
Qed.

Lemma transcribe_index (name m : str) (lang : option str) (w : World) :
  index_file (transcribe_with_openai E name m lang w).2 = index_file w.
Proof. unfold transcribe_with_openai. by repeat case_match. Qed.

Lemma in_sync_same (r r' : Run) :
  index_file (world r') = index_file (world r) →
  done_hashes r' = done_hashes r →
  in_sync r → in_sync r'.
Proof. unfold in_sync. by intros -> ->. Qed.

Lemma in_sync_appended (r r' : Run) (file_hash name txt_path stamp created_at : str) :
  index_file (world r')
  = Some (append_text
            (json_dumps (index_record cfg file_hash name txt_path stamp created_at)
             ++ [LF])
            (default [] (index_file (world r)))) →
  done_hashes r' = done_hashes r ∪ {[file_hash]} →
  file_hash ≠ [] → plain file_hash → plain name → plain txt_path → plain stamp →
  plain created_at →
  in_sync r → in_sync r'.
Proof.
  intros Hi Hd Hne Hh Hn Ht Hs Hc [Hw Hl]. unfold in_sync. rewrite Hi, Hd.
  destruct (index_record_keys cfg file_hash name txt_path stamp created_at)
    as (rest & -> & Hkey & Hplain).
  destruct file_hash as [|c h]; [done|].
  by apply appended_record_is_loaded; [| |apply Hplain|].
Qed.

Lemma gate_step_index (name : str) (d : FileData) (l l' : Loc) res :
  gate_step E cfg name d l = (res, l') →
  index_file (world (run l')) = index_file (world (run l))
  ∧ done_hashes (run l') = done_hashes (run l).
Proof.
  unfold gate_step. case_bool_decide; [|by intros [= <- <-]].
  unfold bind, in_world, assign_working_audio, assign_created_temp.
  pose proof (maybe_compress_index name (max_bytes cfg) (world (run l))) as Hm.
  destruct (maybe_compress_if_too_large _ _ _ _) as [[p|e] w1];
    cbn [snd] in Hm; by intros [= <- <-].
Qed.

Lemma upload_and_commit_sync (name file_hash stamp txt_path : str)
    (l0 l : Loc) res :
  file_hash ≠ [] → plain file_hash → plain name → plain txt_path → plain stamp →
  upload_and_commit E cfg name file_hash stamp txt_path l0 = (res, l) →
  in_sync (run l0) → in_sync (run l).
Proof.
  intros Hne Hh Hn Ht Hs. unfold upload_and_commit, bind, on_run, in_world,
    read_working_audio, datetime_now.
  cbn [run world on_world print index_file done_hashes working_audio created_temp].
  set (w0 := print _ (world (run l0))).
  pose proof (transcribe_index (working_audio l0) (model cfg) (language cfg) w0) as Ht0.
  change (index_file w0) with (index_file (world (run l0))) in Ht0.
  destruct (transcribe_with_openai _ _ _ _ w0) as [[text|e] w1]; cbn [snd] in Ht0.
  2:{ intros [= <- <-]. by apply in_sync_same. }
  cbn [run world on_world].
  pose proof (write_text_index txt_path
                (transcript_text cfg stamp name file_hash text) w1) as Hw1.
  destruct (write_text _ _ _ w1) as [[[]|e] w2]; cbn [snd] in Hw1.
  2:{ intros [= <- <-]. apply in_sync_same; cbn; [congruence|done]. }
  pose (w3 := append_index_record
                (index_record cfg file_hash name txt_path stamp (now_iso E (clock w2)))
                (tick w2)).
  assert (Hsync : ∀ r', index_file (world r') = index_file w3 →
                        done_hashes r' = done_hashes (run l0) ∪ {[file_hash]} →
                        in_sync (run l0) → in_sync r').
  { intros r' Hi Hd. eapply (in_sync_appended _ _ file_hash name txt_path stamp
                               (now_iso E (clock w2))); try done.
    - rewrite Hi. subst w3. unfold append_index_record.
      cbn [index_file set_index_file tick]. by rewrite Hw1, Ht0.
    - apply HE. }
  destruct (move_audio cfg).
  - cbn [run world on_world incr_ok add_done]. fold w3.
    pose proof (path_replace_index name w3) as Hp.
    destruct (path_replace name w3) as [[[]|e] w4]; cbn [snd] in Hp;
      intros [= <- <-]; by apply Hsync.
  - intros [= <- <-]. by apply Hsync.
Qed.

Lemma finally_index (l : Loc) :
  index_file (world (finally l)) = index_file (world (run l))
  ∧ done_hashes (finally l) = done_hashes (run l).
Proof.
  unfold finally. destruct (created_temp l); [|done].
  split; [|done]. cbn. apply unlink_index.
Qed.

Lemma process_item_sync (name : str) (r : Run) :
  plain name → in_sync r → in_sync (process_item E cfg name r).2.
Proof.
  intros Hn Hr.
  destruct (process_item E cfg name r) as [o r'] eqn:Hp. cbn [snd].
  apply process_item_inv in Hp
    as [(_ & -> & _)|(d & Hc & [(e & _ & _ & ->)|(Hrd & Hp)])]; [done|..].
  { by apply (in_sync_same r). }
  cbv zeta in Hp.
  destruct Hp as [(_ & _ & ->)|(_ & res & l & Htry & Hres)].
  { destruct (move_skipped cfg); [|by apply (in_sync_same r)].
    apply (in_sync_same r); [|done|done]. cbn. apply path_replace_index. }
  assert (Hl : in_sync (run l)).
  { unfold try_block, bind in Htry.
    destruct (gate_step E cfg name d (mkLoc r name false)) as [[[]|e] l1] eqn:Hg.
    - apply gate_step_index in Hg as [Hi Hd]. cbn in Hi, Hd.
      eapply upload_and_commit_sync in Htry; try done; try apply HE.
      + apply plain_make_unique_txt_path. repeat apply plain_app.
        * apply HE.
        * by constructor.
        * by apply plain_safe_stem, plain_py_stem.
      + by apply (in_sync_same r).
    - injection Htry as <- <-. apply gate_step_index in Hg as [Hi Hd].
      by apply (in_sync_same r). }
  destruct (finally_index l) as [Hfi Hfd].
  destruct res as [[]|e]; destruct Hres as [_ ->].
  - by apply (in_sync_same (run l)).
  - match goal with |- in_sync (finally ?l2) => destruct (finally_index l2) as [Hi2 Hd2] end.
    apply (in_sync_same (run l)); [|done|done].
    by rewrite Hi2.
Qed.

Lemma run_items_sync (names : list str) (r : Run) :
  Forall plain names → in_sync r → in_sync (run_items E cfg names r).2.
Proof.
  intros Hn. revert r. induction Hn as [|name names Hname _ IH]; intros r Hr; [done|].
  rewrite run_items_cons. cbn [snd]. by apply IH, process_item_sync.
Qed.


End Sync.

Section Restart.

Variable E : Env.
Variable cfg : Config.
Hypothesis HE : plain_env E.
Hypothesis Hcfg : plain_cfg cfg.

(** From a whole ledger the run returns, and the ledger it leaves loads
    to the seen-set with which it ended: the next run starts where this
    one stopped. *)
Lemma main_keeps_ledger_in_sync (w : World) :
  ledger_whole (index_file w) →
  Forall plain (sorted_listing (inbox w)) →
  ∃ status r, main E cfg w = Ok (status, r) ∧ in_sync r.
Proof.
  intros Hw Hn. destruct (ledger_whole_text _ Hw) as (s & _ & _ & Hl).
  unfold main. rewrite Hl.
  pose proof (run_items_sync E cfg HE Hcfg (sorted_listing (inbox w))
                (mkRun w (foldl done_step ∅ (splitlines (universal_newlines s))) 0 0 0)
                Hn (conj Hw Hl)) as Hs.
  destruct (run_items _ _ _ _) as [os r]. cbn [snd] in Hs.
  eexists _, _. split; [reflexivity|]. by apply (in_sync_same r).
Qed.



End Restart.

Section Example.

Lemma toy_sha256_plain (b : bytes) : toy_sha256 b ≠ [] ∧ plain (toy_sha256 b).
Proof.
  unfold toy_sha256.
  set (n := fold_right _ _ b).
  assert (Hn : n < 256).
  { subst n. destruct b as [|x b]; cbn [fold_right]; [lia|]. by apply N.mod_lt. }
  assert (Hd : ∀ m, m < 16 → plain_char (hexdigit m) = true).
  { intros m Hm. unfold hexdigit, plain_char.
    destruct (N.ltb_spec m 10).
    - rewrite (proj2 (N.ltb_lt (48 + m) 0xD800)) by lia.
      rewrite (proj2 (N.eqb_neq (48 + m) 0x85)), (proj2 (N.eqb_neq (48 + m) 0x2028)),
        (proj2 (N.eqb_neq (48 + m) 0x2029)) by lia. done.
    - rewrite (proj2 (N.ltb_lt (87 + m) 0xD800)) by lia.
      rewrite (proj2 (N.eqb_neq (87 + m) 0x85)), (proj2 (N.eqb_neq (87 + m) 0x2028)),
        (proj2 (N.eqb_neq (87 + m) 0x2029)) by lia. done. }
  split; [done|].
  assert (Hp : plain [hexdigit (n / 16); hexdigit (n mod 16)]).
  { repeat constructor; apply Hd.
    - apply N.Div0.div_lt_upper_bound. lia.
    - by apply N.mod_lt. }
  generalize 32%nat. intros k. induction k as [|k IH]; [constructor|].
  cbn [replicate mjoin]. by apply plain_app.
Qed.

Lemma env_ok_plain : plain_env env_ok.
Proof.
  split; cbn.
  - apply toy_sha256_plain.
  - apply toy_sha256_plain.
  - intros _. by apply (bool_decide_unpack _).
  - intros n. apply plain_app; [by apply (bool_decide_unpack _)|].
    apply plain_uint_digits.
Qed.

Lemma cfg_keep_plain : plain_cfg cfg_keep.
Proof. split; by apply (bool_decide_unpack _). Qed.

End Example.

(** ** Duplicates, the transcript file, and two runs in a row *)

(** A candidate whose hash is in the done-set is skipped: the service is
    not called, and neither the ledger nor the transcript folder nor the
    error log changes; the only thing that may happen is the move to the
    archive. *)
Lemma seen_hash_is_skipped (E : Env) (cfg : Config) (name : str)
    (d : FileData) (r : Run) :
  candidate (world r) name d →
  readable d = true →
  sha256_hex E (content d) ∈ done_hashes r →
  let o := (process_item E cfg name r).1 in
  let r' := (process_item E cfg name r).2 in
  o = Skipped
  ∧ skipped r' = S (skipped r) ∧ ok r' = ok r ∧ failed r' = failed r
  ∧ index_file (world r') = index_file (world r)
  ∧ transcripts (world r') = transcripts (world r)
  ∧ errors_log (world r') = errors_log (world r)
  ∧ filter (λ ev, is_transcribe ev = true) (trace (world r'))
    = filter (λ ev, is_transcribe ev = true) (trace (world r)).
Proof.
  intros [Hin Hext] Hrd Hseen. unfold process_item, sha256_file.
  rewrite Hin, Hrd. rewrite bool_decide_eq_true_2 by done. cbn [negb].
  rewrite bool_decide_eq_true_2 by done. cbn [fst snd].
  split; [done|].
  destruct (move_skipped cfg); [|done]. cbn.
  unfold path_replace. rewrite Hin.
  destruct (archive (world r) !! name) as [[]|]; cbn; try done.
  - rewrite filter_app. cbn. by rewrite app_nil_r.
  - rewrite filter_app. cbn. by rewrite app_nil_r.
Qed.

(** The text of a transcript file: five header lines, each ended by a
    newline, and then at once the transcript body and a final newline. *)
Lemma transcript_text_layout (cfg : Config) (stamp name file_hash text : str) :
  transcript_text cfg stamp name file_hash text
  = lit "DateStamp " ++ stamp ++ [LF]
    ++ lit "AudioFile " ++ name ++ [LF]
    ++ lit "Sha256 " ++ file_hash ++ [LF]
    ++ lit "Model " ++ model cfg ++ [LF]
    ++ lit "LanguageHint " ++ language_or_auto (language cfg) ++ [LF]
    ++ text ++ [LF].
Proof.
  unfold transcript_text. cbn [py_join]. rewrite app_nil_r.
  by rewrite <- !app_assoc.
Qed.

(** C2, evaluated.  One small file is transcribed; the service answers
    [" Bom dia. "].  The transcript file is written under the unique
    name, it is newline-terminated, and its lines are the five header
    lines followed at once by the body: the sixth line is the transcript,
    not a blank line. *)
Theorem transcript_file_has_no_blank_line :
  let r' := (process_item env_ok cfg_keep (lit "talk.mp3") (start world_small)).2 in
  transcripts (world r') !! lit "20240101 120000 talk.txt"
  = Some (File (mkFile (utf8_encode talk_transcript) 1 true))
  ∧ utf8_decode (utf8_encode talk_transcript) = Some talk_transcript
  ∧ last talk_transcript = Some LF
  ∧ splitlines talk_transcript
    = [lit "DateStamp 20240101 120000";
       lit "AudioFile talk.mp3";
       lit "Sha256 " ++ toy_sha256 (blit "abc");
       lit "Model whisper-1";
       lit "LanguageHint pt";
       lit "Bom dia."].
Proof. vm_compute. repeat split; reflexivity. Qed.

(** With no ledger at the start, two runs over the same inbox behave as
    intended: the second run skips the file, calls nothing, and leaves
    the ledger with its one record. *)
Lemma second_run_skips_after_clean_start :
  let r1 := run_after (main env_ok cfg_keep world_small) in
  let r2 := run_after (main env_ok cfg_keep (world r1)) in
  main env_ok cfg_keep (world r1) = Ok (0%Z, r2)
  ∧ (ok r2, skipped r2, failed r2) = (0, 1, 0)%nat
  ∧ trace (world r2) = [EvTranscribe (lit "talk.mp3")]
  ∧ index_file (world r2)
    = Some (talk_record (lit "20240101 120000 talk.txt")
              (lit "2024-01-01T12:00:01")).
Proof. vm_compute. repeat split; reflexivity. Qed.

(** C1, evaluated.  The ledger's last line was cut short by an
    interrupted write and has no newline; the inbox holds one file and
    processed audio stays in the inbox.  The first run transcribes the
    file and appends its record, which lands on the cut line.  The second
    run, over the same inbox, finds no hash in the ledger, calls the
    service again, and appends a second record of the same hash, for a
    second transcript. *)
Theorem second_run_transcribes_again :
  let r1 := run_after (main env_ok cfg_keep world_cut) in
  let r2 := run_after (main env_ok cfg_keep (world r1)) in
  main env_ok cfg_keep world_cut = Ok (0%Z, r1)
  ∧ (ok r1, skipped r1, failed r1) = (1, 0, 0)%nat
  ∧ inbox (world r1) = inbox world_cut
  ∧ index_file (world r1)
    = Some (cut_ledger
            ++ talk_record (lit "20240101 120000 talk.txt")
                 (lit "2024-01-01T12:00:01"))
  ∧ load_done_hashes (index_file (world r1)) = Ok ∅
  ∧ main env_ok cfg_keep (world r1) = Ok (0%Z, r2)
  ∧ (ok r2, skipped r2, failed r2) = (1, 0, 0)%nat
  ∧ trace (world r2)
    = [EvTranscribe (lit "talk.mp3"); EvTranscribe (lit "talk.mp3")]
  ∧ index_file (world r2)
    = Some (cut_ledger
            ++ talk_record (lit "20240101 120000 talk.txt")
                 (lit "2024-01-01T12:00:01")
            ++ talk_record (lit "20240101 120000 talk 2.txt")
                 (lit "2024-01-01T12:00:03")).
Proof. vm_compute. repeat split; reflexivity. Qed.

(** ** Stripping, splitting and joining *)

Section Strip.

Lemma lstrip_suffix (s : str) :
  ∃ p, s = p ++ lstrip s ∧ Forall (λ c, is_space c = true) p.
Proof.
  induction s as [|c r (p & Hp & Hsp)]; [by exists []|]. cbn [lstrip].
  destruct (is_space c) eqn:Hc.
  - exists (c :: p). split; [cbn; by f_equal|by constructor].
  - by exists [].
Qed.

Lemma lstrip_head (s : str) (c : N) (r : str) :
  lstrip s = c :: r → is_space c = false.
Proof.
  induction s as [|a s IH]; [done|]. cbn [lstrip].
  destruct (is_space a) eqn:Ha; [done|]. by intros [= <- _].
Qed.

Lemma lstrip_fixed (s : str) :
  (∀ c r, s = c :: r → is_space c = false) → lstrip s = s.
Proof.
  destruct s as [|c r]; [done|]. intros H. cbn. by rewrite (H c r).
Qed.

Lemma lstrip_spaces (s : str) :
  Forall (λ c, is_space c = true) s → lstrip s = [].
Proof. induction 1 as [|c r Hc _ IH]; [done|]. cbn. by rewrite Hc. Qed.

Lemma rstrip_prefix (s : str) :
  ∃ q, s = rstrip s ++ q ∧ Forall (λ c, is_space c = true) q.
Proof.
  unfold rstrip. destruct (lstrip_suffix (reverse s)) as (p & Hp & Hsp).
  exists (reverse p). split; [|by apply Forall_reverse].
  rewrite <- reverse_app, <- Hp. by rewrite reverse_involutive.
Qed.

Lemma rstrip_last (s : str) (c : N) :
  last (rstrip s) = Some c → is_space c = false.
Proof.
  unfold rstrip. rewrite last_reverse.
  destruct (lstrip (reverse s)) as [|a r] eqn:Hl; [done|].
  intros [= <-]. by eapply lstrip_head.
Qed.

Lemma rstrip_fixed (s : str) :
  (∀ c, last s = Some c → is_space c = false) → rstrip s = s.
Proof.
  intros H. unfold rstrip. rewrite lstrip_fixed; [apply reverse_involutive|].
  intros c r Hr. apply H. rewrite <- (reverse_involutive s), Hr, last_reverse. done.
Qed.

Lemma strip_fixed (s : str) :
  (∀ c r, s = c :: r → is_space c = false) →
  (∀ c, last s = Some c → is_space c = false) →
  strip s = s.
Proof. intros Hh Hl. unfold strip. by rewrite lstrip_fixed, rstrip_fixed. Qed.

Lemma strip_head (s : str) (c : N) (r : str) :
  strip s = c :: r → is_space c = false.
Proof.
  unfold strip. intros Hs.
  destruct (rstrip_prefix (lstrip s)) as (q & Hq & _).
  rewrite Hs in Hq. cbn in Hq. by eapply lstrip_head.
Qed.

Lemma strip_last (s : str) (c : N) :
  last (strip s) = Some c → is_space c = false.
Proof. apply rstrip_last. Qed.

(** Stripping cuts a run of whitespace off each end. *)
Lemma strip_middle (s : str) :
  ∃ p q, s = p ++ strip s ++ q
         ∧ Forall (λ c, is_space c = true) p
         ∧ Forall (λ c, is_space c = true) q.
Proof.
  destruct (lstrip_suffix s) as (p & Hp & Hsp).
  destruct (rstrip_prefix (lstrip s)) as (q & Hq & Hsq).
  exists p, q. unfold strip. by rewrite <- Hq.
Qed.

Lemma strip_idemp (s : str) : strip (strip s) = strip s.
Proof. apply strip_fixed; [apply strip_head|apply strip_last]. Qed.

Lemma strip_sublist (s : str) : strip s `sublist_of` s.
Proof.
  destruct (strip_middle s) as (p & q & Hs & _). rewrite Hs at 2.
  apply sublist_inserts_l, sublist_inserts_r. done.
Qed.

Lemma strip_elem (s : str) (c : N) : c ∈ strip s → c ∈ s.
Proof. intros Hc. eapply elem_of_sublist; [exact Hc|apply strip_sublist]. Qed.

Lemma strip_spaces (s : str) :
  Forall (λ c, is_space c = true) s → strip s = [].
Proof. intros Hs. unfold strip. by rewrite lstrip_spaces. Qed.

End Strip.

Section SplitJoin.

Lemma split_ws_aux_word (w rest cur : str) :
  Forall (λ c, is_space c = false) w →
  split_ws_aux cur (w ++ rest) = split_ws_aux (reverse w ++ cur) rest.
Proof.
  intros Hw. revert cur. induction Hw as [|c w Hc _ IH]; intros cur; [done|].
  cbn [app split_ws_aux]. rewrite Hc, IH, reverse_cons, <- app_assoc. done.
Qed.

(** Splitting the words joined by single spaces gives the words back. *)
Lemma py_split_join (ws : list str) :
  Forall is_word ws → py_split (py_join [SP] ws) = ws.
Proof.
  unfold py_split. induction 1 as [|w ws [Hne Hw] Hws IH]; [done|].
  assert (∃ a r, reverse w = a :: r) as (a & r & Hrev).
  { destruct (reverse w) as [|a r] eqn:Hr; [|by eauto].
    apply (f_equal reverse) in Hr. rewrite reverse_involutive in Hr. done. }
  destruct ws as [|w' ws'].
  - cbn [py_join]. rewrite <- (app_nil_r w) at 1.
    rewrite split_ws_aux_word, app_nil_r by done. cbn [split_ws_aux].
    rewrite Hrev, <- Hrev. by rewrite reverse_involutive.
  - change (py_join [SP] (w :: w' :: ws')) with (w ++ SP :: py_join [SP] (w' :: ws')).
    rewrite split_ws_aux_word, app_nil_r by done. cbn [split_ws_aux].
    rewrite SP_is_space, Hrev, <- Hrev, reverse_involutive. by rewrite IH.
Qed.

Lemma split_ws_aux_nonempty (s cur : str) :
  cur ≠ [] → split_ws_aux cur s ≠ [].
Proof.
  revert cur. induction s as [|c r IH]; intros cur Hc; cbn [split_ws_aux].
  - by destruct cur.
  - destruct (is_space c); [by destruct cur|]. by apply IH.
Qed.

Lemma py_split_nil (s : str) :
  py_split s = [] ↔ Forall (λ c, is_space c = true) s.
Proof.
  unfold py_split. induction s as [|c r IH]; [done|]. cbn [split_ws_aux].
  destruct (is_space c) eqn:Hc.
  - rewrite IH. split; [by constructor|by inversion 1].
  - split.
    + intros H. by apply split_ws_aux_nonempty in H.
    + inversion 1; congruence.
Qed.

Lemma sanitize_char_not_bad (c : N) : sanitize_char c ∉ bad.
Proof.
  unfold sanitize_char. case_bool_decide; [|done].
  by apply (bool_decide_unpack _).
Qed.

Lemma sanitize_char_fixed (c : N) : c ∉ bad → sanitize_char c = c.
Proof. intros H. unfold sanitize_char. by rewrite bool_decide_eq_false_2. Qed.

Lemma safe_stem_words (s : str) :
  safe_stem s = py_join [SP] (py_split (sanitize_char <$> s)).
Proof. unfold safe_stem. by rewrite replace_bad. Qed.

End SplitJoin.

(** X9.  [safe_stem] is idempotent: a stem that has been cleaned is
    left as it is by a second cleaning. *)
Theorem safe_stem_idempotent (s : str) :
  safe_stem (safe_stem s) = safe_stem s.
Proof.
  rewrite (safe_stem_words (safe_stem s)), (safe_stem_words s).
  set (ws := py_split (sanitize_char <$> s)).
  assert (Hws : Forall is_word ws) by apply py_split_words.
  assert (Hfix : sanitize_char <$> py_join [SP] ws = py_join [SP] ws).
  { rewrite <- (list_fmap_id (py_join [SP] ws)) at 2.
    apply list_fmap_ext. intros i c Hc. apply sanitize_char_fixed.
    apply list_elem_of_lookup_2 in Hc.
    apply py_join_elem in Hc as [Hc|(w & Hw & Hc)].
    - apply list_elem_of_singleton in Hc as ->. by apply (bool_decide_unpack _).
    - apply (py_split_elem _ _ _ Hw) in Hc.
      apply list_elem_of_fmap in Hc as (c0 & -> & _). apply sanitize_char_not_bad. }
  by rewrite Hfix, py_split_join.
Qed.

(** X10.  The cleaned stem is empty exactly when every character of the
    stem is whitespace or one of the characters of [bad]; the transcript
    is then named by the date stamp and a space alone. *)
Theorem safe_stem_empty_iff (s : str) :
  safe_stem s = [] ↔ Forall (λ c, c ∈ bad ∨ is_space c = true) s.
Proof.
  rewrite safe_stem_words.
  assert (Hj : ∀ ws, Forall is_word ws → py_join [SP] ws = [] ↔ ws = []).
  { intros ws Hws. split; [|by intros ->].
    destruct Hws as [|w ws Hw _]; [done|]. intros H.
    by apply py_join_nonempty in H. }
  rewrite Hj by apply py_split_words. rewrite py_split_nil, Forall_fmap.
  apply Forall_iff. intros c. cbn. unfold sanitize_char.
  case_bool_decide as Hb.
  - rewrite SP_is_space. by split; [left|].
  - split; [by right|]. by intros [?|?].
Qed.

(** ** The API key *)

Section ApiKey.

Lemma filter_fixed {A} (P : A → Prop) `{!∀ x, Decision (P x)} (l : list A) :
  Forall P l → filter P l = l.
Proof.
  induction 1 as [|x l Hx _ IH]; [done|]. by rewrite filter_cons_True, IH.
Qed.

Lemma lstrip_chars_suffix (chars : list N) (s : str) :
  ∃ p, s = p ++ lstrip_chars chars s.
Proof.
  induction s as [|c r [p Hp]]; [by exists []|]. cbn [lstrip_chars].
  case_bool_decide; [|by exists []]. exists (c :: p). cbn. by f_equal.
Qed.

Lemma lstrip_chars_fixed (chars : list N) (s : str) :
  (∀ c r, s = c :: r → c ∉ chars) → lstrip_chars chars s = s.
Proof.
  destruct s as [|c r]; [done|]. intros H. cbn.
  by rewrite bool_decide_eq_false_2 by (by eapply H).
Qed.

Lemma strip_chars_sublist (chars : list N) (s : str) :
  strip_chars chars s `sublist_of` s.
Proof.
  unfold strip_chars.
  destruct (lstrip_chars_suffix chars s) as [p Hp].
  destruct (lstrip_chars_suffix chars (reverse (lstrip_chars chars s))) as [q Hq].
  rewrite Hp at 2. apply sublist_inserts_l.
  rewrite <- (reverse_involutive (lstrip_chars chars s)) at 2.
  rewrite Hq at 2. rewrite reverse_app. by apply sublist_inserts_r.
Qed.

Lemma strip_chars_fixed (chars : list N) (s : str) :
  (∀ c r, s = c :: r → c ∉ chars) →
  (∀ c, last s = Some c → c ∉ chars) →
  strip_chars chars s = s.
Proof.
  intros Hh Hl. unfold strip_chars. rewrite (lstrip_chars_fixed chars s) by done.
  rewrite lstrip_chars_fixed; [apply reverse_involutive|].
  intros c r Hr. apply Hl.
  rewrite <- (reverse_involutive s), Hr, last_reverse. done.
Qed.

Lemma sanitize_api_key_sublist (key : str) :
  sanitize_api_key key `sublist_of` key.
Proof.
  unfold sanitize_api_key, ascii_ignore, remove_char.
  repeat first
    [ done
    | etrans; [apply strip_sublist|]
    | etrans; [apply sublist_filter|]
    | etrans; [apply strip_chars_sublist|] ].
Qed.

Lemma sanitize_api_key_ascii (key : str) :
  Forall (λ c, c < 128) (sanitize_api_key key).
Proof.
  unfold sanitize_api_key. apply Forall_forall. intros c Hc.
  apply strip_elem in Hc. unfold ascii_ignore in Hc.
  by apply list_elem_of_filter in Hc as [? _].
Qed.

End ApiKey.

(** X11.  Whatever the input, the sanitized key is made of ASCII
    characters only, has no whitespace at either end, and is a
    subsequence of the input: nothing is added or reordered. *)
Theorem sanitize_api_key_ascii_trimmed (key : str) :
  let k := sanitize_api_key key in
  Forall (λ c, c < 128) k
  ∧ (∀ c r, k = c :: r → is_space c = false)
  ∧ (∀ c, last k = Some c → is_space c = false)
  ∧ k `sublist_of` key.
Proof.
  cbv zeta. split; [apply sanitize_api_key_ascii|].
  split; [intros c r; apply strip_head|].
  split; [intros c; apply strip_last|apply sanitize_api_key_sublist].
Qed.

(** X12.  A key of ASCII characters that neither starts nor ends with
    whitespace or a quote character is returned as it is. *)
Theorem sanitize_api_key_clean (key : str) :
  Forall (λ c, c < 128) key →
  (∀ c r, key = c :: r → is_space c = false ∧ c ≠ QUOTE ∧ c ≠ 39) →
  (∀ c, last key = Some c → is_space c = false ∧ c ≠ QUOTE ∧ c ≠ 39) →
  sanitize_api_key key = key.
Proof.
  intros Hascii Hh Hl.
  assert (Hs : strip key = key).
  { apply strip_fixed; [intros c r H; by apply (Hh c r)|intros c H; by apply Hl]. }
  assert (Hq : ∀ q, 128 ≤ q → remove_char q key = key).
  { intros q Hq. apply filter_fixed. eapply Forall_impl; [exact Hascii|].
    cbn. intros c Hc. lia. }
  unfold sanitize_api_key. rewrite Hs, !Hq, Hs by done.
  rewrite (strip_chars_fixed [QUOTE] key).
  - rewrite (strip_chars_fixed [39] key).
    + unfold ascii_ignore. by rewrite filter_fixed.
    + intros c r H. apply not_elem_of_cons. split; [by apply (Hh c r)|apply not_elem_of_nil].
    + intros c H. apply not_elem_of_cons. split; [by apply Hl|apply not_elem_of_nil].
  - intros c r H. apply not_elem_of_cons. split; [by apply (Hh c r)|apply not_elem_of_nil].
  - intros c H. apply not_elem_of_cons. split; [by apply Hl|apply not_elem_of_nil].
Qed.

Lemma sanitize_api_key_clean_witness :
  sanitize_api_key (lit "sk-proj 42") = lit "sk-proj 42".
Proof.
  apply sanitize_api_key_clean.
  - by apply (bool_decide_unpack _).
  - intros c r [= <- <-]. by vm_compute.
  - intros c [= <-]. by vm_compute.
Defined.

(** X13.  [read_api_key] never returns an empty key.  A key it returns
    is the sanitized environment value when that is not empty, whatever
    the keychain holds, and the sanitized keychain answer otherwise; when
    both are empty or the keychain tool fails, it raises the one
    [RuntimeError] with the setup hint. *)
Theorem read_api_key_result (env_key keychain : option str) :
  (sanitize_api_key (default [] env_key) ≠ [] →
   read_api_key env_key keychain = Ok (sanitize_api_key (default [] env_key)))
  ∧
  match read_api_key env_key keychain with
  | Ok k =>
      k ≠ [] ∧ Forall (λ c, c < 128) k
      ∧ (∀ c r, k = c :: r → is_space c = false)
      ∧ (∀ c, last k = Some c → is_space c = false)
      ∧ (k = sanitize_api_key (default [] env_key)
         ∨ (sanitize_api_key (default [] env_key) = []
            ∧ ∃ out, keychain = Some out ∧ k = sanitize_api_key out))
  | Raise e =>
      e = RuntimeError KEY_NOT_FOUND
      ∧ sanitize_api_key (default [] env_key) = []
      ∧ (keychain = None
         ∨ ∃ out, keychain = Some out ∧ sanitize_api_key out = [])
  end.
Proof.
  unfold read_api_key.
  destruct (sanitize_api_key_ascii_trimmed (default [] env_key)) as (Ha & Hh & Hl & _).
  destruct (sanitize_api_key (default [] env_key)) as [|c k] eqn:He; (split; [done|]).
  - destruct keychain as [out|]; [|by auto].
    destruct (sanitize_api_key_ascii_trimmed out) as (Ha' & Hh' & Hl' & _).
    destruct (sanitize_api_key out) as [|c k] eqn:Ho; [by eauto 6|].
    repeat split; try done. right. split; [done|]. by exists out.
  - repeat split; try done. by left.
Qed.

(** ** The language setting *)

Section Language.

Lemma before_char_without (ch : N) (s : str) : ch ∉ before_char ch s.
Proof.
  induction s as [|c r IH]; cbn [before_char]; [apply not_elem_of_nil|].
  destruct (N.eqb_spec c ch) as [->|Hne]; [apply not_elem_of_nil|].
  apply not_elem_of_cons. split; [congruence|done].
Qed.

Lemma before_char_prefix (ch : N) (s : str) : before_char ch s `prefix_of` s.
Proof.
  induction s as [|c r IH]; cbn [before_char]; [done|].
  destruct (c =? ch); [apply prefix_nil|]. by apply prefix_cons.
Qed.

Lemma pt_without_hyphen : HYPHEN ∉ lit "pt".
Proof. by apply (bool_decide_unpack _). Qed.

Lemma preferred_language_nonempty (unicode_lower : str → str) (variant : option str) :
  ∃ c t, preferred_language unicode_lower variant = c :: t.
Proof.
  unfold preferred_language.
  repeat case_bool_decide; try (by eexists _, _).
  - destruct (before_char _ _); by eexists _, _.
  - destruct (py_lower _ _); by eexists _, _.
Qed.

End Language.

(** X15.  The language code is never empty and never contains a hyphen,
    so the header shows it as it is; with the variable unset it is
    [pt]; a value with a region part is cut at its first hyphen unless it
    is one of the listed spellings, which all give [pt]. *)
Theorem preferred_language_code (unicode_lower : str → str) (variant : option str) :
  let p := preferred_language unicode_lower variant in
  let raw_lower := py_lower unicode_lower (strip (default (lit "pt") variant)) in
  p ≠ []
  ∧ (HYPHEN ∉ p)
  ∧ language_or_auto (Some p) = p
  ∧ preferred_language unicode_lower None = lit "pt"
  ∧ (raw_lower ∈ PT_PT_SPELLINGS ++ PT_BR_SPELLINGS → p = lit "pt")
  ∧ (raw_lower ∉ PT_PT_SPELLINGS ++ PT_BR_SPELLINGS →
     before_char HYPHEN raw_lower ≠ [] → p = before_char HYPHEN raw_lower)
  ∧ (raw_lower ∉ PT_PT_SPELLINGS ++ PT_BR_SPELLINGS →
     before_char HYPHEN raw_lower = [] → p = lit "pt").
Proof.
  cbv zeta.
  assert (Hcut : ∀ s, HYPHEN ∉ s → before_char HYPHEN s = s).
  { induction s as [|c r IH]; [done|]. intros H. apply not_elem_of_cons in H as [Hc Hr].
    cbn. destruct (N.eqb_spec c HYPHEN) as [->|_]; [done|]. by rewrite IH. }
  assert (Hp : preferred_language unicode_lower variant ≠ []
               ∧ (HYPHEN ∉ preferred_language unicode_lower variant)).
  { unfold preferred_language.
    repeat case_bool_decide; try (split; [done|apply pt_without_hyphen]).
    - pose proof (before_char_without HYPHEN
                    (py_lower unicode_lower (strip (default (lit "pt") variant)))).
      destruct (before_char _ _); [split; [done|apply pt_without_hyphen]|done].
    - destruct (py_lower _ _); [split; [done|apply pt_without_hyphen]|done]. }
  destruct Hp as [Hne Hhy].
  split; [done|]. split; [done|]. split.
  { unfold language_or_auto. by destruct (preferred_language _ _). }
  split; [reflexivity|].
  unfold preferred_language. split; [|split].
  - intros Hin. apply elem_of_app in Hin as [Hin|Hin].
    + by rewrite bool_decide_eq_true_2.
    + case_bool_decide; [done|]. by rewrite bool_decide_eq_true_2.
  - intros Hnot Hb. rewrite not_elem_of_app in Hnot. destruct Hnot as [H1 H2].
    rewrite !bool_decide_eq_false_2 by done.
    case_bool_decide as Hh.
    + by destruct (before_char _ _).
    + rewrite Hcut in * by done. by destruct (py_lower _ _).
  - intros Hnot Hb. rewrite not_elem_of_app in Hnot. destruct Hnot as [H1 H2].
    rewrite !bool_decide_eq_false_2 by done.
    case_bool_decide as Hh.
    + by rewrite Hb.
    + rewrite Hcut in Hb by done. by rewrite Hb.
Qed.

(** X22.  The language passed on.  With [TRANSCRIBE_AUTO_DETECT] equal
    to [1] after stripping, no language is set and the header says
    [auto]; otherwise the language is the code of [preferred_language],
    which is never empty, so it is sent to the service as the language
    keyword and written to the header as it is. *)
Theorem language_setting_sent (unicode_lower : str → str)
    (auto_detect variant : option str) :
  match language_setting unicode_lower auto_detect variant with
  | None =>
      strip (default (lit "0") auto_detect) = lit "1"
      ∧ language_or_auto None = lit "auto"
  | Some p =>
      strip (default (lit "0") auto_detect) ≠ lit "1"
      ∧ p = preferred_language unicode_lower variant
      ∧ language_or_auto (Some p) = p
      ∧ ∃ c t, p = c :: t
  end.
Proof.
  unfold language_setting. case_bool_decide as Ha; [done|].
  destruct (preferred_language_nonempty unicode_lower variant) as (c & t & Hp).
  split; [done|]. split; [done|]. rewrite Hp. split; [done|]. by exists c, t.
Qed.

(** ** The URL list *)

Section Urls.

Lemma splitlines_aux_lines (s cur line : str) :
  line ∈ splitlines_aux cur s →
  Forall (λ c, is_linebreak c = false) cur →
  Forall (λ c, is_linebreak c = false) line.
Proof.
  remember (length s) as n eqn:Hn. revert s cur Hn.
  induction n as [n IH] using lt_wf_ind. intros s cur Hn Hin Hcur.
  destruct s as [|c r]; cbn [splitlines_aux] in Hin.
  - destruct cur as [|a cur']; [by apply elem_of_nil in Hin|].
    apply list_elem_of_singleton in Hin as ->. by apply Forall_reverse.
  - cbn in Hn. destruct (c =? CR).
    + destruct r as [|c' r'].
      * apply list_elem_of_singleton in Hin as ->. by apply Forall_reverse.
      * cbn in Hn. destruct (c' =? LF);
          (apply elem_of_cons in Hin as [->|Hin]; [by apply Forall_reverse|]).
        -- eapply (IH (length r')); [lia|done|exact Hin|constructor].
        -- eapply (IH (length (c' :: r'))); [cbn; lia|done|exact Hin|constructor].
    + destruct (is_linebreak c) eqn:Hc.
      * apply elem_of_cons in Hin as [->|Hin]; [by apply Forall_reverse|].
        eapply (IH (length r)); [lia|done|exact Hin|constructor].
      * eapply (IH (length r)); [lia|done|exact Hin|by constructor].
Qed.

Lemma splitlines_lines (s line : str) :
  line ∈ splitlines s → Forall (λ c, is_linebreak c = false) line.
Proof. intros H. eapply splitlines_aux_lines; [exact H|constructor]. Qed.

Lemma foldl_urls_step (lines : list str) (acc : list str) :
  foldl urls_step acc lines
  = acc ++ filter (λ l, l ≠ [] ∧ head l ≠ Some HASH_SIGN) (strip <$> lines).
Proof.
  revert acc. induction lines as [|l lines IH]; intros acc.
  - cbn. by rewrite app_nil_r.
  - cbn [foldl]. rewrite IH, fmap_cons, filter_cons. unfold urls_step.
    destruct (strip l) as [|c t] eqn:Hs.
    + rewrite decide_False by (by intros [? _]). done.
    + destruct (N.eqb_spec c HASH_SIGN) as [->|Hne].
      * rewrite decide_False by (by intros [_ ?]). done.
      * rewrite decide_True by (split; [done|cbn; congruence]).
        by rewrite <- app_assoc.
Qed.

End Urls.

(** X14.  Every address [load_urls] returns is a stripped, non-empty
    line of the file that does not start with the comment sign and holds
    no line boundary; the addresses are the stripped lines in file order
    with the blank and comment lines left out.  A missing file gives the
    empty list; a directory, an unreadable file and a file that is not
    UTF-8 make it raise. *)
Theorem load_urls_result (name : str) (entry : option Node) :
  match load_urls name entry with
  | Ok urls =>
      Forall (λ u, u ≠ [] ∧ strip u = u ∧ head u ≠ Some HASH_SIGN
                   ∧ Forall (λ c, is_linebreak c = false) u) urls
      ∧ (entry = None → urls = [])
      ∧ (∀ d, entry = Some (File d) →
           ∃ text, utf8_decode (content d) = Some text
                   ∧ urls = filter (λ l, l ≠ [] ∧ head l ≠ Some HASH_SIGN)
                              (strip <$> splitlines (universal_newlines text)))
  | Raise e =>
      (entry = Some Dir ∧ e = IsADirectoryError name)
      ∨ ∃ d, entry = Some (File d)
             ∧ ((readable d = false ∧ e = PermissionError name)
                ∨ (readable d = true ∧ utf8_decode (content d) = None
                   ∧ e = UnicodeDecodeError))
  end.
Proof.
  unfold load_urls. destruct entry as [[d|]|].
  - destruct (readable d) eqn:Hr; cbn [negb].
    2:{ right. exists d. split; [done|]. by left. }
    unfold read_text. destruct (utf8_decode (content d)) as [text|] eqn:Hd.
    2:{ right. exists d. split; [done|]. by right. }
    rewrite foldl_urls_step. cbn [app]. split; [|split; [done|]].
    + apply Forall_forall. intros u Hu.
      apply list_elem_of_filter in Hu as [[Hne Hhash] Hu].
      apply list_elem_of_fmap in Hu as (l & -> & Hl).
      split; [done|]. split; [apply strip_idemp|]. split; [done|].
      apply splitlines_lines in Hl. apply Forall_forall. intros c Hc.
      apply strip_elem in Hc. rewrite Forall_forall in Hl. by apply Hl.
    + intros d' [= <-]. by exists text.
  - by left.
  - split; [constructor|]. by split.
Qed.

(** The example list: the comment and the blank line are dropped, the
    first address loses its surrounding whitespace. *)
Lemma load_urls_example :
  load_urls (lit "video_urls.txt") (Some urls_file)
  = Ok [lit "https://a.example/1"; lit "https://a.example/2"].
Proof. vm_compute. reflexivity. Qed.

(** ** The call to the service *)

(** X16.  The text [transcribe_with_openai] returns is the stripped
    answer of the service: it has no whitespace at either end, and it is
    empty when the answer, though not empty, is whitespace only.  The
    call is made once, on a readable file, and leaves the inbox as it
    is. *)
Theorem transcribe_returns_stripped (E : Env) (name m : str) (lang : option str)
    (w w' : World) (text : str) :
  transcribe_with_openai E name m lang w = (Ok text, w') →
  strip text = text
  ∧ inbox w' = inbox w
  ∧ trace w' = trace w ++ [EvTranscribe name]
  ∧ ∃ d kw answer,
      inbox w !! name = Some (File d) ∧ readable d = true
      ∧ api_transcribe E (clock w) (content d) m kw = ApiReturned (Some answer)
      ∧ answer ≠ [] ∧ text = strip answer
      ∧ (Forall (λ c, is_space c = true) answer → text = []).
Proof.
  unfold transcribe_with_openai.
  destruct (inbox w !! name) as [[d|]|] eqn:Hin; [|done..].
  destruct (readable d) eqn:Hr; [|done]. cbn [negb].
  destruct (api_transcribe _ _ _ _ _) as [msg|[[|c t]|]] eqn:Ha; try done.
  intros [= <- <-]. split; [apply strip_idemp|]. split; [done|]. split; [done|].
  eexists d, _, (c :: t). repeat split; try done. apply strip_spaces.
Qed.

Lemma transcribe_returns_stripped_witness :
  strip (lit "Bom dia.") = lit "Bom dia.".
Proof.
  apply (transcribe_returns_stripped env_ok (lit "talk.mp3") (lit "whisper-1")
           (Some (lit "pt")) world_small
           (transcribe_with_openai env_ok (lit "talk.mp3") (lit "whisper-1")
              (Some (lit "pt")) world_small).2 (lit "Bom dia.")).
  vm_compute. reflexivity.
Defined.

(** ** The listing of the inbox *)

Section Listing.

Lemma str_leb_total (a b : str) : str_leb a b = true ∨ str_leb b a = true.
Proof.
  revert b. induction a as [|x a IH]; intros b; [by left|].
  destruct b as [|y b]; [by right|]. cbn [str_leb].
  destruct (N.ltb_spec x y), (N.ltb_spec y x); try lia; auto.
Qed.

Lemma str_leb_trans (a b c : str) :
  str_leb a b = true → str_leb b c = true → str_leb a c = true.
Proof.
  revert b c. induction a as [|x a IH]; intros b c; [done|].
  destruct b as [|y b]; [done|]. destruct c as [|z c]; [done|]. cbn [str_leb].
  destruct (N.ltb_spec x y), (N.ltb_spec y x), (N.ltb_spec y z),
    (N.ltb_spec z y), (N.ltb_spec x z), (N.ltb_spec z x);
    try done; try lia. apply IH.
Qed.

Lemma str_leb_antisym (a b : str) :
  str_leb a b = true → str_leb b a = true → a = b.
Proof.
  revert b. induction a as [|x a IH]; intros b; destruct b as [|y b]; try done.
  cbn [str_leb].
  destruct (N.ltb_spec x y), (N.ltb_spec y x); try done; try lia.
  intros H1 H2. f_equal; [lia|by apply IH].
Qed.

#[local] Instance str_leb_Total : Total (λ a b, Is_true (str_leb a b)).
Proof.
  intros a b. destruct (str_leb_total a b) as [H|H]; rewrite H; [by left|by right].
Qed.

#[local] Instance str_leb_Transitive : Transitive (λ a b, Is_true (str_leb a b)).
Proof.
  intros a b c H1%Is_true_true H2%Is_true_true.
  apply Is_true_true. by eapply str_leb_trans.
Qed.

Lemma sorted_listing_elem (fo : folder) (name : str) :
  name ∈ sorted_listing fo ↔ is_Some (fo !! name).
Proof.
  unfold sorted_listing. rewrite merge_sort_Permutation, elem_of_elements.
  apply elem_of_dom.
Qed.

Lemma sorted_listing_NoDup (fo : folder) : NoDup (sorted_listing fo).
Proof.
  unfold sorted_listing. rewrite merge_sort_Permutation. apply NoDup_elements.
Qed.

Lemma sorted_listing_sorted (fo : folder) :
  StronglySorted (λ a b, Is_true (str_leb a b)) (sorted_listing fo).
Proof. apply StronglySorted_merge_sort; apply _. Qed.

Lemma StronglySorted_lookup {A} (R : relation A) (l : list A) (i j : nat) (a b : A) :
  StronglySorted R l → l !! i = Some a → l !! j = Some b → (i < j)%nat → R a b.
Proof.
  intros Hs. revert i j. induction Hs as [|x l Hl IH Hx]; intros i j Hi Hj Hij; [done|].
  destruct j as [|j]; [lia|]. cbn in Hj. destruct i as [|i].
  - injection Hi as <-. rewrite Forall_forall in Hx. apply Hx.
    by eapply list_elem_of_lookup_2.
  - cbn in Hi. eapply IH; [done..|lia].
Qed.

End Listing.

(** X7.  The loop visits the entries of the inbox in ascending order of
    their names, code point by code point, and each entry once: the
    listing holds exactly the entry names, and of two of its positions
    the earlier one holds the strictly smaller name. *)
Theorem sorted_listing_ascending (fo : folder) :
  let names := sorted_listing fo in
  (∀ name, name ∈ names ↔ is_Some (fo !! name))
  ∧ NoDup names
  ∧ length names = size fo
  ∧ ∀ i j a b, names !! i = Some a → names !! j = Some b → (i < j)%nat →
      str_leb a b = true ∧ str_leb b a = false.
Proof.
  cbv zeta. split; [apply sorted_listing_elem|].
  split; [apply sorted_listing_NoDup|]. split.
  { unfold sorted_listing. rewrite merge_sort_Permutation.
    rewrite <- size_dom. reflexivity. }
  intros i j a b Hi Hj Hij.
  pose proof (StronglySorted_lookup _ _ i j a b (sorted_listing_sorted fo) Hi Hj Hij)
    as Hab%Is_true_true.
  split; [done|]. destruct (str_leb b a) eqn:Hba; [|done].
  pose proof (str_leb_antisym a b Hab Hba) as ->.
  pose proof (NoDup_lookup _ i j b (sorted_listing_NoDup fo) Hi Hj). lia.
Qed.

(** ** Candidate names *)

Section Candidates.

Lemma suffix_start_bounds (name : str) (i : nat) :
  suffix_start name = Some i → (0 < i ∧ S i < length name)%nat.
Proof.
  unfold suffix_start. destruct (rfind DOT name) as [k|]; [|done].
  case_bool_decide; [|done]. by intros [= <-].
Qed.

Lemma lower_length (s : str) : length (lower s) = length s.
Proof. unfold lower. apply length_fmap. Qed.

End Candidates.

(** X8.  A name passes the extension test of [iter_audio_files] only if
    it has a non-empty stem before its last dot and, after that dot, one
    of the ten extensions in any mix of upper and lower case: a name that
    starts with its only dot, or has no dot, is never taken. *)
Theorem audio_name_shape (name : str) :
  lower (py_suffix name) ∈ AUDIO_EXTS →
  ∃ stem ext,
    name = stem ++ DOT :: ext
    ∧ stem ≠ [] ∧ ext ≠ [] ∧ (DOT ∉ ext)
    ∧ py_stem name = stem ∧ py_suffix name = DOT :: ext
    ∧ DOT :: lower ext ∈ AUDIO_EXTS.
Proof.
  unfold py_suffix, py_stem. destruct (suffix_start name) as [i|] eqn:Hs.
  2:{ intros H. exfalso. revert H. by apply (bool_decide_unpack _). }
  intros Hin. destruct (suffix_one_dot name i Hs) as (t & Ht & Hdot).
  destruct (suffix_start_bounds name i Hs) as [Hi Hlen].
  exists (take i name), t. rewrite <- Ht, take_drop.
  split; [done|]. split.
  { intros H%(f_equal length). rewrite length_take in H. cbn in H. lia. }
  split.
  { intros ->. apply (f_equal length) in Ht. rewrite length_drop in Ht.
    cbn in Ht. lia. }
  split; [done|]. split; [done|]. split; [done|].
  rewrite Ht in Hin. exact Hin.
Qed.

Lemma audio_name_shape_witness :
  ∃ stem ext, lit "Talk.one.MP3" = stem ++ DOT :: ext ∧ stem ≠ [] ∧ DOT ∉ ext.
Proof.
  destruct (audio_name_shape (lit "Talk.one.MP3")) as (stem & ext & H & Hs & _ & Hd & _).
  - by apply (bool_decide_unpack _).
  - by exists stem, ext.
Defined.

(** ** The ledger: loading, appending, joining *)

(** X1.  On a ledger that decodes as UTF-8 the load returns, and the set
    it returns holds exactly the hashes of the lines that, stripped,
    decode to an object with a non-empty string under [sha256]: blank
    lines, lines that are no JSON, and records without a usable hash are
    passed over. *)
Theorem ledger_load_passes_over_bad_lines (b : bytes) (text : str) :
  utf8_decode b = Some text →
  ∃ seen, load_done_hashes (Some b) = Ok seen
          ∧ ∀ h, h ∈ seen
                 ↔ ∃ line, line ∈ splitlines (universal_newlines text)
                           ∧ line_hash line = Some h.
Proof.
  intros Hdec. unfold load_done_hashes, read_text. rewrite Hdec.
  eexists; split; [reflexivity|]. intros h.
  rewrite elem_of_foldl_done_step. split; [|by right].
  intros [[]%elem_of_empty|H]; done.
Qed.

Lemma ledger_load_passes_over_bad_lines_witness :
  ∃ seen, load_done_hashes (Some ledger_cut_at_char) = Ok seen
          ∧ ∀ h, h ∈ seen
                 ↔ ∃ line,
                     line ∈ splitlines
                              (universal_newlines
                                 (qlit "{'sha256': 'ab', 'audio_file': 'a.mp3'}"
                                  ++ [LF]
                                  ++ qlit "{'sha256': 'cd', 'audio_file': 'li"))
                     ∧ line_hash line = Some h.
Proof.
  apply (ledger_load_passes_over_bad_lines ledger_cut_at_char).
  vm_compute. reflexivity.
Defined.

(** X3.  Append, then load.  A record whose first key is [sha256], with
    a non-empty hash, whose texts are plain, appended to a ledger that is
    missing or whole, is found by the next load: the set loaded grows by
    that hash, and the ledger is whole again. *)
Theorem ledger_append_then_load (w : World) (seen : gset str)
    (c : N) (h : str) (rest : list (str * str)) :
  let record := (lit "sha256", c :: h) :: rest in
  let w' := append_index_record record w in
  ledger_whole (index_file w) →
  load_done_hashes (index_file w) = Ok seen →
  plain_record record →
  lit "sha256" ∉ rest.*1 →
  ledger_whole (index_file w')
  ∧ load_done_hashes (index_file w') = Ok (seen ∪ {[c :: h]})
  ∧ ledger w' = ledger w ++ utf8_encode (json_dumps record ++ [LF]).
Proof.
  intros record w' Hw Hl Hp Hk.
  destruct (appended_record_is_loaded (index_file w) seen c h rest Hw Hl Hp Hk)
    as [Hw' Hl'].
  split; [exact Hw'|]. split; [exact Hl'|]. reflexivity.
Qed.

Lemma ledger_append_then_load_witness :
  let w' := append_index_record
              [(lit "sha256", lit "cd"); (lit "audio_file", lit "a b.mp3")]
              world_one in
  load_done_hashes (index_file w') = Ok ({[ lit "ab" ]} ∪ {[ lit "cd" ]}).
Proof.
  apply (ledger_append_then_load world_one {[ lit "ab" ]} 99 [100]
           [(lit "audio_file", lit "a b.mp3")]).
  - vm_compute. by right.
  - vm_compute. reflexivity.
  - repeat constructor; by apply (bool_decide_unpack _).
  - by apply (bool_decide_unpack _).
Defined.

Section Join.

Lemma foldl_done_step_union (lines : list str) (seen : gset str) :
  foldl done_step seen lines = seen ∪ foldl done_step ∅ lines.
Proof.
  apply set_eq. intros h.
  rewrite elem_of_union, !elem_of_foldl_done_step. split.
  - intros [?|?]; [by left|by right; right].
  - intros [?|[[]%elem_of_empty|?]]; [by left|by right].
Qed.

Lemma splitlines_app_whole (u v : str) :
  u = [] ∨ (∃ u', u = u' ++ [LF]) →
  splitlines (u ++ v) = splitlines u ++ splitlines v.
Proof.
  intros [->|[u' ->]]; [done|]. unfold splitlines.
  rewrite <- app_assoc. cbn [app]. apply splitlines_aux_app_LF.
Qed.

Lemma universal_newlines_app_whole (s t : str) :
  s = [] ∨ (∃ s', s = s' ++ [LF]) →
  universal_newlines (s ++ t) = universal_newlines s ++ universal_newlines t
  ∧ (universal_newlines s = [] ∨ ∃ u', universal_newlines s = u' ++ [LF]).
Proof.
  intros [->|[s' ->]]; [split; [done|by left]|].
  rewrite <- app_assoc. cbn [app]. split; [apply universal_newlines_app_LF|].
  right. apply universal_newlines_ends_LF.
Qed.

End Join.

(** X4.  Two ledgers joined.  When the first ledger is whole, loading
    the two files one after the other in one file gives the union of
    what each of them gives. *)
Theorem ledger_join (b1 b2 : bytes) (seen1 seen2 : gset str) :
  ledger_whole (Some b1) →
  load_done_hashes (Some b1) = Ok seen1 →
  load_done_hashes (Some b2) = Ok seen2 →
  load_done_hashes (Some (b1 ++ b2)) = Ok (seen1 ∪ seen2).
Proof.
  intros Hw H1 H2.
  destruct (ledger_whole_text _ Hw) as (s1 & Hd1 & Hend & Hl1).
  cbn [default from_option id] in Hd1. rewrite Hl1 in H1. injection H1 as <-.
  unfold load_done_hashes, read_text in H2 |- *.
  rewrite (utf8_decode_app b1 b2 s1 Hd1).
  destruct (utf8_decode b2) as [s2|]; [|done]. injection H2 as <-. cbn [fmap option_fmap option_map].
  destruct (universal_newlines_app_whole s1 s2 Hend) as [-> Hu].
  rewrite splitlines_app_whole by done.
  by rewrite foldl_app, foldl_done_step_union.
Qed.

Lemma ledger_join_witness :
  load_done_hashes (Some (ledger_one ++ ledger_cut_at_char))
  = Ok ({[ lit "ab" ]} ∪ {[ lit "ab" ]}).
Proof.
  apply ledger_join.
  - vm_compute. by right.
  - vm_compute. reflexivity.
  - vm_compute. reflexivity.
Defined.

(** ** Two runs in a row *)

(** X5.  A run that starts from a missing or whole ledger, with plain
    names and oracle texts, returns, and leaves a whole ledger that loads
    to the very seen-set with which the run ended: a restart resumes
    where the run stopped. *)
Theorem run_leaves_ledger_in_step (E : Env) (cfg : Config) (w : World) :
  plain_env E → plain_cfg cfg →
  ledger_whole (index_file w) →
  Forall plain (sorted_listing (inbox w)) →
  ∃ status r,
    main E cfg w = Ok (status, r)
    ∧ ledger_whole (index_file (world r))
    ∧ load_done_hashes (index_file (world r)) = Ok (done_hashes r).
Proof.
  intros HE Hcfg Hw Hn.
  destruct (main_keeps_ledger_in_sync E cfg HE Hcfg w Hw Hn) as (st & r & Hm & Hs & Hl).
  by exists st, r.
Qed.

Lemma run_leaves_ledger_in_step_witness :
  ∃ status r,
    main env_ok cfg_keep world_one = Ok (status, r)
    ∧ ledger_whole (index_file (world r))
    ∧ load_done_hashes (index_file (world r)) = Ok (done_hashes r).
Proof.
  apply run_leaves_ledger_in_step.
  - apply env_ok_plain.
  - apply cfg_keep_plain.
  - vm_compute. by right.
  - replace (sorted_listing (inbox world_one)) with [lit "talk.mp3"]
      by (vm_compute; reflexivity).
    constructor; [|constructor]. by apply (bool_decide_unpack _).
Defined.



(** ** Transcript names, the size gate, and one item *)

(** X21.  Two transcripts of one base name.  After a file has been
    written at the path [make_unique_txt_path] returned, the next call
    for the same base name returns another path, unused in the folder as
    it was and as it is: an earlier transcript is never written over. *)
Theorem make_unique_txt_path_next (fo : folder) (X : str) (v : Node) :
  let p := make_unique_txt_path fo X in
  let p' := make_unique_txt_path (<[p := v]> fo) X in
  p' ≠ p ∧ fo !! p = None ∧ fo !! p' = None ∧ (<[p := v]> fo) !! p' = None.
Proof.
  intros p p'.
  pose proof (make_unique_txt_path_fresh (<[p := v]> fo) X) as Hnew. fold p' in Hnew.
  assert (Hne : p' ≠ p).
  { intros Heq. rewrite Heq, lookup_insert_eq in Hnew. done. }
  split; [done|]. split; [apply make_unique_txt_path_fresh|]. split; [|done].
  by rewrite lookup_insert_ne in Hnew.
Qed.

Section Gate.

Variable E : Env.

Lemma maybe_compress_path (name p : str) (limit : Z) (w : World) :
  (maybe_compress_if_too_large E name limit w).1 = Ok p →
  p = name ∨ p = with_suffix name (lit ".compressed.m4a").
Proof.
  unfold maybe_compress_if_too_large.
  destruct (inbox w !! name); [|done]. case_bool_decide; [by intros [= <-]; left|].
  destruct (if exists_ _ _ then _ else _) as [[[]|e] w1]; [|done].
  destruct (check_call_ffmpeg _ _ _ _) as [[[]|e] w2]; [|done].
  intros [= <-]. by right.
Qed.

Lemma maybe_compress_same (name : str) (limit : Z) (w : World) :
  (maybe_compress_if_too_large E name limit w).1 = Ok name →
  (maybe_compress_if_too_large E name limit w).2 = w.
Proof.
  unfold maybe_compress_if_too_large.
  destruct (inbox w !! name); [|done]. case_bool_decide; [done|].
  destruct (if exists_ _ _ then _ else _) as [[[]|e] w1]; [|done].
  destruct (check_call_ffmpeg _ _ _ _) as [[[]|e] w2]; [|done].
  intros [= Heq]. by apply with_suffix_compressed_ne in Heq.
Qed.

Lemma unlink_stdout (name : str) (w : World) : stdout (unlink name w).2 = stdout w.
Proof. unfold unlink. by repeat case_match. Qed.

Lemma check_call_ffmpeg_stdout (src dst : str) (w : World) :
  stdout (check_call_ffmpeg E src dst w).2 = stdout w.
Proof. unfold check_call_ffmpeg. by repeat case_match. Qed.

Lemma maybe_compress_stdout (name : str) (limit : Z) (w : World) :
  stdout (maybe_compress_if_too_large E name limit w).2 = stdout w.
Proof.
  unfold maybe_compress_if_too_large.
  destruct (inbox w !! name); [|done]. case_bool_decide; [done|].
  destruct (exists_ _ _).
  - pose proof (unlink_stdout (with_suffix name (lit ".compressed.m4a")) w) as Hu.
    destruct (unlink _ w) as [[[]|e] w1]; cbn [snd] in Hu; [|done].
    pose proof (check_call_ffmpeg_stdout name
                  (with_suffix name (lit ".compressed.m4a")) w1) as Hc.
    destruct (check_call_ffmpeg _ _ _ w1) as [[[]|e] w2]; cbn [snd] in *; congruence.
  - pose proof (check_call_ffmpeg_stdout name
                  (with_suffix name (lit ".compressed.m4a")) w) as Hc.
    by destruct (check_call_ffmpeg _ _ _ w) as [[[]|e] w2].
Qed.

End Gate.

(** X17.  Whatever the size gate does, and whether it returns or
    raises, it leaves the audio file itself and every other entry of the
    inbox as they are: only the entry at the derived path can change.
    Transcripts, archive, ledger, error log and output are untouched, the
    path it returns is the input path or the derived path, and when it
    returns the input path nothing has happened at all. *)
Theorem size_gate_touches_derived_path_only (E : Env) (name : str) (limit : Z)
    (w : World) :
  let res := (maybe_compress_if_too_large E name limit w).1 in
  let w' := (maybe_compress_if_too_large E name limit w).2 in
  let compressed := with_suffix name (lit ".compressed.m4a") in
  (∀ k, k ≠ compressed → inbox w' !! k = inbox w !! k)
  ∧ inbox w' !! name = inbox w !! name
  ∧ transcripts w' = transcripts w ∧ archive w' = archive w
  ∧ index_file w' = index_file w ∧ errors_log w' = errors_log w
  ∧ stdout w' = stdout w
  ∧ (∀ p, res = Ok p → p = name ∨ p = compressed)
  ∧ (res = Ok name → w' = w).
Proof.
  intros res w' compressed.
  destruct (wframe_maybe_compress E name limit w) as [Hi Ht Ha _ He _].
  fold w' compressed in Hi, Ht, Ha, He.
  assert (Hk : ∀ k, k ≠ compressed → inbox w' !! k = inbox w !! k).
  { intros k Hk. apply Hi. by intros ->%list_elem_of_singleton. }
  split; [done|]. split.
  { apply Hk. intros Heq. symmetry in Heq. by apply with_suffix_compressed_ne in Heq. }
  split; [by apply agree_off_nil|]. split; [by apply agree_off_nil|].
  split; [apply maybe_compress_index|]. split; [done|].
  split; [apply maybe_compress_stdout|].
  split; [intros p; apply maybe_compress_path|apply maybe_compress_same].
Qed.

(** X2.  A readable candidate whose hash is in the seen-set is skipped:
    the only tally that moves is [skipped]; the service is not called;
    ledger, transcripts, error log, output and seen-set stay as they
    are.  With the archive switch off, or when the move raises because a
    directory of the archive has the name, the whole world stays as it
    is and the item still counts as skipped, not as failed. *)
Theorem duplicate_is_skipped (E : Env) (cfg : Config) (name : str)
    (d : FileData) (r : Run) :
  candidate (world r) name d →
  readable d = true →
  sha256_hex E (content d) ∈ done_hashes r →
  let o := (process_item E cfg name r).1 in
  let r' := (process_item E cfg name r).2 in
  o = Skipped
  ∧ skipped r' = S (skipped r) ∧ ok r' = ok r ∧ failed r' = failed r
  ∧ done_hashes r' = done_hashes r
  ∧ index_file (world r') = index_file (world r)
  ∧ transcripts (world r') = transcripts (world r)
  ∧ errors_log (world r') = errors_log (world r)
  ∧ stdout (world r') = stdout (world r)
  ∧ filter (λ ev, is_transcribe ev = true) (trace (world r'))
    = filter (λ ev, is_transcribe ev = true) (trace (world r))
  ∧ (move_skipped cfg = false ∨ archive (world r) !! name = Some Dir →
     world r' = world r).
Proof.
  intros Hc Hrd Hseen o r'.
  destruct (seen_hash_is_skipped E cfg name d r Hc Hrd Hseen)
    as (Ho & Hs & Hok & Hf & Hi & Ht & He & Htr).
  fold o r' in Ho, Hs, Hok, Hf, Hi, Ht, He, Htr.
  destruct Hc as [Hin Hext].
  assert (Hr' : r' = if move_skipped cfg
                     then on_world (λ w, (path_replace name w).2) (incr_skipped r)
                     else incr_skipped r).
  { subst r'. unfold process_item, sha256_file.
    rewrite Hin, Hrd. rewrite bool_decide_eq_true_2 by done. cbn [negb].
    by rewrite bool_decide_eq_true_2 by done. }
  split; [done|]. split; [done|]. split; [done|]. split; [done|].
  split. { rewrite Hr'. by destruct (move_skipped cfg). }
  split; [done|]. split; [done|]. split; [done|].
  split.
  { rewrite Hr'. destruct (move_skipped cfg); [|done]. cbn.
    unfold path_replace. rewrite Hin.
    by destruct (archive (world r) !! name) as [[]|]. }
  split; [done|].
  rewrite Hr'. intros [Hm|Hdir].
  - by rewrite Hm.
  - destruct (move_skipped cfg); [|done]. cbn. unfold path_replace.
    by rewrite Hin, Hdir.
Qed.

Lemma duplicate_is_skipped_witness :
  (process_item env_ok cfg_move (lit "talk.mp3")
     (mkRun world_blocked {[ toy_sha256 (blit "abc") ]} 0 0 0)).1 = Skipped.
Proof.
  refine (proj1 (duplicate_is_skipped env_ok cfg_move (lit "talk.mp3")
                   (mkFile (blit "abc") 0 true)
                   (mkRun world_blocked {[ toy_sha256 (blit "abc") ]} 0 0 0) _ _ _)).
  - split; [vm_compute; reflexivity|by apply (bool_decide_unpack _)].
  - reflexivity.
  - cbn [done_hashes content sha256_hex env_ok]. by apply elem_of_singleton.
Defined.

Section OneItem.

Variable E : Env.
Variable cfg : Config.

(** The second part of the [try] block, when it raises: either nothing
    has been committed, or everything has and the exception is the one
    of the move to the archive. *)
Lemma upload_and_commit_Raise (name file_hash stamp txt_path : str)
    (l0 l : Loc) (e : exn) :
  upload_and_commit E cfg name file_hash stamp txt_path l0 = (Raise e, l) →
  (ok (run l) = ok (run l0) ∧ done_hashes (run l) = done_hashes (run l0)
   ∧ index_file (world (run l)) = index_file (world (run l0))
   ∧ transcripts (world (run l)) = transcripts (world (run l0)))
  ∨ (move_audio cfg = true ∧ ok (run l) = S (ok (run l0))
     ∧ done_hashes (run l) = done_hashes (run l0) ∪ {[file_hash]}
     ∧ ∃ text w1 w2,
         transcribe_with_openai E (working_audio l0) (model cfg) (language cfg)
           (print (lit "Transcribing " ++ name) (world (run l0))) = (Ok text, w1)
         ∧ write_text E txt_path (transcript_text cfg stamp name file_hash text) w1
           = (Ok (), w2)
         ∧ world (run l)
           = append_index_record
               (index_record cfg file_hash name txt_path stamp
                  (now_iso E (clock w2)))
               (tick w2)
         ∧ (path_replace name (world (run l))).1 = Raise e).
Proof.
  unfold upload_and_commit, bind, on_run, in_world, read_working_audio, ret.
  cbn.
  pose proof (wframe_transcribe E (working_audio l0) (model cfg) (language cfg)
                (print (lit "Transcribing " ++ name) (world (run l0)))) as Hf1.
  pose proof (transcribe_index E (working_audio l0) (model cfg) (language cfg)
                (print (lit "Transcribing " ++ name) (world (run l0)))) as Hi1.
  destruct (transcribe_with_openai _ _ _ _ _) as [[text|e1] w1] eqn:Htr.
  2:{ intros [= <- <-]. left. cbn in *. split; [done|]. split; [done|].
      split; [done|]. destruct Hf1 as [_ Ht _ _ _ _]. by apply agree_off_nil in Ht. }
  cbn.
  destruct (write_text _ _ _ _) as [[[]|e2] w2] eqn:Hwr.
  2:{ intros [= <- <-]. left. cbn in *. split; [done|]. split; [done|].
      unfold write_text in Hwr. destruct (transcripts w1 !! txt_path) as [[]|]; try done.
      injection Hwr as _ <-. split; [done|].
      destruct Hf1 as [_ Ht _ _ _ _]. by apply agree_off_nil in Ht. }
  cbn. destruct (move_audio cfg); [|done].
  destruct (path_replace name _) as [[[]|e3] w4] eqn:Hrep; [done|].
  cbn [world run on_world incr_ok add_done] in Hrep.
  assert (Hw4 : w4 = append_index_record
                       (index_record cfg file_hash name txt_path stamp
                          (now_iso E (clock w2))) (tick w2)).
  { unfold path_replace in Hrep. repeat case_match; by simplify_eq. }
  subst w4.
  intros [= <- <-]. right. cbn. split; [done|]. split; [done|]. split; [done|].
  exists text, w1, w2. split; [done|]. split; [done|].
  split; [done|]. by rewrite Hrep.
Qed.

Lemma gate_step_tallies (name : str) (d : FileData) (l l' : Loc) res :
  gate_step E cfg name d l = (res, l') →
  ok (run l') = ok (run l) ∧ skipped (run l') = skipped (run l)
  ∧ ((working_audio l' = working_audio l ∧ created_temp l' = created_temp l)
     ∨ (working_audio l' = name ∧ created_temp l' = false)
     ∨ working_audio l' = with_suffix name (lit ".compressed.m4a")).
Proof.
  intros Hg. apply gate_step_inv in Hg
    as [(_ & _ & ->)|(_ & gr & w1 & Hm & Hres)]; [by auto|].
  destruct gr as [p|e]; destruct Hres as [_ ->]; cbn; [|by auto].
  split; [done|]. split; [done|]. right.
  destruct (maybe_compress_path E name p (max_bytes cfg) (world (run l))) as [->| ->];
    [by rewrite Hm| |by right].
  left. split; [done|]. by rewrite bool_decide_eq_false_2 by (by intros ?).
Qed.

(** The path in [working_audio] when the [try] block ends. *)
Lemma try_block_working_audio (name : str) (d : FileData)
    (file_hash stamp txt_path : str) (r : Run) res (l : Loc) :
  try_block E cfg name d file_hash stamp txt_path (mkLoc r name false) = (res, l) →
  (working_audio l = name ∧ created_temp l = false)
  ∨ working_audio l = with_suffix name (lit ".compressed.m4a").
Proof.
  unfold try_block, bind.
  destruct (gate_step E cfg name d (mkLoc r name false)) as [[[]|e] l1] eqn:Hg.
  - intros Hu. apply gate_step_tallies in Hg as (_ & _ & Hw). cbn in Hw.
    apply (upload_and_commit_locals E cfg name) in Hu as [-> ->].
    destruct Hw as [?|[?|?]]; auto.
  - intros [= <- <-]. apply gate_step_tallies in Hg as (_ & _ & Hw). cbn in Hw.
    destruct Hw as [?|[?|?]]; auto.
Qed.

Lemma process_item_touch (name : str) (r : Run) :
  let r' := (process_item E cfg name r).2 in
  agree_off [name; with_suffix name (lit ".compressed.m4a")]
    (inbox (world r)) (inbox (world r'))
  ∧ agree_off [name] (archive (world r)) (archive (world r')).
Proof.
  intros r'. subst r'.
  destruct (process_item E cfg name r) as [o r'] eqn:Hp. cbn [snd].
  apply process_item_inv in Hp
    as [(_ & -> & _)|(d & Hc & [(e & _ & _ & ->)|(Hrd & Hp)])].
  { split; apply agree_off_refl. }
  { split; apply agree_off_refl. }
  cbv zeta in Hp. destruct Hp as [(_ & _ & ->)|(_ & res & l & Htry & Hres)].
  { destruct (move_skipped cfg); [|split; apply agree_off_refl].
    destruct (wframe_path_replace name (world r)) as [Hi _ Ha _ _ _]. cbn.
    split; [|done]. eapply agree_off_weaken; [|exact Hi].
    intros k. rewrite !elem_of_cons, !elem_of_nil. tauto. }
  pose proof (try_block_working_audio _ _ _ _ _ _ _ _ Htry) as Hwa.
  pose proof (try_block_lframe E cfg name d _ _ _ _ _ _ Htry) as [[Hi _ Ha _ _ _] _ _ _ _].
  cbn in Hi, Ha.
  assert (Hfin : ∀ l2, working_audio l2 = working_audio l →
            agree_off [name; with_suffix name (lit ".compressed.m4a")]
              (inbox (world (run l2))) (inbox (world (finally l2)))
            ∧ agree_off [name] (archive (world (run l2))) (archive (world (finally l2)))).
  { intros l2 Hl2. destruct (finally_spec l2) as ([Hi2 _ Ha2 _ _ _] & _).
    rewrite Hl2 in Hi2. split.
    - eapply agree_off_weaken; [|exact Hi2].
      intros k. rewrite !elem_of_cons, !elem_of_nil. destruct Hwa as [[-> _]| ->]; tauto.
    - eapply agree_off_weaken; [|exact Ha2]. by intros k ?%elem_of_nil. }
  destruct res as [[]|e]; destruct Hres as [_ ->].
  - destruct (Hfin l eq_refl) as [Hi2 Ha2].
    split; eapply agree_off_trans; eauto.
  - match goal with |- context [finally ?l2] => destruct (Hfin l2 eq_refl) as [Hi2 Ha2] end.
    cbn in Hi2, Ha2. split; eapply agree_off_trans; eauto.
Qed.

Lemma process_item_tallies (name : str) (r : Run) :
  let o := (process_item E cfg name r).1 in
  let r' := (process_item E cfg name r).2 in
  skipped r' = (skipped r + (if is_skipped o then 1 else 0))%nat
  ∧ (ok r + (if is_transcribed o then 1 else 0) ≤ ok r')%nat
  ∧ (ok r' ≤ ok r + (if is_transcribed o then 1 else 0)
             + (if is_failed_try o then 1 else 0))%nat.
Proof.
  intros o r'. subst o r'.
  destruct (process_item E cfg name r) as [o r'] eqn:Hp. cbn [fst snd].
  apply process_item_inv in Hp
    as [(-> & -> & _)|(d & Hc & [(e & _ & -> & ->)|(Hrd & Hp)])].
  { cbn. lia. }
  { cbn. lia. }
  cbv zeta in Hp. destruct Hp as [(_ & -> & ->)|(_ & res & l & Htry & Hres)].
  { destruct (move_skipped cfg); cbn; lia. }
  assert (Hl : skipped (run l) = skipped r
               ∧ match res with
                 | Ok _ => ok (run l) = S (ok r)
                 | Raise _ => ok (run l) = ok r ∨ ok (run l) = S (ok r)
                 end).
  { unfold try_block, bind in Htry.
    destruct (gate_step E cfg name d (mkLoc r name false)) as [[[]|e] l1] eqn:Hg.
    - apply gate_step_tallies in Hg as (Hok & Hsk & _). cbn in Hok, Hsk.
      pose proof (upload_and_commit_lframe E cfg name _ _ _ _ _ _ Htry)
        as [_ _ Hsk2 _ _].
      split; [congruence|]. destruct res as [[]|e].
      + apply upload_and_commit_Ok in Htry as (_ & _ & _ & _ & _ & _ & _ & Hok2 & _).
        congruence.
      + apply upload_and_commit_Raise in Htry
          as [(Hok2 & _)|(_ & Hok2 & _)]; [left|right]; congruence.
    - injection Htry as <- <-. apply gate_step_tallies in Hg as (Hok & Hsk & _).
      cbn in Hok, Hsk. split; [done|]. by left. }
  destruct Hl as [Hsk Hok].
  destruct res as [[]|e]; destruct Hres as [-> ->].
  - destruct (finally_spec l) as (_ & _ & Hfo & Hfs & _).
    cbn [is_skipped is_transcribed is_failed_try]. rewrite Hfo, Hfs. lia.
  - match goal with |- context [finally ?l2] =>
      destruct (finally_spec l2) as (_ & _ & Hfo & Hfs & _) end.
    cbn [is_skipped is_transcribed is_failed_try]. rewrite Hfo, Hfs. cbn.
    destruct Hok; lia.
Qed.

End OneItem.

(** X18.  Processing one entry of the listing, whatever becomes of it,
    leaves every inbox entry other than its own and the derived
    [.compressed.m4a] path as it is, leaves every archive entry of
    another name as it is, keeps every file of the transcript folder,
    and only extends the ledger and the error log at their end. *)
Theorem process_item_touches_own_files (E : Env) (cfg : Config) (name : str)
    (r : Run) :
  let r' := (process_item E cfg name r).2 in
  (∀ k, k ≠ name → k ≠ with_suffix name (lit ".compressed.m4a") →
        inbox (world r') !! k = inbox (world r) !! k)
  ∧ (∀ k, k ≠ name → archive (world r') !! k = archive (world r) !! k)
  ∧ transcripts (world r) ⊆ transcripts (world r')
  ∧ ledger (world r) `prefix_of` ledger (world r')
  ∧ errors_log (world r) `prefix_of` errors_log (world r').
Proof.
  intros r'. destruct (process_item_touch E cfg name r) as [Hi Ha].
  fold r' in Hi, Ha.
  split. { intros k H1 H2. apply Hi. rewrite !elem_of_cons, elem_of_nil. tauto. }
  split. { intros k H1. apply Ha. rewrite !elem_of_cons, elem_of_nil. tauto. }
  subst r'. destruct (process_item E cfg name r) as [o r'] eqn:Hp.
  by apply process_item_step in Hp as ((? & ? & ?) & _).
Qed.

Section Tallies.

Variable E : Env.
Variable cfg : Config.

Lemma count_cons (p : Outcome → bool) (o : Outcome) (os : list Outcome) :
  count p (o :: os) = ((if p o then 1 else 0) + count p os)%nat.
Proof.
  unfold count. rewrite filter_cons.
  destruct (p o); [by rewrite decide_True|by rewrite decide_False].
Qed.

End Tallies.

(** X19.  The tallies of the final line.  [skipped] and [failed] grow
    by exactly the number of skipped and of failed entries; [ok] grows by
    the number of transcribed entries, plus at most one for each entry
    that failed inside the [try] block (an entry that failed after its
    commit is counted in both). *)
Theorem run_tallies (E : Env) (cfg : Config) (names : list str) (r : Run) :
  let os := (run_items E cfg names r).1 in
  let r' := (run_items E cfg names r).2 in
  skipped r' = (skipped r + count is_skipped os)%nat
  ∧ failed r' = (failed r + count is_failure os)%nat
  ∧ (ok r + count is_transcribed os ≤ ok r')%nat
  ∧ (ok r' ≤ ok r + count is_transcribed os + count is_failed_try os)%nat
  ∧ length os = length names.
Proof.
  cbv zeta. split; [|split; [apply run_items_failed|]].
  - revert r. induction names as [|name names IH]; intros r; [cbn; lia|].
    rewrite run_items_cons. cbn [fst snd]. rewrite IH, count_cons.
    destruct (process_item_tallies E cfg name r) as (-> & _). lia.
  - split; [|split; [|apply run_items_length]].
    + revert r. induction names as [|name names IH]; intros r; [cbn; lia|].
      rewrite run_items_cons. cbn [fst snd]. rewrite count_cons.
      destruct (process_item_tallies E cfg name r) as (_ & Hlo & _).
      specialize (IH (process_item E cfg name r).2). lia.
    + revert r. induction names as [|name names IH]; intros r; [cbn; lia|].
      rewrite run_items_cons. cbn [fst snd]. rewrite !count_cons.
      destruct (process_item_tallies E cfg name r) as (_ & _ & Hhi).
      specialize (IH (process_item E cfg name r).2). lia.
Qed.

(** X20.  Counted twice.  When an entry ends as failed although the
    success tally went up, the exception came from the move to the
    archive, after the commit: the transcript and the ledger record of
    the entry exist, its hash is in the seen-set, the audio file is
    still in the inbox, and the run reports the entry both as a success
    and as a failure. *)
Theorem failed_after_commit (E : Env) (cfg : Config) (name : str)
    (r r' : Run) (e : exn) :
  process_item E cfg name r = (Failed e, r') →
  ok r' = S (ok r) →
  move_audio cfg = true
  ∧ failed r' = S (failed r)
  ∧ committed E cfg name (world r')
  ∧ ∃ d, candidate (world r) name d
         ∧ sha256_hex E (content d) ∈ done_hashes r'
         ∧ inbox (world r') !! name = Some (File d).
Proof.
  intros Hp Hok.
  pose proof (process_item_step E cfg name r r' (Failed e) Hp) as (_ & Hfail & _).
  cbn in Hfail.
  apply process_item_inv in Hp
    as [(? & _)|(d & Hc & [(e' & _ & ? & _)|(Hrd & Hp)])]; [done..|].
  cbv zeta in Hp. destruct Hp as [(_ & ? & _)|(_ & res & l & Htry & Hres)]; [done|].
  destruct res as [[]|e']; destruct Hres as [Ho Hr']; [done|]. injection Ho as <-.
  pose proof (try_block_working_audio E cfg _ _ _ _ _ _ _ _ Htry) as Hwa.
  unfold try_block, bind in Htry.
  destruct (gate_step E cfg name d (mkLoc r name false)) as [[[]|eg] l1] eqn:Hg.
  2:{ injection Htry as <- <-. apply gate_step_tallies in Hg as (Hok1 & _).
      exfalso. subst r'.
      match goal with H : ok (finally ?l2) = _ |- _ =>
        destruct (finally_spec l2) as (_ & _ & Hfo & _); rewrite Hfo in H; cbn in H end.
      cbn in Hok1. lia. }
  pose proof (gate_step_lframe E cfg name d _ _ _ Hg) as [[Hgi _ _ _ _ _] _ _ _ _].
  apply gate_step_tallies in Hg as (Hok1 & _). cbn in Hok1, Hgi.
  apply upload_and_commit_Raise in Htry
    as [(Hok2 & _)|(Hmove & Hok2 & Hdone & text & w1 & w2 & Htr & Hwr & Hw3 & Hrep)].
  { exfalso. subst r'.
    match goal with H : ok (finally ?l2) = _ |- _ =>
      destruct (finally_spec l2) as (_ & _ & Hfo & _); rewrite Hfo in H; cbn in H end.
    lia. }
  split; [done|]. split; [lia|].
  set (l2 := mkLoc _ (working_audio l) (created_temp l)) in Hr'.
  destruct (finally_spec l2) as (Hfin & _ & _ & _ & Hfd). rewrite <- Hr' in Hfin, Hfd.
  assert (Hcom : committed E cfg name (world (run l))).
  { apply write_text_Ok in Hwr.
    exists d, (make_unique_txt_path (transcripts (world r))
                 (date_stamp_for_filename E d ++ [SP] ++ safe_stem (py_stem name))),
      text, (now_iso E (clock w2)), (mkFile (utf8_encode
        (transcript_text cfg (date_stamp_for_filename E d) name
           (sha256_hex E (content d)) text)) (now_ts E (clock w1)) true).
    cbv zeta. rewrite Hw3, Hwr. cbn. split; [by rewrite lookup_insert_eq|].
    split; [done|]. eexists _, []. rewrite app_nil_r. reflexivity. }
  split.
  { eapply committed_grows; [exact Hcom|].
    eapply grows_trans; [|eapply wframe_grows; [exact Hfin|by intros k ?%elem_of_nil]].
    subst l2. split; [|split]; cbn; [done|done|by apply prefix_app_r]. }
  exists d. split; [done|]. split.
  { rewrite Hfd. subst l2. cbn. rewrite Hdone.
    by apply elem_of_union_r, elem_of_singleton. }
  (* the audio file is still in the inbox *)
  destruct Hc as [Hin Hext].
  assert (Hin3 : inbox (world (run l)) !! name = Some (File d)).
  { rewrite Hw3. cbn. apply write_text_Ok in Hwr. rewrite Hwr. cbn.
    pose proof (wframe_transcribe E (working_audio l1) (model cfg) (language cfg)
                  (print (lit "Transcribing " ++ name) (world (run l1)))) as [Hti _ _ _ _ _].
    rewrite Htr in Hti. cbn in Hti. apply agree_off_nil in Hti. rewrite Hti.
    rewrite Hgi; [done|].
    intros Hk%list_elem_of_singleton. symmetry in Hk.
    by apply with_suffix_compressed_ne in Hk. }
  destruct Hfin as [Hfi _ _ _ _ _]. subst l2. cbn in Hfi.
  destruct Hwa as [[Hwa Hct]|Hwa].
  - subst r'. unfold finally. cbn. by rewrite Hct.
  - rewrite Hfi; [done|]. rewrite Hwa. intros Hk%list_elem_of_singleton.
    symmetry in Hk. by apply with_suffix_compressed_ne in Hk.
Qed.

Lemma failed_after_commit_witness :
  let r' := (process_item env_ok cfg_move (lit "talk.mp3") (start world_blocked)).2 in
  (ok r', failed r') = (1, 1)%nat
  ∧ committed env_ok cfg_move (lit "talk.mp3") (world r').
Proof.
  intros r'.
  destruct (failed_after_commit env_ok cfg_move (lit "talk.mp3")
              (start world_blocked) r' (IsADirectoryError (lit "talk.mp3")))
    as (_ & _ & Hc & _).
  - vm_compute. reflexivity.
  - vm_compute. reflexivity.
  - split; [vm_compute; reflexivity|exact Hc].
Defined.

(** ** A failure and the other entries *)

Section Isolation.

Variable E : Env.
Variable cfg : Config.





End Isolation.




(** The decoder reads nested arrays. *)
Lemma json_loads_nested :
  json_loads nested_text
  = Some (JArr [JArr [JArr [JNum false (lit "1")]];
                JArr [JNum false (lit "2"); JArr [JNum false (lit "3")]]]).
Proof. vm_compute. reflexivity. Qed.

(** ** The decoder never runs out of fuel *)

Section Decoder.

Lemma skip_ws_length (s : str) : (length (skip_ws s) ≤ length s)%nat.
Proof.
  induction s as [|c r IH]; [done|]. cbn [skip_ws].
  destruct (is_json_ws c); cbn [length]; lia.
Qed.

Lemma skip_ws_cons_length (s r : str) (c : N) :
  skip_ws s = c :: r → (length r < length s)%nat.
Proof.
  intros H. pose proof (skip_ws_length s) as Hl. rewrite H in Hl. cbn in Hl. lia.
Qed.

Lemma scanstring_shorter (n : nat) (s acc x r : str) :
  (length s ≤ n)%nat → scanstring s acc = Some (x, r) →
  (length r < length s)%nat.
Proof.
  revert s acc. induction n as [|n IH]; intros s acc Hn Hs.
  { destruct s; [done|cbn in Hn; lia]. }
  destruct s as [|c s]; [done|]. cbn [scanstring] in Hs. cbn [length] in *.
  assert (Hrec : ∀ t acc', (length t ≤ length s)%nat →
            scanstring t acc' = Some (x, r) → (length r < S (length s))%nat).
  { intros t acc' Ht Hsc. apply IH in Hsc; lia. }
  repeat match type of Hs with
  | (if ?b then _ else _) = _ => destruct b
  | match ?l with [] => _ | _ :: _ => _ end = _ =>
      let e := fresh "e" in let l' := fresh "l" in
      destruct l as [|e l']; cbn [length] in *
  | (_ ≫= _) = _ => apply bind_Some in Hs as (? & _ & Hs)
  | None = Some _ => discriminate Hs
  end;
  try (injection Hs as _ <-; cbn [length]; lia);
  try (eapply Hrec; [|exact Hs]; cbn [length]; lia).
Qed.

Lemma after_prefix_length (p s r : str) :
  after_prefix p s = Some r → (length r + length p = length s)%nat.
Proof.
  revert s. induction p as [|a p IH]; intros s; cbn [after_prefix].
  - intros [= <-]. cbn. lia.
  - destruct s as [|b s]; [done|]. destruct (a =? b); [|done].
    intros H%IH. cbn. lia.
Qed.

Lemma span_digits_length (s d r : str) :
  span_digits s = (d, r) → (length r ≤ length s)%nat.
Proof.
  revert d r. induction s as [|c s IH]; intros d r; cbn [span_digits].
  - intros [= _ <-]. done.
  - destruct (is_digit c).
    + destruct (span_digits s) as [d' r'] eqn:Hsp. intros [= _ <-].
      specialize (IH d' r' eq_refl). cbn. lia.
    + intros [= _ <-]. done.
Qed.

Lemma match_integer_shorter (s i r : str) :
  match_integer s = Some (i, r) → (length r < length s)%nat.
Proof.
  unfold match_integer.
  destruct s as [|c0 r0]; [done|].
  destruct (c0 =? 45).
  - destruct r0 as [|c r1]; [done|]. cbn [length] in *.
    destruct (c =? 48); [intros [= _ <-]; lia|].
    destruct (is_digit c); [|done].
    destruct (span_digits r1) as [d r'] eqn:Hsp. intros [= _ <-].
    apply span_digits_length in Hsp. lia.
  - cbn [length] in *.
    destruct (c0 =? 48); [intros [= _ <-]; lia|].
    destruct (is_digit c0); [|done].
    destruct (span_digits r0) as [d r'] eqn:Hsp. intros [= _ <-].
    apply span_digits_length in Hsp. lia.
Qed.

Lemma match_frac_length (s f r : str) :
  match_frac s = (f, r) → (length r ≤ length s)%nat.
Proof.
  unfold match_frac. destruct s as [|c s']; [by intros [= _ <-]|].
  destruct (c =? 46); [|by intros [= _ <-]].
  destruct (span_digits s') as [[|d0 d] r'] eqn:Hsp; intros [= _ <-]; [done|].
  apply span_digits_length in Hsp. cbn. lia.
Qed.

Lemma match_exp_length (s e r : str) :
  match_exp s = (e, r) → (length r ≤ length s)%nat.
Proof.
  unfold match_exp. destruct s as [|c s']; [by intros [= _ <-]|].
  destruct ((c =? 101) || (c =? 69)); [|by intros [= _ <-]].
  destruct s' as [|c' r'].
  - cbn. by intros [= _ <-].
  - destruct ((c' =? 45) || (c' =? 43)).
    + destruct (span_digits r') as [[|d0 d] r2] eqn:Hsp; intros [= _ <-]; [done|].
      apply span_digits_length in Hsp. cbn. lia.
    + destruct (span_digits (c' :: r')) as [[|d0 d] r2] eqn:Hsp;
        intros [= _ <-]; [done|].
      apply span_digits_length in Hsp. cbn in *. lia.
Qed.

Lemma match_number_shorter (s : str) (v : json) (r : str) :
  match_number s = Some (v, r) → (length r < length s)%nat.
Proof.
  unfold match_number. destruct (match_integer s) as [[i r1]|] eqn:Hi; [|done].
  cbn. destruct (match_frac r1) as [f r2] eqn:Hf.
  destruct (match_exp r2) as [e r3] eqn:He. intros [= _ <-].
  apply match_integer_shorter in Hi. apply match_frac_length in Hf.
  apply match_exp_length in He. lia.
Qed.

Lemma scan_constant_shorter (s : str) (v : json) (r : str) :
  scan_constant s = Some (v, r) → (length r < length s)%nat.
Proof.
  unfold scan_constant.
  repeat match goal with
  | |- match after_prefix ?p s with _ => _ end = _ → _ =>
      let H := fresh "H" in
      destruct (after_prefix p s) eqn:H;
        [intros [= _ <-]; apply after_prefix_length in H;
         revert H; vm_compute (length p); lia|]
  | |- match match_number s with _ => _ end = _ → _ =>
      let H := fresh "H" in
      destruct (match_number s) as [[? ?]|] eqn:H;
        [intros [= _ <-]; by apply match_number_shorter in H|]
  end.
  done.
Qed.

End Decoder.

Section Fuel.

Lemma scanner_fuel (f : nat) :
  fuel_enough (λ f s (_ : unit), scan_once f s) 1 f
  ∧ fuel_enough (λ f s (_ : unit), JSONObject f s) 3 f
  ∧ fuel_enough object_members 2 f
  ∧ fuel_enough (λ f s (_ : unit), JSONArray f s) 3 f
  ∧ fuel_enough array_elements 2 f.
Proof.
  induction f as [|f (IHso & IHo & IHom & IHa & IHae)].
  { unfold fuel_enough. split; [|split; [|split; [|split]]];
      intros ? ? ? ? H; cbn in H; done. }
  split; [|split; [|split; [|split]]].
  - (* scan_once *)
    intros s [] res b H Hb. destruct b as [|b]; [lia|].
    cbn [scan_once] in *. destruct s as [|c r]; [done|]. cbn [length] in *.
    destruct (c =? QUOTE).
    { destruct (scanstring r []) as [[x r']|] eqn:Hs; [|done].
      cbn in *. injection H as <-. split; [done|]. cbn.
      apply (scanstring_shorter (length r)) in Hs; lia. }
    destruct (c =? 123).
    { destruct (IHo r () res b H ltac:(lia)) as [-> Hl]. split; [done|]. lia. }
    destruct (c =? 91).
    { destruct (IHa r () res b H ltac:(lia)) as [-> Hl]. split; [done|]. lia. }
    split; [done|]. destruct res as [v r']. by apply scan_constant_shorter in H.
  - (* JSONObject *)
    intros s [] res b H Hb. destruct b as [|b]; [lia|].
    cbn [JSONObject] in *.
    destruct (skip_ws s) as [|c r] eqn:Hsk; [done|].
    apply skip_ws_cons_length in Hsk.
    destruct (c =? 125); [injection H as <-; by split|].
    destruct (c =? QUOTE); [|done].
    destruct (IHom r [] res b H ltac:(lia)) as [-> Hl]. split; [done|]. lia.
  - (* object_members *)
    intros s acc res b H Hb. destruct b as [|b]; [lia|].
    cbn [object_members] in *.
    destruct (scanstring s []) as [[key r1]|] eqn:Hs; [|done]. cbn in *.
    apply (scanstring_shorter (length s)) in Hs; [|lia].
    destruct (skip_ws r1) as [|c r2] eqn:Hsk1; [done|].
    apply skip_ws_cons_length in Hsk1.
    destruct (c =? 58); [|done].
    pose proof (skip_ws_length r2) as Hsk2.
    destruct (scan_once f (skip_ws r2)) as [[value r3]|] eqn:Hv; [|done].
    destruct (IHso (skip_ws r2) () (value, r3) b Hv ltac:(lia)) as [-> Hl3].
    cbn in *.
    destruct (skip_ws r3) as [|c' r4] eqn:Hsk3; [done|].
    apply skip_ws_cons_length in Hsk3.
    destruct (c' =? 125); [injection H as <-; split; [done|cbn; lia]|].
    destruct (c' =? 44); [|done].
    destruct (skip_ws r4) as [|c'' r5] eqn:Hsk4; [done|].
    apply skip_ws_cons_length in Hsk4.
    destruct (c'' =? QUOTE); [|done].
    destruct (IHom r5 _ res b H ltac:(lia)) as [-> Hl]. split; [done|]. lia.
  - (* JSONArray *)
    intros s [] res b H Hb. destruct b as [|b]; [lia|].
    cbn [JSONArray] in *.
    destruct (skip_ws s) as [|c r] eqn:Hsk; [done|].
    pose proof (skip_ws_length s) as Hl0. rewrite Hsk in Hl0.
    apply skip_ws_cons_length in Hsk.
    destruct (c =? 93); [injection H as <-; by split|].
    destruct (IHae (c :: r) [] res b H ltac:(lia)) as [-> Hl]. split; [done|]. lia.
  - (* array_elements *)
    intros s acc res b H Hb. destruct b as [|b]; [lia|].
    cbn [array_elements] in *.
    destruct (scan_once f s) as [[value r1]|] eqn:Hv; [|done].
    destruct (IHso s () (value, r1) b Hv ltac:(lia)) as [-> Hl1]. cbn in *.
    destruct (skip_ws r1) as [|c r2] eqn:Hsk1; [done|].
    apply skip_ws_cons_length in Hsk1.
    destruct (c =? 93); [injection H as <-; split; [done|cbn; lia]|].
    destruct (c =? 44); [|done].
    pose proof (skip_ws_length r2) as Hsk2.
    destruct (IHae (skip_ws r2) _ res b H ltac:(lia)) as [-> Hl]. split; [done|]. lia.
Qed.

(** Fuel above three units per character and one more is never used
    up: the scanner gives the same result with any such fuel. *)
Lemma scan_once_enough_fuel (s : str) (f : nat) :
  (3 * length s + 1 ≤ f)%nat →
  scan_once f s = scan_once (3 * length s + 1) s.
Proof.
  intros Hf. destruct (scan_once f s) as [res|] eqn:H1.
  - destruct (scanner_fuel f) as (Hso & _).
    by destruct (Hso s () res (3 * length s + 1)%nat H1 ltac:(lia)) as [-> _].
  - destruct (scan_once (3 * length s + 1) s) as [res|] eqn:H2; [|done].
    destruct (scanner_fuel (3 * length s + 1)) as (Hso & _).
    destruct (Hso s () res f H2 Hf) as [H3 _]. congruence.
Qed.

(** [json_loads] gives its scanner enough fuel: with more fuel the
    result would be the same. *)
Lemma json_loads_enough_fuel (s : str) (f : nat) :
  (S (3 * length s) ≤ f)%nat →
  scan_once f (skip_ws s) = scan_once (S (3 * length s)) (skip_ws s).
Proof.
  intros Hf. pose proof (skip_ws_length s) as Hl.
  rewrite (scan_once_enough_fuel (skip_ws s) f) by lia.
  by rewrite (scan_once_enough_fuel (skip_ws s) (S (3 * length s))) by lia.
Qed.

End Fuel.
